(** * whisper-dictation: the transcript normaliser and the capture controller

    A shallow embedding of [dict.py].  Strings are lists of characters; a
    character is a code point below 256 (Latin-1), which covers every
    character the program's patterns, replacements and placeholders are made
    of; what is proved is proved of texts of such characters.  The regular
    expressions of the program are kept as data and run by a small
    backtracking matcher that follows Python's [re] module: greedy
    repetition, alternatives in priority order, leftmost match first. *)

From Stdlib Require Import String Ascii List Bool Arith ZArith Lia.
Import ListNotations.
Local Open Scope list_scope.

(** ** Characters *)

Definition str := list ascii.

Definition L (s : string) : str := list_ascii_of_string s.

Arguments L s%_string.

Definition code (c : ascii) : nat := nat_of_ascii c.

Definition dquote : ascii := ascii_of_nat 34.
Definition newline : ascii := ascii_of_nat 10.

Definition between (lo hi n : nat) : bool := (lo <=? n) && (n <=? hi).

(** [\s] on [str] patterns, and the characters [str.strip()] removes. *)
Definition is_space (c : ascii) : bool :=
  let n := code c in
  between 9 13 n || between 28 32 n || (n =? 133) || (n =? 160).

(** [\w]: alphanumeric or underscore. *)
Definition is_word (c : ascii) : bool :=
  let n := code c in
  between 48 57 n || between 65 90 n || (n =? 95) || between 97 122 n
  || (n =? 170) || between 178 179 n || (n =? 181) || between 185 186 n
  || between 188 190 n || between 192 214 n || between 216 246 n
  || between 248 255 n.

(** The form [re.IGNORECASE] compares characters by, one character for
    one, on code points below 256.  ([str.lower] agrees with it there; beyond
    them Python knows more forms of i, s and k, U+0130, U+0131, U+017F and
    U+212A, which no text of this development holds.) *)
Definition lower (c : ascii) : ascii :=
  let n := code c in
  if between 65 90 n || between 192 214 n || between 216 222 n
  then ascii_of_nat (n + 32) else c.

Definition eq_char (ic : bool) (c d : ascii) : bool :=
  if ic then Ascii.eqb (lower c) (lower d) else Ascii.eqb c d.

(** ** Regular expressions *)

Inductive regex : Type :=
| Chr (c : ascii)            (* a literal character *)
| Cls (cs : list ascii)      (* [...] *)
| Ws                         (* \s *)
| Bnd                        (* \b *)
| Cat (r1 r2 : regex)
| Opt (r : regex)            (* r?  *)
| Star (r : regex)           (* r*  *)
| Plus (r : regex)           (* r+  *)
| Grp (r : regex)            (* (r), group 1 *)
| Ref.                       (* \1 *)

Declare Scope re_scope.
Delimit Scope re_scope with re.
Bind Scope re_scope with regex.
Infix "+++" := Cat (at level 60, right associativity) : re_scope.

(** A run of literal characters. *)
Fixpoint lits (w : str) : regex :=
  match w with
  | [] => Opt (Cls [])
  | [c] => Chr c
  | c :: w' => Cat (Chr c) (lits w')
  end.

Definition word (w : string) : regex := lits (L w).

Arguments word w%_string.

(** A matcher state: the current position and the span of group 1. *)
Definition mstate : Type := nat * option (nat * nat).

Definition pos (st : mstate) : nat := fst st.
Definition cap (st : mstate) : option (nat * nat) := snd st.

(** Greedy iteration of a matcher: try one more round first, then stop.  A
    round that consumes nothing is cut. *)
Fixpoint iter (f : mstate -> list mstate) (fuel : nat) (st : mstate)
  : list mstate :=
  match fuel with
  | 0 => [st]
  | S n =>
      flat_map (fun st' => if pos st <? pos st' then iter f n st' else [])
               (f st) ++ [st]
  end.

Definition slice (s : str) (a b : nat) : str := firstn (b - a) (skipn a s).

(** [w] is a prefix of [t], up to case when [ic] is set. *)
Fixpoint prefix_of (ic : bool) (w t : str) : bool :=
  match w, t with
  | [], _ => true
  | c :: w', d :: t' => eq_char ic c d && prefix_of ic w' t'
  | _ :: _, [] => false
  end.

Fixpoint eq_str (ic : bool) (u v : str) : bool :=
  match u, v with
  | [], [] => true
  | c :: u', d :: v' => eq_char ic c d && eq_str ic u' v'
  | _, _ => false
  end.

Section Matcher.

Variable ic : bool.   (* re.IGNORECASE *)
Variable s : str.     (* the subject string *)

Definition word_at (i : nat) : bool :=
  match nth_error s i with
  | Some c => is_word c
  | None => false
  end.

(** [\b] holds at [i] when exactly one of the characters before and at
    [i] is a word character; outside the string counts as none. *)
Definition boundary (i : nat) : bool :=
  xorb (match i with 0 => false | S j => word_at j end) (word_at i).

Definition one (p : ascii -> bool) (st : mstate) : list mstate :=
  match nth_error s (pos st) with
  | Some d => if p d then [(S (pos st), cap st)] else []
  | None => []
  end.

(** All the ways [r] matches from [st], best first. *)
Fixpoint run (r : regex) (st : mstate) : list mstate :=
  match r with
  | Chr c => one (eq_char ic c) st
  | Cls cs => one (fun d => existsb (fun c => eq_char ic c d) cs) st
  | Ws => one is_space st
  | Bnd => if boundary (pos st) then [st] else []
  | Cat r1 r2 => flat_map (run r2) (run r1 st)
  | Opt r1 => run r1 st ++ [st]
  | Star r1 => iter (run r1) (length s - pos st) st
  | Plus r1 =>
      flat_map (fun st' => iter (run r1) (length s - pos st') st')
               (run r1 st)
  | Grp r1 =>
      map (fun st' => (pos st', Some (pos st, pos st'))) (run r1 st)
  | Ref =>
      match cap st with
      | Some (a, b) =>
          let n := b - a in
          if (pos st + n <=? length s)
             && eq_str ic (slice s a b) (slice s (pos st) (pos st + n))
          then [(pos st + n, cap st)] else []
      | None => []
      end
  end.

(** [pattern.match(s, i)]: the preferred match starting at [i]. *)
Definition match_at (r : regex) (i : nat) : option mstate :=
  hd_error (run r (i, None)).

End Matcher.

(** ** Substitution *)

(** A replacement template: literal text and [\1]. *)
Inductive piece : Type :=
| Txt (t : str)
| G1.

Definition template := list piece.

Definition expand (s : str) (t : template) (c : option (nat * nat)) : str :=
  flat_map (fun p =>
              match p with
              | Txt t => t
              | G1 => match c with Some (a, b) => slice s a b | None => [] end
              end) t.

Section Sub.

Variable ic : bool.
Variable r : regex.
Variable repl : template.
Variable s : str.

(** The scan of [re.sub]: at each position either a match is replaced and
    the scan resumes at its end, or one character is copied. *)
Fixpoint sub_loop (fuel i : nat) : str :=
  match fuel with
  | 0 => []
  | S n =>
      match match_at ic s r i with
      | Some st =>
          if i <? pos st
          then expand s repl (cap st) ++ sub_loop n (pos st)
          else match nth_error s i with
               | Some c => expand s repl (cap st) ++ c :: sub_loop n (S i)
               | None => expand s repl (cap st)
               end
      | None =>
          match nth_error s i with
          | Some c => c :: sub_loop n (S i)
          | None => []
          end
      end
  end.

End Sub.

(** [re.sub(r, repl, s, flags)] *)
Definition re_sub (ic : bool) (r : regex) (repl : template) (s : str) : str :=
  sub_loop ic r repl s (S (length s)) 0.

Definition starts_with (p s : str) : bool := prefix_of false p s.

(** [s.replace(old, new)] for a non-empty [old]; [skip] counts the
    characters of the occurrence just replaced that are still to be passed. *)
Fixpoint replace_from (old new : str) (skip : nat) (s : str) : str :=
  match s with
  | [] => []
  | c :: s' =>
      match skip with
      | S k => replace_from old new k s'
      | 0 =>
          if starts_with old s
          then new ++ replace_from old new (length old - 1) s'
          else c :: replace_from old new 0 s'
      end
  end.

Definition replace (old new s : str) : str := replace_from old new 0 s.

(** [s.strip()] *)
Fixpoint lstrip (s : str) : str :=
  match s with
  | c :: s' => if is_space c then lstrip s' else s
  | [] => []
  end.

Definition strip (s : str) : str := rev (lstrip (rev (lstrip s))).

(** ** The rewrite rules of the program *)

Local Open Scope re_scope.

Definition punct3 : regex := Cls (L ",.?").     (* [,.?]  *)
Definition punct4 : regex := Cls (L ",.!?").    (* [,.!?] *)
Definition sp : regex := Chr " "%char.

Definition trail : regex := Opt punct3 +++ Opt sp.   (* [,.?]? ?  *)

Definition REPLACEMENTS_REAL : list (regex * template) :=
  [ (* \bactual new ?line\b[,.?]? ? *)
    (Bnd +++ word "actual new" +++ Opt sp +++ word "line" +++ Bnd +++ trail,
     [Txt (L "NEW_LINE_PLACEHOLDER")]);
    (* \bactual inverted comma\b[,.?]? ? *)
    (Bnd +++ word "actual inverted comma" +++ Bnd +++ trail,
     [Txt (L "INVERTED_COMMA_PLACEHOLDER")]);
    (* \bactual comma\b[,.?]? ? *)
    (Bnd +++ word "actual comma" +++ Bnd +++ trail,
     [Txt (L "COMMA_PLACEHOLDER")]);
    (* \bactual full stop\b[,.?]? ? *)
    (Bnd +++ word "actual full stop" +++ Bnd +++ trail,
     [Txt (L "FULL_STOP_PLACEHOLDER")]) ].

Definition REPLACEMENTS : list (regex * template) :=
  [ (* \bnew ?line\b[,.?]? ? *)
    (Bnd +++ word "new" +++ Opt sp +++ word "line" +++ Bnd +++ trail,
     [Txt [newline]]);
    (* \binverted comma\b[,.?]? *)
    (Bnd +++ word "inverted comma" +++ Bnd +++ Opt punct3,
     [Txt [dquote]]);
    (* \bcomma\b[,.?]? ? *)
    (Bnd +++ word "comma" +++ Bnd +++ trail,
     [Txt (L ", ")]);
    (* \bfull stop\b[,.?]? ? *)
    (Bnd +++ word "full stop" +++ Bnd +++ trail,
     [Txt (L ". ")]) ].

Definition PLACEHOLDERS : list (str * str) :=
  [ (L "NEW_LINE_PLACEHOLDER", L "new line ");
    (L "INVERTED_COMMA_PLACEHOLDER", L "inverted comma ");
    (L "COMMA_PLACEHOLDER", L "comma ");
    (L "FULL_STOP_PLACEHOLDER", L "full stop ") ].

(** The three loops of [clean_transcript]. *)
Definition protect (t : str) : str :=
  fold_left (fun temp '(pattern, replacement) =>
               re_sub true pattern replacement temp) REPLACEMENTS_REAL t.

Definition substitute (t : str) : str :=
  fold_left (fun temp '(pattern, replacement) =>
               re_sub true pattern replacement temp) REPLACEMENTS t.

Definition restore (t : str) : str :=
  fold_left (fun temp '(placeholder, text) =>
               replace placeholder text temp) PLACEHOLDERS t.

Definition clean_transcript (transcript : str) : str :=
  restore (substitute (protect transcript)).

(** The substitutions of [stop_recording_and_process], lines 112 to 119. *)
Definition CLEANUP : list (regex * template) :=
  [ (* ([,.!?])(?:\s*\1)+  to  \1 *)
    (Grp punct4 +++ Plus (Star Ws +++ Ref), [G1]);
    (* ,\s*\.  to  . *)
    (Chr ","%char +++ Star Ws +++ Chr "."%char, [Txt (L ".")]);
    (* \s+([,.!?])  to  \1 *)
    (Plus Ws +++ Grp punct4, [G1]);
    (* quote \s+  to  quote *)
    (Chr dquote +++ Plus Ws, [Txt [dquote]]);
    (* \s+ quote  to  quote *)
    (Plus Ws +++ Chr dquote, [Txt [dquote]]);
    (* quote ,  to  quote *)
    (Chr dquote +++ Chr ","%char, [Txt [dquote]]);
    (* , quote  to  space quote *)
    (Chr ","%char +++ Chr dquote, [Txt (" "%char :: [dquote])]) ].

Definition cleanup (cleaned : str) : str :=
  fold_left (fun cleaned '(pattern, replacement) =>
               re_sub false pattern replacement cleaned) CLEANUP cleaned.

(** What is typed for a transcript, before the trailing space. *)
Definition normalize (transcript : str) : str :=
  cleanup (clean_transcript transcript).

(** ** The spoken words, described directly

    What the four patterns of [REPLACEMENTS] are meant to match, written
    without the matcher: a phrase standing between two word boundaries, in
    any case, then at most one of the marks , . ? and, where the pattern ends
    in an optional space, at most one space. *)

Definition phrase_at (s w : str) (i : nat) : bool :=
  boundary s i && prefix_of true w (skipn i s) && boundary s (i + length w).

(** One step over the character at [j] when it satisfies [p]. *)
Definition skip_if (p : ascii -> bool) (s : str) (j : nat) : nat :=
  match nth_error s j with
  | Some d => if p d then S j else j
  | None => j
  end.

Definition is_mark (d : ascii) : bool :=
  Ascii.eqb d ","%char || Ascii.eqb d "."%char || Ascii.eqb d "?"%char.

Definition is_blank (d : ascii) : bool := Ascii.eqb d " "%char.

(** The end of the spoken word that starts at [i], if one does. *)
Definition spoken (phrases : list str) (space : bool) (s : str) (i : nat)
  : option nat :=
  match find (fun w => phrase_at s w i) phrases with
  | Some w =>
      let j := skip_if is_mark s (i + length w) in
      Some (if space then skip_if is_blank s j else j)
  | None => None
  end.

(** The pattern [r] matches at no position of [t]. *)
Definition no_match_in (ic : bool) (t : str) (r : regex) : bool :=
  forallb (fun i => match match_at ic t r i with
                    | Some _ => false
                    | None => true
                    end)
          (seq 0 (S (length t))).

Definition settled (t : str) : bool :=
  forallb (fun '(pattern, _) => no_match_in false t pattern) CLEANUP.

(** No word character from [e] up to [j]. *)
Definition gap (s : str) (e j : nat) : Prop :=
  forall k, e <= k < j -> word_at s k = false.

(** A placeholder token: word characters only, longer than any phrase. *)
Definition token_like (T : str) : Prop :=
  forallb is_word T = true /\ 14 < length T.

(** Characters and commas together: what every cleanup match lowers. *)
Definition weight (t : str) : nat :=
  length t + count_occ ascii_dec t ","%char.

(** The states with capture [c] inside the string. *)
Definition inside (s : str) (c : option (nat * nat)) (st : mstate) : Prop :=
  cap st = c /\ pos st <= length s.

(** Every match of [r] is non-empty, ends inside the string, and is
    replaced by something lighter than what it covers. *)
Definition shrinks (r : regex) (repl : template) : Prop :=
  forall s i st,
    In st (run false s r (i, None)) ->
    i < pos st /\ pos st <= length s
    /\ weight (expand s repl (cap st)) < weight (slice s i (pos st)).

(** [u] from [du] on and [v] from [dv] on differ at some common position. *)
Definition differ (u v : str) (du dv : nat) : bool :=
  existsb (fun m => match nth_error u (du + m), nth_error v (dv + m) with
                    | Some c, Some d => negb (Ascii.eqb c d)
                    | _, _ => false
                    end)
          (seq 0 (length u)).

(** No occurrence of [old] can share a character with an occurrence of
    [R]. *)
Definition apart (old R : str) : bool :=
  forallb (fun d => differ old R d 0) (seq 1 (length old - 1))
  && forallb (fun d => differ old R 0 d) (seq 0 (length R)).

(** No occurrence of [R] can begin inside another one. *)
Definition no_border (R : str) : bool :=
  forallb (fun d => differ R R d 0) (seq 1 (length R - 1)).

(** An occurrence of [old] that shares a character with an occurrence of
    [R] begins [k] characters before it. *)
Definition apart_but (k : nat) (old R : str) : bool :=
  forallb (fun d => (d =? k) || differ old R d 0) (seq 1 (length old - 1))
  && forallb (fun d => differ old R 0 d) (seq 0 (length R)).

(** The collapse pattern, the first of [CLEANUP], matches somewhere. *)
Definition has_repeated_punctuation (t : str) : bool :=
  negb (no_match_in false t (Grp punct4 +++ Plus (Star Ws +++ Ref))).

(** The transcripts of the two worked examples. *)
Definition said_quote : str :=
  L "she said inverted comma hi there inverted comma".

Definition hello_world : str :=
  L "hello comma comma world full stop full stop".

(** ** The capture controller *)

(** A key as [pynput] reports it: the hotkey, or any other key. *)
Inductive key : Type :=
| ctrl_r
| other_key (n : nat).

Definition HOTKEY : key := ctrl_r.
Definition KEY : key := HOTKEY.

Definition key_eqb (a b : key) : bool :=
  match a, b with
  | ctrl_r, ctrl_r => true
  | other_key n, other_key m => n =? m
  | _, _ => false
  end.

(** What a call of [apply_whisper] comes to: the text of the response, an
    [OpenAIError], or any other exception. *)
Inductive outcome : Type :=
| Text (t : str)
| OpenAIError (e : str)
| OtherError (e : str).

(** A handler returns normally or lets an exception escape. *)
Inductive result (A : Type) : Type :=
| Done (a : A)
| Raised (e : str).

Arguments Done {A} a.
Arguments Raised {A} e.

Section Controller.

Variable sample : Type.               (* a float sample of the device *)
Variable to_int16 : sample -> Z.      (* scale by 32767, truncate *)

Definition chunk : Type := list sample.
Definition wav : Type := list Z.

(** [apply_whisper]: the answer of the service to the [n]-th request, by
    its payload.  Writing the payload to the temporary WAV file is taken to
    succeed here; [Files] below is the controller whose files can fail. *)
Variable apply_whisper : nat -> wav -> outcome.

(** The globals [recording] and [audio_data], with what the program has
    printed, typed and sent so far. *)
Record state : Type := mkState {
  recording : bool;
  audio_data : list chunk;
  console : list str;
  typed : list str;
  requests : list wav
}.

Definition print (line : str) (st : state) : state :=
  mkState (recording st) (audio_data st) (console st ++ [line])
          (typed st) (requests st).

Definition keyboard_type (text : str) (st : state) : state :=
  mkState (recording st) (audio_data st) (console st)
          (typed st ++ [text]) (requests st).

Definition send (w : wav) (st : state) : state :=
  mkState (recording st) (audio_data st) (console st)
          (typed st) (requests st ++ [w]).

(** [np.concatenate] raises on an empty list of arrays. *)
Definition np_concatenate (l : list chunk) : option chunk :=
  match l with
  | [] => None
  | _ => Some (concat l)
  end.

Definition start_recording (st : state) : state :=
  print (L "Listening...")
        (mkState true [] (console st) (typed st) (requests st)).

Definition stop_recording_and_process (st : state) : result state :=
  let st := mkState false (audio_data st) (console st) (typed st)
                    (requests st) in
  let st := print (L "Transcribing...") st in
  match audio_data st with
  | [] => Done (print (L "No audio recorded") st)
  | _ :: _ =>
      match np_concatenate (audio_data st) with
      | None => Raised (L "need at least one array to concatenate")
      | Some audio_np =>
          let audio_int16 := map to_int16 audio_np in
          match apply_whisper (length (requests st)) audio_int16 with
          | Text t =>
              let transcript := strip t in
              match transcript with
              | [] => Done (send audio_int16 st)
              | _ :: _ =>
                  let cleaned := cleanup (clean_transcript transcript) in
                  Done (keyboard_type (cleaned ++ L " ")
                                      (send audio_int16 st))
              end
          | OpenAIError e =>
              Done (print (L "OpenAI error: " ++ e) (send audio_int16 st))
          | OtherError e =>
              Done (print (L "Error: " ++ e) (send audio_int16 st))
          end
      end
  end.

Definition on_press (k : key) (st : state) : result state :=
  if key_eqb k KEY && negb (recording st)
  then Done (start_recording st) else Done st.

Definition on_release (k : key) (st : state) : result state :=
  if key_eqb k KEY && recording st
  then stop_recording_and_process st else Done st.

Definition callback (indata : chunk) (status : option str) (st : state)
  : result state :=
  let st := match status with
            | Some m => print (L "Audio status: " ++ m) st
            | None => st
            end in
  if recording st
  then Done (mkState (recording st) (audio_data st ++ [indata])
                     (console st) (typed st) (requests st))
  else Done st.

(** What the listener and the input stream deliver. *)
Inductive event : Type :=
| Press (k : key)
| Release (k : key)
| Audio (indata : chunk) (status : option str).

Definition handle (e : event) (st : state) : result state :=
  match e with
  | Press k => on_press k st
  | Release k => on_release k st
  | Audio indata status => callback indata status st
  end.

(** The events in order, until a handler raises. *)
Fixpoint listen (evs : list event) (st : state) : result state :=
  match evs with
  | [] => Done st
  | e :: evs' =>
      match handle e st with
      | Done st' => listen evs' st'
      | Raised x => Raised x
      end
  end.

(** The two states of the controller and its transition table. *)
Inductive mode : Type := Idle | Recording.

Definition mode_of (st : state) : mode :=
  if recording st then Recording else Idle.

Definition table (m : mode) (e : event) : mode :=
  match m, e with
  | Idle, Press ctrl_r => Recording
  | Recording, Release ctrl_r => Idle
  | _, _ => m
  end.

End Controller.

Arguments mkState {sample} _ _ _ _ _.
Arguments recording {sample} _.
Arguments audio_data {sample} _.
Arguments console {sample} _.
Arguments typed {sample} _.
Arguments requests {sample} _.
Arguments Press {sample} _.
Arguments Release {sample} _.
Arguments Audio {sample} _ _.
Arguments print {sample} line st.
Arguments keyboard_type {sample} text st.
Arguments send {sample} w st.
Arguments np_concatenate {sample} l.
Arguments start_recording {sample} st.
Arguments stop_recording_and_process {sample} to_int16 apply_whisper st.
Arguments on_press {sample} k st.
Arguments on_release {sample} to_int16 apply_whisper k st.
Arguments callback {sample} indata status st.
Arguments handle {sample} to_int16 apply_whisper e st.
Arguments listen {sample} to_int16 apply_whisper evs st.
Arguments mode_of {sample} st.
Arguments table {sample} m e.

(** An [apply_whisper] for examples: the first request fails, later ones
    answer. *)
Definition demo_whisper (n : nat) (w : list Z) : outcome :=
  match n with
  | 0 => OpenAIError (L "Connection error.")
  | S _ => Text (L " hello comma world ")
  end.

(** ** Event sequences *)

Section Events.

Variable sample : Type.

Definition is_audio (e : event sample) : bool :=
  match e with
  | Audio _ _ => true
  | _ => false
  end.

(** The chunks the input stream delivers, in order. *)
Fixpoint chunks_of (evs : list (event sample)) : list (chunk sample) :=
  match evs with
  | [] => []
  | Audio indata _ :: evs' => indata :: chunks_of evs'
  | _ :: evs' => chunks_of evs'
  end.

(** The lines [callback] prints for the statuses delivered. *)
Fixpoint status_lines (evs : list (event sample)) : list str :=
  match evs with
  | [] => []
  | Audio _ (Some m) :: evs' => (L "Audio status: " ++ m) :: status_lines evs'
  | _ :: evs' => status_lines evs'
  end.

(** A press or release of a key that is not the hotkey. *)
Definition other_key_event (e : event sample) : bool :=
  match e with
  | Press (other_key _) | Release (other_key _) => true
  | _ => false
  end.

Fixpoint hotkey_releases (evs : list (event sample)) : nat :=
  match evs with
  | [] => 0
  | Release ctrl_r :: evs' => S (hotkey_releases evs')
  | _ :: evs' => hotkey_releases evs'
  end.

End Events.

Arguments is_audio {sample} e.
Arguments chunks_of {sample} evs.
Arguments status_lines {sample} evs.
Arguments other_key_event {sample} e.
Arguments hotkey_releases {sample} evs.

(** What a text typed by the program is: the cleaned form of an answer of
    the service, followed by one space. *)
Definition from_answer (apply_whisper : nat -> wav -> outcome) (x : str)
  : Prop :=
  exists n w txt,
    apply_whisper n w = Text txt /\ strip txt <> []
    /\ x = cleanup (clean_transcript (strip txt)) ++ L " ".

(** The phrases of the literal-substitute phase. *)
Definition spoken_phrases : list str :=
  [L "new line"; L "newline"; L "inverted comma"; L "comma"; L "full stop"].

(** No spoken phrase stands anywhere in [t] and no placeholder token occurs
    in it. *)
Definition plain (t : str) : bool :=
  forallb (fun i =>
             forallb (fun w => negb (phrase_at t w i)) spoken_phrases
             && forallb (fun '(T, _) => negb (starts_with T (skipn i t)))
                        PLACEHOLDERS)
          (seq 0 (S (length t))).

(** No two neighbours [x], [y] of [l] with [bad x y]. *)
Fixpoint no_pair (bad : ascii -> ascii -> bool) (l : str) : bool :=
  match l with
  | x :: (y :: _) as l' => negb (bad x y) && no_pair bad l'
  | _ => true
  end.

Definition is_mark4 (d : ascii) : bool :=
  existsb (fun c => Ascii.eqb c d) (L ",.!?").

(** White space directly before one of the marks , . ! ? *)
Definition space_mark (x y : ascii) : bool := is_space x && is_mark4 y.

(** A comma directly before a quote. *)
Definition comma_quote (x y : ascii) : bool :=
  Ascii.eqb x ","%char && Ascii.eqb y dquote.

(** After white space only, a mark stands. *)
Fixpoint lead_in (l : str) : bool :=
  match l with
  | [] => false
  | c :: l' => if is_space c then lead_in l' else is_mark4 c
  end.

Definition lead (s : str) (k : nat) : bool := lead_in (skipn k s).

(** The white space from [k] up to [j]. *)
Definition spaces (s : str) (k j : nat) : Prop :=
  forall m, k <= m < j ->
            exists d, nth_error s m = Some d /\ is_space d = true.

(** ** The temporary WAV file

    In [stop_recording_and_process] the temporary WAV file is created and
    written on lines 105 and 106, before the [try] of line 107.  An exception
    raised there is caught by neither [except] clause: it leaves
    [on_release].  The controller above takes these lines to succeed; the one
    below lets them fail. *)

Module Files.

Section Controller.

Variable sample : Type.
Variable to_int16 : sample -> Z.

(** [NamedTemporaryFile] and [wavfile.write] (lines 105, 106) for the
    [n]-th request: [None] when the file is written, the exception raised
    otherwise. *)
Variable wavfile_write : nat -> wav -> option str.

Variable apply_whisper : nat -> wav -> outcome.

Definition stop_recording_and_process (st : state sample)
  : result (state sample) :=
  let st := mkState false (audio_data st) (console st) (typed st)
                    (requests st) in
  let st := print (L "Transcribing...") st in
  match audio_data st with
  | [] => Done (print (L "No audio recorded") st)
  | _ :: _ =>
      match np_concatenate (audio_data st) with
      | None => Raised (L "need at least one array to concatenate")
      | Some audio_np =>
          let audio_int16 := map to_int16 audio_np in
          match wavfile_write (length (requests st)) audio_int16 with
          | Some e => Raised e
          | None =>
              (* try *)
              match apply_whisper (length (requests st)) audio_int16 with
              | Text t =>
                  let transcript := strip t in
                  match transcript with
                  | [] => Done (send audio_int16 st)
                  | _ :: _ =>
                      let cleaned := cleanup (clean_transcript transcript) in
                      Done (keyboard_type (cleaned ++ L " ")
                                          (send audio_int16 st))
                  end
              | OpenAIError e =>
                  Done (print (L "OpenAI error: " ++ e) (send audio_int16 st))
              | OtherError e =>
                  Done (print (L "Error: " ++ e) (send audio_int16 st))
              end
          end
      end
  end.

Definition on_release (k : key) (st : state sample) : result (state sample) :=
  if key_eqb k KEY && recording st
  then stop_recording_and_process st else Done st.

Definition handle (e : event sample) (st : state sample)
  : result (state sample) :=
  match e with
  | Press k => on_press k st
  | Release k => on_release k st
  | Audio indata status => callback indata status st
  end.

(** The events in order, until a handler raises: an exception in a handler
    stops the listener. *)
Fixpoint listen (evs : list (event sample)) (st : state sample)
  : result (state sample) :=
  match evs with
  | [] => Done st
  | e :: evs' =>
      match handle e st with
      | Done st' => listen evs' st'
      | Raised x => Raised x
      end
  end.

End Controller.

Arguments stop_recording_and_process {sample} to_int16 wavfile_write
  apply_whisper st.
Arguments on_release {sample} to_int16 wavfile_write apply_whisper k st.
Arguments handle {sample} to_int16 wavfile_write apply_whisper e st.
Arguments listen {sample} to_int16 wavfile_write apply_whisper evs st.

End Files.


(** ** Rules in context *)

(** The rest of the scan of [re_sub], from position [i] on. *)
Definition scan (ic : bool) (r : regex) (repl : template) (s : str) (i : nat)
  : str :=
  sub_loop ic r repl s (S (length s) - i) i.

(** The character [d], standing right after a cut, can continue a phrase
    that has a character other than a word character before the cut. *)
Definition joint (phrases : list str) (d : ascii) : bool :=
  existsb (fun w =>
             existsb (fun m =>
                        match nth_error w m, nth_error w (S m) with
                        | Some c, Some c' =>
                            negb (is_word c) && eq_char true c' d
                        | _, _ => false
                        end)
                     (seq 0 (length w)))
          phrases.

(** The phrase [w] cannot stand at [i] in a text that begins with [v]: no
    word boundary is there, or a character of [v] differs. *)
Definition clash (w v : str) (i : nat) : bool :=
  negb (boundary v i)
  || existsb (fun m =>
                match nth_error w m, nth_error v (i + m) with
                | Some c, Some d => negb (eq_char true c d)
                | _, _ => false
                end)
             (seq 0 (length w)).

(** No phrase of [phrases] can stand at a character of [v]. *)
Definition clear_of (phrases : list str) (v : str) : bool :=
  forallb (fun i => forallb (fun w => clash w v i) phrases)
          (seq 0 (length v)).

(** [t] ends with [u], up to case. *)
Definition ends_ci (u t : str) : bool :=
  (length u <=? length t)
  && prefix_of true u (skipn (length t - length u) t).

(** The pattern [r] matches the phrases of [phrases]: lower-case texts
    that begin and end with a word character, no two of which begin the same
    text. *)
Definition described (r : regex) (phrases : list str) (space : bool) : Prop :=
  (forall s i,
      option_map pos (match_at true s r i) = spoken phrases space s i)
  /\ (forall w, In w phrases -> exists c u, w = c :: u /\ is_word c = true)
  /\ (forall w, In w phrases -> word_at w (length w - 1) = true)
  /\ (forall w, In w phrases -> map lower w = w)
  /\ (forall x y t, In x phrases -> In y phrases ->
                    prefix_of true x t = true -> prefix_of true y t = true ->
                    x = y).

(** A replacement that holds no word character and does not begin with a
    blank. *)
Definition inert (text : str) : bool :=
  forallb (fun c => negb (is_word c)) text
  && match text with
     | c :: _ => negb (is_blank c)
     | [] => false
     end.

(** * Properties *)

Local Open Scope re_scope.

(** ** Facts about the matcher *)

Lemma skipn_nth_error (s : str) (i : nat) :
  skipn i s = match nth_error s i with
              | Some d => d :: skipn (S i) s
              | None => []
              end.
Proof.
  revert s. induction i as [|i IH]; intros [|c s]; try reflexivity.
  cbn [skipn nth_error]. apply IH.
Qed.

Lemma prefix_of_app (ic : bool) (u v t : str) :
  prefix_of ic (u ++ v) t
  = prefix_of ic u t && prefix_of ic v (skipn (length u) t).
Proof.
  revert t. induction u as [|c u IH]; intros t; [reflexivity|].
  destruct t as [|d t]; [reflexivity|].
  cbn [app prefix_of length skipn]. rewrite IH, andb_assoc. reflexivity.
Qed.

Lemma prefix_of_length (ic : bool) (w t : str) :
  prefix_of ic w t = true -> length w <= length t.
Proof.
  revert t. induction w as [|c w IH]; intros [|d t] H; cbn in *;
    try lia; try discriminate.
  apply andb_prop in H. destruct H as [_ H]. apply IH in H. lia.
Qed.

Section RunFacts.

Variable ic : bool.
Variable s : str.

Lemma run_lits (w : str) :
  w <> [] ->
  forall st,
    run ic s (lits w) st
    = if prefix_of ic w (skipn (pos st) s)
      then [(pos st + length w, cap st)] else [].
Proof.
  induction w as [|c w IH]; [contradiction|]. intros _ st.
  destruct w as [|c' w'].
  - cbn [lits run]. unfold one. rewrite (skipn_nth_error s (pos st)).
    destruct (nth_error s (pos st)) as [d|]; [|reflexivity].
    cbn [prefix_of length]. rewrite andb_true_r, Nat.add_1_r. reflexivity.
  - change (lits (c :: c' :: w')) with (Cat (Chr c) (lits (c' :: w'))).
    cbn [run]. unfold one. rewrite (skipn_nth_error s (pos st)).
    destruct (nth_error s (pos st)) as [d|]; [|reflexivity].
    change (prefix_of ic (c :: c' :: w') (d :: skipn (S (pos st)) s))
      with (eq_char ic c d && prefix_of ic (c' :: w') (skipn (S (pos st)) s)).
    destruct (eq_char ic c d); [|reflexivity].
    cbn [flat_map andb]. rewrite app_nil_r, IH by discriminate.
    unfold pos, cap. cbn [fst snd].
    replace (S (fst st) + length (c' :: w'))
      with (fst st + length (c :: c' :: w')) by (cbn [length]; lia).
    reflexivity.
Qed.

Lemma run_bnd (r : regex) (st : mstate) :
  run ic s (Cat Bnd r) st = if boundary s (pos st) then run ic s r st else [].
Proof.
  cbn [run]. destruct (boundary s (pos st)); [|reflexivity].
  cbn [flat_map]. apply app_nil_r.
Qed.

Lemma run_lits_then (w : str) (r : regex) (st : mstate) :
  w <> [] ->
  run ic s (Cat (lits w) r) st
  = if prefix_of ic w (skipn (pos st) s)
    then run ic s r (pos st + length w, cap st) else [].
Proof.
  intros Hw. cbn [run]. rewrite run_lits by exact Hw.
  destruct (prefix_of ic w (skipn (pos st) s)); [|reflexivity].
  cbn [flat_map]. apply app_nil_r.
Qed.

Lemma run_opt_then (r1 r2 : regex) (st : mstate) :
  run ic s (Cat (Opt r1) r2) st
  = flat_map (run ic s r2) (run ic s r1 st) ++ run ic s r2 st.
Proof.
  cbn [run]. rewrite flat_map_app. cbn [flat_map].
  rewrite app_nil_r. reflexivity.
Qed.

End RunFacts.

Lemma mark_ci (d : ascii) :
  existsb (fun c => eq_char true c d) (L ",.?") = is_mark d.
Proof. destruct d as [[] [] [] [] [] [] [] []]; reflexivity. Qed.

Lemma blank_ci (d : ascii) : eq_char true " "%char d = is_blank d.
Proof. destruct d as [[] [] [] [] [] [] [] []]; reflexivity. Qed.

Lemma is_blank_eq (d : ascii) : is_blank d = true -> d = " "%char.
Proof. unfold is_blank. apply Ascii.eqb_eq. Qed.

Lemma one_ext (s : str) (p q : ascii -> bool) (st : mstate) :
  (forall d, p d = q d) -> one s p st = one s q st.
Proof.
  intros H. unfold one. destruct (nth_error s (pos st)); [|reflexivity].
  rewrite H. reflexivity.
Qed.

Section Trail.

Variable s : str.

Lemma run_punct3 (st : mstate) : run true s punct3 st = one s is_mark st.
Proof. apply one_ext, mark_ci. Qed.

Lemma run_sp (st : mstate) : run true s sp st = one s is_blank st.
Proof. apply one_ext, blank_ci. Qed.

Lemma hd_opt_one (ic : bool) (r : regex) (p : ascii -> bool) (st : mstate) :
  run ic s r st = one s p st ->
  hd_error (run ic s (Opt r) st) = Some (skip_if p s (pos st), cap st).
Proof.
  intros H. cbn [run]. rewrite H. unfold one, skip_if.
  destruct (nth_error s (pos st)) as [d|]; [destruct (p d)|];
    destruct st; reflexivity.
Qed.

Lemma hd_opt_mark (j : nat) (c : option (nat * nat)) :
  hd_error (run true s (Opt punct3) (j, c)) = Some (skip_if is_mark s j, c).
Proof. apply (hd_opt_one true punct3 is_mark (j, c)), run_punct3. Qed.

Lemma hd_opt_sp (j : nat) (c : option (nat * nat)) :
  hd_error (run true s (Opt sp) (j, c)) = Some (skip_if is_blank s j, c).
Proof. apply (hd_opt_one true sp is_blank (j, c)), run_sp. Qed.

Lemma hd_app_some {A : Type} (l l' : list A) (x : A) :
  hd_error l = Some x -> hd_error (l ++ l') = Some x.
Proof. destruct l; [discriminate|]. exact (fun H => H). Qed.

Lemma hd_trail (j : nat) (c : option (nat * nat)) :
  hd_error (run true s trail (j, c))
  = Some (skip_if is_blank s (skip_if is_mark s j), c).
Proof.
  unfold trail. rewrite run_opt_then, run_punct3. unfold one, skip_if at 2.
  cbn [pos cap fst snd].
  destruct (nth_error s j) as [d|]; [destruct (is_mark d)|];
    cbn [flat_map app]; try apply hd_opt_sp.
  apply hd_app_some. rewrite app_nil_r. apply hd_opt_sp.
Qed.

(** A phrase between two word boundaries, then [rest]. *)
Lemma run_phrase (w : str) (rest : regex) (i : nat) :
  w <> [] ->
  run true s (Bnd +++ lits w +++ Bnd +++ rest) (i, None)
  = if phrase_at s w i then run true s rest (i + length w, None) else [].
Proof.
  intros Hw. rewrite run_bnd, run_lits_then by exact Hw.
  unfold phrase_at. cbn [pos cap fst snd].
  destruct (boundary s i); [|reflexivity].
  destruct (prefix_of true w (skipn i s)); [|reflexivity].
  rewrite run_bnd. reflexivity.
Qed.

Lemma match_phrase (w : str) (i : nat) :
  w <> [] ->
  option_map pos (match_at true s (Bnd +++ lits w +++ Bnd +++ trail) i)
  = spoken [w] true s i.
Proof.
  intros Hw. unfold match_at, spoken. rewrite run_phrase by exact Hw.
  cbn [find]. destruct (phrase_at s w i); [|reflexivity].
  rewrite hd_trail. reflexivity.
Qed.

Lemma match_phrase_mark (w : str) (i : nat) :
  w <> [] ->
  option_map pos
             (match_at true s (Bnd +++ lits w +++ Bnd +++ Opt punct3) i)
  = spoken [w] false s i.
Proof.
  intros Hw. unfold match_at, spoken. rewrite run_phrase by exact Hw.
  cbn [find]. destruct (phrase_at s w i); [|reflexivity].
  rewrite hd_opt_mark. reflexivity.
Qed.

End Trail.

Section NewLine.

Variable s : str.

Lemma prefix_line_blank (j : nat) (d : ascii) :
  nth_error s j = Some d -> is_blank d = true ->
  prefix_of true (L "line") (skipn j s) = false.
Proof.
  intros E B. rewrite skipn_nth_error, E. apply is_blank_eq in B. subst d.
  reflexivity.
Qed.

Lemma prefix_blank_line (j : nat) :
  prefix_of true (L " line") (skipn j s)
  = match nth_error s j with
    | Some d => is_blank d && prefix_of true (L "line") (skipn (S j) s)
    | None => false
    end.
Proof.
  rewrite skipn_nth_error. destruct (nth_error s j) as [d|]; [|reflexivity].
  change (L " line") with (" "%char :: L "line").
  cbn [prefix_of]. rewrite blank_ci. reflexivity.
Qed.

Lemma phrase_new_line (i : nat) :
  phrase_at s (L "new line") i
  = boundary s i && prefix_of true (L "new") (skipn i s)
    && prefix_of true (L " line") (skipn (i + 3) s) && boundary s (i + 8).
Proof.
  unfold phrase_at. change (L "new line") with (L "new" ++ L " line").
  rewrite prefix_of_app, skipn_skipn, andb_assoc.
  change (length (L "new")) with 3. rewrite (Nat.add_comm 3 i).
  reflexivity.
Qed.

Lemma phrase_newline (i : nat) :
  phrase_at s (L "newline") i
  = boundary s i && prefix_of true (L "new") (skipn i s)
    && prefix_of true (L "line") (skipn (i + 3) s) && boundary s (i + 7).
Proof.
  unfold phrase_at. change (L "newline") with (L "new" ++ L "line").
  rewrite prefix_of_app, skipn_skipn, andb_assoc.
  change (length (L "new")) with 3. rewrite (Nat.add_comm 3 i).
  reflexivity.
Qed.

Lemma run_line (j : nat) :
  hd_error (run true s (word "line" +++ Bnd +++ trail) (j, None))
  = if prefix_of true (L "line") (skipn j s) && boundary s (j + 4)
    then Some (skip_if is_blank s (skip_if is_mark s (j + 4)), None)
    else None.
Proof.
  unfold word. rewrite run_lits_then by discriminate.
  cbn [pos cap fst snd]. change (length (L "line")) with 4.
  destruct (prefix_of true (L "line") (skipn j s)); [|reflexivity].
  rewrite run_bnd. cbn [pos fst andb].
  destruct (boundary s (j + 4)); [|reflexivity].
  apply hd_trail.
Qed.

Lemma match_new_line (i : nat) :
  option_map pos
    (match_at true s
       (Bnd +++ word "new" +++ Opt sp +++ word "line" +++ Bnd +++ trail) i)
  = spoken [L "new line"; L "newline"] true s i.
Proof.
  unfold match_at, spoken. cbn [find].
  rewrite phrase_new_line, phrase_newline, prefix_blank_line.
  unfold word at 1. rewrite run_bnd, run_lits_then by discriminate.
  cbn [pos cap fst snd]. change (length (L "new")) with 3.
  change (length (L "new line")) with 8.
  change (length (L "newline")) with 7.
  destruct (boundary s i); [|reflexivity].
  destruct (prefix_of true (L "new") (skipn i s)); [|reflexivity].
  cbn [andb]. rewrite run_opt_then, run_sp. unfold one.
  cbn [pos cap fst snd].
  pose proof (run_line (i + 3)) as A3.
  pose proof (run_line (S (i + 3))) as A4.
  replace (i + 3 + 4) with (i + 7) in A3 by lia.
  replace (S (i + 3) + 4) with (i + 8) in A4 by lia.
  destruct (nth_error s (i + 3)) as [d|] eqn:E.
  - destruct (is_blank d) eqn:B; cbn [flat_map app andb].
    + rewrite (prefix_line_blank (i + 3) d E B) in *. cbn [andb] in *.
      rewrite app_nil_r.
      destruct (run true s (word "line" +++ Bnd +++ trail) (i + 3, None));
        [|discriminate].
      rewrite app_nil_r, A4.
      destruct (prefix_of true (L "line") (skipn (S (i + 3)) s)
                && boundary s (i + 8)); reflexivity.
    + rewrite A3.
      destruct (prefix_of true (L "line") (skipn (i + 3) s)
                && boundary s (i + 7)); reflexivity.
  - cbn [flat_map app]. rewrite A3.
    rewrite (skipn_nth_error s (i + 3)), E. reflexivity.
Qed.

End NewLine.

(** ** Matches and placeholder tokens *)

Lemma mark_not_word (d : ascii) : is_mark d = true -> is_word d = false.
Proof. destruct d as [[] [] [] [] [] [] [] []]; (reflexivity || discriminate). Qed.

Lemma blank_not_word (d : ascii) : is_blank d = true -> is_word d = false.
Proof. intros H. apply is_blank_eq in H. subst d. reflexivity. Qed.

Lemma skip_if_gap (p : ascii -> bool) (s : str) (e j : nat) :
  (forall d, p d = true -> is_word d = false) ->
  e <= j -> gap s e j ->
  j <= skip_if p s j /\ gap s e (skip_if p s j).
Proof.
  intros Hp Hej G. unfold skip_if.
  destruct (nth_error s j) as [d|] eqn:E; [|auto].
  destruct (p d) eqn:P; [|auto].
  split; [lia|]. intros k Hk.
  destruct (Nat.eq_dec k j) as [->|Hne].
  - unfold word_at. rewrite E. apply Hp, P.
  - apply G. lia.
Qed.

Lemma spoken_inv (phrases : list str) (space : bool) (s : str) (i j : nat) :
  spoken phrases space s i = Some j ->
  exists w, In w phrases /\ phrase_at s w i = true
            /\ i + length w <= j /\ gap s (i + length w) j.
Proof.
  unfold spoken. destruct (find _ phrases) as [w|] eqn:F; [|discriminate].
  intros [= <-]. apply find_some in F. destruct F as [Hin Hph].
  exists w. split; [exact Hin|]. split; [exact Hph|].
  assert (G0 : gap s (i + length w) (i + length w)) by (intros k Hk; lia).
  destruct (skip_if_gap is_mark s _ _ mark_not_word (le_n _) G0) as [L1 G1].
  destruct space; [|auto].
  destruct (skip_if_gap is_blank s _ _ blank_not_word L1 G1) as [L2 G2].
  split; [lia | exact G2].
Qed.

(** Every pattern of [REPLACEMENTS] is described by [spoken], with phrases
    of one to fourteen characters. *)
Lemma rule_spoken (r : regex) (repl : template) :
  In (r, repl) REPLACEMENTS ->
  exists phrases space,
    (forall s i, option_map pos (match_at true s r i)
                 = spoken phrases space s i)
    /\ Forall (fun w => 0 < length w <= 14) phrases.
Proof.
  intros H. unfold REPLACEMENTS in H. cbn [In] in H.
  destruct H as [H|[H|[H|[H|[]]]]]; injection H as <- <-.
  - exists [L "new line"; L "newline"], true. split.
    + intros s i. apply match_new_line.
    + repeat constructor.
  - exists [L "inverted comma"], false. split.
    + intros s i. apply match_phrase_mark. discriminate.
    + repeat constructor.
  - exists [L "comma"], true. split.
    + intros s i. apply match_phrase. discriminate.
    + repeat constructor; cbn; lia.
  - exists [L "full stop"], true. split.
    + intros s i. apply match_phrase. discriminate.
    + repeat constructor; cbn; lia.
Qed.

Section Token.

Variables pre T post : str.
Hypothesis T_word : forallb is_word T = true.

Let s := pre ++ T ++ post.

Lemma word_in_token (k : nat) :
  length pre <= k < length pre + length T -> word_at s k = true.
Proof.
  intros Hk. unfold word_at, s.
  rewrite nth_error_app2 by lia. rewrite nth_error_app1 by lia.
  destruct (nth_error T (k - length pre)) as [d|] eqn:E.
  - apply nth_error_In in E. rewrite forallb_forall in T_word.
    apply T_word, E.
  - apply nth_error_None in E. lia.
Qed.

Lemma no_boundary_in_token (k : nat) :
  length pre < k < length pre + length T -> boundary s k = false.
Proof.
  intros Hk. destruct k as [|k]; [lia|]. unfold boundary.
  rewrite !word_in_token by lia. reflexivity.
Qed.

Lemma phrase_clear_of_token (w : str) (i j : nat) :
  0 < length w < length T ->
  phrase_at s w i = true ->
  i + length w <= j -> gap s (i + length w) j ->
  i < j /\ (j <= length pre \/ length pre + length T <= i).
Proof.
  intros Hw Hph Hj G. split; [lia|].
  unfold phrase_at in Hph.
  apply andb_prop in Hph. destruct Hph as [Hph Be].
  apply andb_prop in Hph. destruct Hph as [Bi _].
  destruct (Nat.le_gt_cases j (length pre)) as [|Hja]; [auto|].
  destruct (Nat.le_gt_cases (length pre + length T) i) as [|Hib]; [auto|].
  exfalso.
  destruct (Nat.le_gt_cases i (length pre)) as [Hia|Hia].
  - destruct (Nat.le_gt_cases (i + length w) (length pre)) as [He|He].
    + assert (W : word_at s (length pre) = true)
        by (apply word_in_token; lia).
      rewrite G in W by lia. discriminate.
    + rewrite no_boundary_in_token in Be by lia. discriminate.
  - rewrite no_boundary_in_token in Bi by lia. discriminate.
Qed.

Lemma match_clear_of_token (r : regex) (repl : template) (i : nat)
      (st : mstate) :
  14 < length T ->
  In (r, repl) REPLACEMENTS ->
  match_at true s r i = Some st ->
  i < pos st /\ (pos st <= length pre \/ length pre + length T <= i).
Proof.
  intros HT Hin Hm.
  destruct (rule_spoken r repl Hin) as (phrases & space & Hsp & Hlen).
  specialize (Hsp s i). rewrite Hm in Hsp. cbn [option_map] in Hsp.
  symmetry in Hsp. apply spoken_inv in Hsp.
  destruct Hsp as (w & Hw & Hph & Hj & G).
  rewrite Forall_forall in Hlen. specialize (Hlen w Hw).
  apply (phrase_clear_of_token w i (pos st)); auto; lia.
Qed.

End Token.

(** ** The scan of [re_sub] *)

Lemma slice_cons (s : str) (k b : nat) (c : ascii) :
  k < b -> nth_error s k = Some c -> slice s k b = c :: slice s (S k) b.
Proof.
  intros Hk E. unfold slice. rewrite (skipn_nth_error s k), E.
  replace (b - k) with (S (b - S k)) by lia. reflexivity.
Qed.

Lemma slice_nil (s : str) (b : nat) : slice s b b = [].
Proof. unfold slice. rewrite Nat.sub_diag. reflexivity. Qed.

Lemma slice_middle (pre T post : str) :
  slice (pre ++ T ++ post) (length pre) (length pre + length T) = T.
Proof.
  unfold slice. rewrite skipn_app, skipn_all, Nat.sub_diag.
  cbn [skipn app]. replace (length pre + length T - length pre)
    with (length T) by lia.
  rewrite firstn_app, firstn_all, Nat.sub_diag. cbn [firstn].
  apply app_nil_r.
Qed.

Section Scan.

Variable ic : bool.
Variable r : regex.
Variable repl : template.
Variable s : str.
Variables a b : nat.

(** Every match is non-empty and lies before [a] or from [b] on. *)
Hypothesis clear :
  forall i st, match_at ic s r i = Some st ->
               i < pos st /\ (pos st <= a \/ b <= i).
Hypothesis a_le_b : a <= b.
Hypothesis b_le : b <= length s.

Lemma scan_inside (fuel k : nat) :
  a <= k <= b -> length s < fuel + k ->
  exists Y, sub_loop ic r repl s fuel k = slice s k b ++ Y.
Proof.
  revert k. induction fuel as [|n IH]; intros k Hk Hf; [lia|].
  destruct (Nat.eq_dec k b) as [->|Hne].
  - rewrite slice_nil. eexists. reflexivity.
  - cbn [sub_loop].
    destruct (match_at ic s r k) as [st|] eqn:M.
    + apply clear in M. lia.
    + destruct (nth_error s k) as [c|] eqn:E.
      * destruct (IH (S k)) as [Y HY]; [lia | lia |].
        exists Y. rewrite HY, (slice_cons s k b c) by (auto; lia).
        reflexivity.
      * apply nth_error_None in E. lia.
Qed.

Lemma scan_before (fuel i : nat) :
  i <= a -> length s < fuel + i ->
  exists X Y, sub_loop ic r repl s fuel i = X ++ slice s a b ++ Y.
Proof.
  revert i. induction fuel as [|n IH]; intros i Hi Hf; [lia|].
  destruct (Nat.eq_dec i a) as [->|Hne].
  - destruct (scan_inside (S n) a) as [Y HY]; [lia | lia |].
    exists [], Y. exact HY.
  - cbn [sub_loop].
    destruct (match_at ic s r i) as [st|] eqn:M.
    + apply clear in M. destruct M as [Hlt Hpos].
      apply Nat.ltb_lt in Hlt. rewrite Hlt. apply Nat.ltb_lt in Hlt.
      destruct (IH (pos st)) as (X & Y & HXY); [lia | lia |].
      exists (expand s repl (cap st) ++ X), Y.
      rewrite HXY, app_assoc. reflexivity.
    + destruct (nth_error s i) as [c|] eqn:E.
      * destruct (IH (S i)) as (X & Y & HXY); [lia | lia |].
        exists (c :: X), Y. rewrite HXY. reflexivity.
      * apply nth_error_None in E. lia.
Qed.

End Scan.

Lemma re_sub_keeps_token (r : regex) (repl : template) (pre T post : str) :
  token_like T -> In (r, repl) REPLACEMENTS ->
  exists X Y, re_sub true r repl (pre ++ T ++ post) = X ++ T ++ Y.
Proof.
  intros [HW HL] Hin. unfold re_sub.
  destruct (scan_before true r repl (pre ++ T ++ post)
                        (length pre) (length pre + length T))
    with (fuel := S (length (pre ++ T ++ post))) (i := 0)
    as (X & Y & E).
  - intros i st. apply match_clear_of_token with (repl := repl); assumption.
  - lia.
  - rewrite !length_app. lia.
  - lia.
  - lia.
  - exists X, Y. rewrite E, slice_middle. reflexivity.
Qed.

Lemma substitute_keeps_token (pre T post : str) :
  token_like T ->
  exists X Y, substitute (pre ++ T ++ post) = X ++ T ++ Y.
Proof.
  intros HT. unfold substitute.
  assert (G : forall rules,
             incl rules REPLACEMENTS ->
             forall pre post,
             exists X Y,
               fold_left (fun temp '(pattern, replacement) =>
                            re_sub true pattern replacement temp)
                         rules (pre ++ T ++ post)
               = X ++ T ++ Y).
  { induction rules as [|[r repl] rules IH]; intros Hincl pre' post'.
    - exists pre', post'. reflexivity.
    - cbn [fold_left].
      destruct (re_sub_keeps_token r repl pre' T post' HT) as (X & Y & E).
      + apply Hincl. left. reflexivity.
      + rewrite E. apply IH. intros x Hx. apply Hincl. right. exact Hx. }
  apply G. apply incl_refl.
Qed.

(** ** Strings no pattern matches in *)

Lemma no_match_in_spec (ic : bool) (t : str) (r : regex) :
  no_match_in ic t r = true
  <-> forall i, i <= length t -> match_at ic t r i = None.
Proof.
  unfold no_match_in. rewrite forallb_forall. split.
  - intros H i Hi. specialize (H i). rewrite in_seq in H.
    destruct (match_at ic t r i); [|reflexivity].
    discriminate H. lia.
  - intros H i Hi. rewrite in_seq in Hi. rewrite H by lia. reflexivity.
Qed.

Lemma sub_loop_no_match (ic : bool) (r : regex) (repl : template) (s : str) :
  (forall i, i <= length s -> match_at ic s r i = None) ->
  forall fuel i,
    i <= length s -> length s < fuel + i ->
    sub_loop ic r repl s fuel i = skipn i s.
Proof.
  intros H. induction fuel as [|n IH]; intros i Hi Hf; [lia|].
  cbn [sub_loop]. rewrite H by exact Hi. rewrite (skipn_nth_error s i).
  destruct (nth_error s i) as [c|] eqn:E; [|reflexivity].
  assert (i < length s) by (apply nth_error_Some; congruence).
  rewrite IH by lia. reflexivity.
Qed.

Lemma re_sub_no_match (ic : bool) (r : regex) (repl : template) (s : str) :
  no_match_in ic s r = true -> re_sub ic r repl s = s.
Proof.
  intros H. rewrite no_match_in_spec in H. unfold re_sub.
  rewrite (sub_loop_no_match ic r repl s H) by lia. reflexivity.
Qed.

Lemma cleanup_settled (t : str) : settled t = true -> cleanup t = t.
Proof.
  unfold settled, cleanup. generalize CLEANUP as rules.
  induction rules as [|[r repl] rules IH]; intros H; [reflexivity|].
  cbn [forallb] in H. apply andb_prop in H. destruct H as [H1 H2].
  cbn [fold_left]. rewrite (re_sub_no_match false r repl t H1).
  apply IH, H2.
Qed.

(** ** Matches of the cleanup patterns *)

Lemma weight_app (u v : str) : weight (u ++ v) = weight u + weight v.
Proof. unfold weight. rewrite length_app, count_occ_app. lia. Qed.

Lemma weight_length (t : str) : length t <= weight t.
Proof. unfold weight. lia. Qed.

Lemma slice_length (s : str) (i j : nat) :
  j <= length s -> length (slice s i j) = j - i.
Proof.
  intros H. unfold slice. rewrite length_firstn, length_skipn. lia.
Qed.

Lemma firstn_plus {A : Type} (a b : nat) (l : list A) :
  firstn (a + b) l = firstn a l ++ firstn b (skipn a l).
Proof.
  revert l. induction a as [|a IH]; intros l; [reflexivity|].
  destruct l as [|x l]; cbn [Nat.add firstn skipn app].
  - rewrite firstn_nil. reflexivity.
  - rewrite IH. reflexivity.
Qed.

Lemma slice_split (s : str) (i j k : nat) :
  i <= j <= k -> slice s i k = slice s i j ++ slice s j k.
Proof.
  intros H. unfold slice.
  replace (k - i) with ((j - i) + (k - j)) by lia.
  rewrite firstn_plus, skipn_skipn.
  replace (j - i + i) with j by lia. reflexivity.
Qed.

Lemma skipn_slice (s : str) (i j : nat) :
  i <= j -> skipn i s = slice s i j ++ skipn j s.
Proof.
  intros H. unfold slice.
  replace (skipn j s) with (skipn (j - i) (skipn i s)).
  - symmetry. apply firstn_skipn.
  - rewrite skipn_skipn. f_equal. lia.
Qed.

Section RunSteps.

Variable ic : bool.
Variable s : str.

Lemma in_one (p : ascii -> bool) (st st' : mstate) :
  In st' (one s p st) ->
  exists d, nth_error s (pos st) = Some d /\ p d = true
            /\ st' = (S (pos st), cap st).
Proof.
  unfold one. destruct (nth_error s (pos st)) as [d|]; [|intros []].
  destruct (p d) eqn:P; [|intros []].
  intros [<-|[]]. exists d. auto.
Qed.

Lemma in_cat (r1 r2 : regex) (st st' : mstate) :
  In st' (run ic s (Cat r1 r2) st) ->
  exists mid, In mid (run ic s r1 st) /\ In st' (run ic s r2 mid).
Proof. cbn [run]. rewrite in_flat_map. exact (fun H => H). Qed.

(** A property kept by every round is kept by the iteration. *)
Lemma in_iter (f : mstate -> list mstate) (Q : mstate -> Prop) :
  (forall a b, Q a -> In b (f a) -> Q b /\ pos a <= pos b) ->
  forall n a b, Q a -> In b (iter f n a) -> Q b /\ pos a <= pos b.
Proof.
  intros Hf. induction n as [|n IH]; intros a b Qa Hb; cbn [iter] in Hb.
  - destruct Hb as [<-|[]]. auto.
  - apply in_app_or in Hb. destruct Hb as [Hb|[<-|[]]]; [|auto].
    apply in_flat_map in Hb. destruct Hb as (m & Hm & Hb).
    destruct (pos a <? pos m); [|destruct Hb].
    destruct (Hf a m Qa Hm) as [Qm Lm].
    destruct (IH m b Qm Hb) as [Qb Lb]. split; [exact Qb | lia].
Qed.

Lemma in_plus (r : regex) (Q : mstate -> Prop) (st st' : mstate) :
  (forall a b, Q a -> In b (run ic s r a) -> Q b /\ pos a < pos b) ->
  Q st -> In st' (run ic s (Plus r) st) -> Q st' /\ pos st < pos st'.
Proof.
  intros Hr Qst H. cbn [run] in H. apply in_flat_map in H.
  destruct H as (m & Hm & H).
  destruct (Hr st m Qst Hm) as [Qm Lm].
  destruct (in_iter (run ic s r) Q) with (n := length s - pos m)
                                         (a := m) (b := st')
    as [Q' L']; auto.
  - intros a b Qa Hb. destruct (Hr a b Qa Hb). split; [assumption | lia].
  - split; [assumption | lia].
Qed.

Lemma in_star (r : regex) (Q : mstate -> Prop) (st st' : mstate) :
  (forall a b, Q a -> In b (run ic s r a) -> Q b /\ pos a < pos b) ->
  Q st -> In st' (run ic s (Star r) st) -> Q st' /\ pos st <= pos st'.
Proof.
  intros Hr Qst H. cbn [run] in H.
  apply (in_iter (run ic s r) Q) with (n := length s - pos st) (a := st);
    auto.
  intros a b Qa Hb. destruct (Hr a b Qa Hb). split; [assumption | lia].
Qed.

Lemma in_one_inside (p : ascii -> bool) c (a b : mstate) :
  inside s c a -> In b (one s p a) -> inside s c b /\ pos a < pos b.
Proof.
  intros [Ca La] H. apply in_one in H. destruct H as (d & E & _ & ->).
  assert (pos a < length s) by (apply nth_error_Some; congruence).
  unfold inside. cbn [pos cap fst snd]. auto.
Qed.

Lemma in_spaces c (a b : mstate) :
  inside s c a -> In b (run ic s (Star Ws) a) -> inside s c b /\ pos a <= pos b.
Proof.
  intros Qa H. apply (in_star Ws (inside s c) a b); auto.
  intros x y Qx Hy. apply (in_one_inside is_space c x y Qx Hy).
Qed.

Lemma in_spaces1 c (a b : mstate) :
  inside s c a -> In b (run ic s (Plus Ws) a) -> inside s c b /\ pos a < pos b.
Proof.
  intros Qa H. apply (in_plus Ws (inside s c) a b); auto.
  intros x y Qx Hy. apply (in_one_inside is_space c x y Qx Hy).
Qed.

Lemma in_chr ch (a b : mstate) :
  In b (run ic s (Chr ch) a) ->
  exists d, nth_error s (pos a) = Some d /\ eq_char ic ch d = true
            /\ b = (S (pos a), cap a).
Proof. apply in_one. Qed.

Lemma in_grp_cls cs (a b : mstate) :
  In b (run ic s (Grp (Cls cs)) a) ->
  pos a < length s /\ b = (S (pos a), Some (pos a, S (pos a))).
Proof.
  cbn [run]. rewrite in_map_iff. intros (m & <- & Hm).
  apply in_one in Hm. destruct Hm as (d & E & _ & ->).
  split; [apply nth_error_Some; congruence | reflexivity].
Qed.

End RunSteps.

Lemma weight_slice (s : str) (i j : nat) :
  j <= length s -> j - i <= weight (slice s i j).
Proof.
  intros H. rewrite <- (slice_length s i j H). apply weight_length.
Qed.

Lemma shrinks_collapse :
  shrinks (Grp punct4 +++ Plus (Star Ws +++ Ref)) [G1].
Proof.
  intros s i st H. apply in_cat in H. destruct H as (mid & Hmid & H).
  apply in_grp_cls in Hmid. cbn [pos fst] in Hmid. destruct Hmid as [Hi ->].
  apply (in_plus false s (Star Ws +++ Ref) (inside s (Some (i, S i)))) in H.
  - destruct H as [[C Le] Lt]. cbn [pos fst] in Lt.
    split; [lia|]. split; [exact Le|].
    rewrite C. cbn [expand flat_map]. rewrite app_nil_r.
    rewrite (slice_split s i (S i) (pos st)) by lia.
    rewrite weight_app.
    pose proof (weight_slice s (S i) (pos st) Le). lia.
  - intros a b Qa Hb. apply in_cat in Hb. destruct Hb as (m & Hm & Hb).
    destruct (in_spaces false s _ a m Qa Hm) as [[Cm Lm] Lam].
    cbn [run] in Hb. rewrite Cm in Hb.
    replace (S i - i) with 1 in Hb by lia.
    destruct ((pos m + 1 <=? length s)
              && eq_str false (slice s i (S i))
                        (slice s (pos m) (pos m + 1))) eqn:E; [|destruct Hb].
    destruct Hb as [<-|[]]. apply andb_prop in E. destruct E as [E _].
    apply Nat.leb_le in E. unfold inside. cbn [pos cap fst snd].
    split; [split; [auto | exact E] | lia].
  - split; [reflexivity | cbn [pos fst]; lia].
Qed.

Lemma shrinks_comma_period :
  shrinks (Chr ","%char +++ Star Ws +++ Chr "."%char) [Txt (L ".")].
Proof.
  intros s i st H. apply in_cat in H. destruct H as (mid & Hmid & H).
  apply in_chr in Hmid. destruct Hmid as (d & E & _ & ->).
  cbn [pos cap fst snd] in *.
  assert (i < length s) by (apply nth_error_Some; congruence).
  apply in_cat in H. destruct H as (m & Hm & H).
  destruct (in_spaces false s None (S i, None) m) as [[Cm Lm] Lam]; auto.
  { split; [reflexivity | cbn [pos fst]; lia]. }
  cbn [pos fst] in Lam.
  apply in_chr in H. destruct H as (d' & E' & _ & ->).
  assert (pos m < length s) by (apply nth_error_Some; congruence).
  cbn [pos cap fst snd].
  split; [lia|]. split; [lia|].
  pose proof (weight_slice s i (S (pos m))).
  change (weight (expand s [Txt (L ".")] (cap m))) with 1. lia.
Qed.

Lemma shrinks_space_mark : shrinks (Plus Ws +++ Grp punct4) [G1].
Proof.
  intros s i st H. apply in_cat in H. destruct H as (mid & Hmid & H).
  destruct (in_spaces1 false s None (i, None) mid) as [[Cm Lm] Lam]; auto.
  { split; [reflexivity|]. cbn [pos fst].
    cbn [run] in Hmid. apply in_flat_map in Hmid.
    destruct Hmid as (x & Hx & _). apply in_one in Hx.
    destruct Hx as (d & E & _). cbn [pos fst] in E.
    apply Nat.lt_le_incl, nth_error_Some. congruence. }
  cbn [pos fst] in Lam.
  apply in_grp_cls in H. destruct H as [Hj ->]. cbn [pos cap fst snd].
  split; [lia|]. split; [lia|].
  cbn [expand flat_map]. rewrite app_nil_r.
  rewrite (slice_split s i (pos mid) (S (pos mid))) by lia.
  rewrite weight_app.
  pose proof (weight_slice s i (pos mid)). lia.
Qed.

Lemma shrinks_quote_space :
  shrinks (Chr dquote +++ Plus Ws) [Txt [dquote]].
Proof.
  intros s i st H. apply in_cat in H. destruct H as (mid & Hmid & H).
  apply in_chr in Hmid. destruct Hmid as (d & E & _ & ->).
  cbn [pos cap fst snd] in *.
  assert (i < length s) by (apply nth_error_Some; congruence).
  destruct (in_spaces1 false s None (S i, None) st) as [[Cm Lm] Lam]; auto.
  { split; [reflexivity | cbn [pos fst]; lia]. }
  cbn [pos fst] in Lam.
  split; [lia|]. split; [lia|].
  pose proof (weight_slice s i (pos st)).
  change (weight (expand s [Txt [dquote]] (cap st))) with 1. lia.
Qed.

Lemma shrinks_space_quote :
  shrinks (Plus Ws +++ Chr dquote) [Txt [dquote]].
Proof.
  intros s i st H. apply in_cat in H. destruct H as (mid & Hmid & H).
  destruct (in_spaces1 false s None (i, None) mid) as [[Cm Lm] Lam]; auto.
  { split; [reflexivity|]. cbn [pos fst].
    cbn [run] in Hmid. apply in_flat_map in Hmid.
    destruct Hmid as (x & Hx & _). apply in_one in Hx.
    destruct Hx as (d & E & _). cbn [pos fst] in E.
    apply Nat.lt_le_incl, nth_error_Some. congruence. }
  cbn [pos fst] in Lam.
  apply in_chr in H. destruct H as (d & E & _ & ->).
  assert (pos mid < length s) by (apply nth_error_Some; congruence).
  cbn [pos cap fst snd].
  split; [lia|]. split; [lia|].
  pose proof (weight_slice s i (S (pos mid))).
  change (weight (expand s [Txt [dquote]] (cap mid))) with 1. lia.
Qed.

Lemma in_two (s : str) (c1 c2 : ascii) (i : nat) (st : mstate) :
  In st (run false s (Chr c1 +++ Chr c2) (i, None)) ->
  nth_error s i = Some c1 /\ S i < length s /\ st = (S (S i), None).
Proof.
  intros H. apply in_cat in H. destruct H as (mid & Hmid & H).
  apply in_chr in Hmid. destruct Hmid as (d & E & C & ->).
  apply in_chr in H. destruct H as (d' & E' & _ & ->).
  cbn [pos cap fst snd] in *. apply Ascii.eqb_eq in C. subst d.
  split; [exact E|]. split; [|reflexivity].
  apply nth_error_Some. congruence.
Qed.

Lemma shrinks_quote_comma :
  shrinks (Chr dquote +++ Chr ","%char) [Txt [dquote]].
Proof.
  intros s i st H. apply in_two in H. destruct H as (E & Hl & ->).
  cbn [pos cap fst snd]. split; [lia|]. split; [lia|].
  pose proof (weight_slice s i (S (S i))).
  change (weight (expand s [Txt [dquote]] None)) with 1. lia.
Qed.

Lemma shrinks_comma_quote :
  shrinks (Chr ","%char +++ Chr dquote) [Txt (" "%char :: [dquote])].
Proof.
  intros s i st H. apply in_two in H. destruct H as (E & Hl & ->).
  cbn [pos cap fst snd]. split; [lia|]. split; [lia|].
  rewrite (slice_cons s i (S (S i)) ","%char) by (auto; lia).
  change (","%char :: slice s (S i) (S (S i)))
    with ([","%char] ++ slice s (S i) (S (S i))).
  rewrite weight_app.
  pose proof (weight_slice s (S i) (S (S i))).
  change (weight (expand s [Txt [" "%char; dquote]] None)) with 2.
  change (weight [","%char]) with 2. lia.
Qed.

Lemma cleanup_shrinks (r : regex) (repl : template) :
  In (r, repl) CLEANUP -> shrinks r repl.
Proof.
  intros H. unfold CLEANUP in H. cbn [In] in H.
  destruct H as [H|[H|[H|[H|[H|[H|[H|[]]]]]]]]; injection H as <- <-.
  - apply shrinks_collapse.
  - apply shrinks_comma_period.
  - apply shrinks_space_mark.
  - apply shrinks_quote_space.
  - apply shrinks_space_quote.
  - apply shrinks_quote_comma.
  - apply shrinks_comma_quote.
Qed.

Lemma match_at_in (ic : bool) (s : str) (r : regex) (i : nat) (st : mstate) :
  match_at ic s r i = Some st -> In st (run ic s r (i, None)).
Proof.
  unfold match_at. destruct (run ic s r (i, None)); [discriminate|].
  intros [= ->]. left. reflexivity.
Qed.

Section ScanWeight.

Variable r : regex.
Variable repl : template.
Variable s : str.
Hypothesis Hshrinks : shrinks r repl.

Lemma scan_step (i : nat) (st : mstate) :
  match_at false s r i = Some st ->
  (i <? pos st) = true /\ pos st <= length s
  /\ weight (expand s repl (cap st)) + weight (skipn (pos st) s)
     < weight (skipn i s).
Proof.
  intros M. apply match_at_in, Hshrinks in M. destruct M as (Lt & Le & W).
  split; [apply Nat.ltb_lt, Lt|]. split; [exact Le|].
  rewrite (skipn_slice s i (pos st)) by lia. rewrite weight_app. lia.
Qed.

Lemma scan_weight_le (fuel i : nat) :
  i <= length s -> length s < fuel + i ->
  weight (sub_loop false r repl s fuel i) <= weight (skipn i s).
Proof.
  revert i. induction fuel as [|n IH]; intros i Hi Hf; [lia|].
  cbn [sub_loop]. destruct (match_at false s r i) as [st|] eqn:M.
  - apply scan_step in M. destruct M as (Lt & Le & W). rewrite Lt.
    apply Nat.ltb_lt in Lt. rewrite weight_app.
    specialize (IH (pos st)). lia.
  - rewrite (skipn_nth_error s i).
    destruct (nth_error s i) as [c|] eqn:E; [|reflexivity].
    assert (i < length s) by (apply nth_error_Some; congruence).
    change (c :: sub_loop false r repl s n (S i))
      with ([c] ++ sub_loop false r repl s n (S i)).
    change (c :: skipn (S i) s) with ([c] ++ skipn (S i) s).
    rewrite !weight_app. specialize (IH (S i)). lia.
Qed.

Lemma scan_weight_lt (fuel i i0 : nat) :
  i <= i0 <= length s -> match_at false s r i0 <> None ->
  length s < fuel + i ->
  weight (sub_loop false r repl s fuel i) < weight (skipn i s).
Proof.
  revert i. induction fuel as [|n IH]; intros i Hi Hm Hf; [lia|].
  cbn [sub_loop]. destruct (match_at false s r i) as [st|] eqn:M.
  - apply scan_step in M. destruct M as (Lt & Le & W). rewrite Lt.
    apply Nat.ltb_lt in Lt. rewrite weight_app.
    pose proof (scan_weight_le n (pos st)). lia.
  - assert (i <> i0) by congruence.
    rewrite (skipn_nth_error s i).
    destruct (nth_error s i) as [c|] eqn:E.
    + change (c :: sub_loop false r repl s n (S i))
        with ([c] ++ sub_loop false r repl s n (S i)).
      change (c :: skipn (S i) s) with ([c] ++ skipn (S i) s).
      rewrite !weight_app.
      assert (IH' := IH (S i) ltac:(lia) Hm ltac:(lia)). lia.
    + apply nth_error_None in E. lia.
Qed.

Lemma re_sub_weight_le : weight (re_sub false r repl s) <= weight s.
Proof. apply (scan_weight_le (S (length s)) 0); lia. Qed.

Lemma re_sub_weight_lt :
  no_match_in false s r = false -> weight (re_sub false r repl s) < weight s.
Proof.
  intros H. unfold no_match_in in H.
  assert (E : exists i0, i0 <= length s /\ match_at false s r i0 <> None).
  { destruct (forallb_forall
                (fun i => match match_at false s r i with
                          | Some _ => false
                          | None => true
                          end) (seq 0 (S (length s)))) as [_ F].
    destruct (existsb (fun i => match match_at false s r i with
                                | Some _ => true
                                | None => false
                                end) (seq 0 (S (length s)))) eqn:X.
    - apply existsb_exists in X. destruct X as (i0 & Hin & Hi0).
      apply in_seq in Hin. exists i0. split; [lia|].
      destruct (match_at false s r i0); [discriminate | discriminate].
    - rewrite F in H; [discriminate|]. intros i0 Hin.
      destruct (match_at false s r i0) eqn:M; [|reflexivity].
      assert (Y : existsb (fun i => match match_at false s r i with
                                    | Some _ => true
                                    | None => false
                                    end) (seq 0 (S (length s))) = true).
      { apply existsb_exists. exists i0. rewrite M. auto. }
      congruence. }
  destruct E as (i0 & Hi0 & Hm).
  apply (scan_weight_lt (S (length s)) 0 i0); auto; lia.
Qed.

End ScanWeight.

Lemma rules_weight (rules : list (regex * template)) :
  (forall r repl, In (r, repl) rules -> shrinks r repl) ->
  forall t,
    weight (fold_left (fun cleaned '(pattern, replacement) =>
                         re_sub false pattern replacement cleaned)
                      rules t) <= weight t
    /\ (forallb (fun '(pattern, _) => no_match_in false t pattern) rules
        = false ->
        weight (fold_left (fun cleaned '(pattern, replacement) =>
                             re_sub false pattern replacement cleaned)
                          rules t) < weight t).
Proof.
  induction rules as [|[r repl] rules IH]; intros Hs t.
  - split; [cbn [fold_left]; lia | discriminate].
  - cbn [fold_left forallb].
    assert (Hr : shrinks r repl) by (apply Hs; left; reflexivity).
    assert (Hs' : forall r0 repl0, In (r0, repl0) rules -> shrinks r0 repl0)
      by (intros r0 repl0 H0; apply Hs; right; exact H0).
    destruct (IH Hs' (re_sub false r repl t)) as [Le Lt].
    pose proof (re_sub_weight_le r repl t Hr) as Le1.
    split; [lia|].
    destruct (no_match_in false t r) eqn:N; cbn [andb].
    + intros H. rewrite (re_sub_no_match false r repl t N) in *.
      apply Lt, H.
    + intros _. pose proof (re_sub_weight_lt r repl t Hr N). lia.
Qed.

Lemma cleanup_fixed_settled (t : str) : cleanup t = t -> settled t = true.
Proof.
  unfold settled, cleanup. intros E. apply not_false_is_true. intros S.
  apply (proj2 (rules_weight CLEANUP cleanup_shrinks t)) in S.
  rewrite E in S. exact (Nat.lt_irrefl _ S).
Qed.

(** ** [replace] as a scan *)

Lemma replace_from_skip (old new : str) (k : nat) (l : str) :
  replace_from old new k l = replace_from old new 0 (skipn k l).
Proof.
  revert k. induction l as [|c l IH]; intros [|k]; try reflexivity.
  cbn [replace_from skipn]. apply IH.
Qed.

Lemma match_lits (s old : str) (i : nat) :
  old <> [] ->
  match_at false s (lits old) i
  = if starts_with old (skipn i s) then Some (i + length old, None)
    else None.
Proof.
  intros H. unfold match_at, starts_with. rewrite run_lits by exact H.
  cbn [pos cap fst snd]. destruct (prefix_of false old (skipn i s)); reflexivity.
Qed.

Lemma replace_scan (old new s : str) (fuel i : nat) :
  old <> [] -> length s < fuel + i ->
  sub_loop false (lits old) [Txt new] s fuel i
  = replace_from old new 0 (skipn i s).
Proof.
  intros Hold. revert i. induction fuel as [|n IH]; intros i Hf.
  { rewrite skipn_all2 by lia. reflexivity. }
  cbn [sub_loop]. rewrite match_lits by exact Hold.
  rewrite (skipn_nth_error s i).
  destruct (nth_error s i) as [c|] eqn:E.
  - cbn [replace_from].
    destruct (starts_with old (c :: skipn (S i) s)) eqn:P.
    + cbn [pos cap fst snd].
      assert (0 < length old) by (destruct old; [contradiction | cbn; lia]).
      replace (i <? i + length old) with true
        by (symmetry; apply Nat.ltb_lt; lia).
      cbn [expand flat_map]. rewrite app_nil_r.
      rewrite IH by lia.
      rewrite (replace_from_skip old new (length old - 1)), skipn_skipn.
      replace (length old - 1 + S i) with (i + length old) by lia.
      reflexivity.
    + rewrite IH by lia. reflexivity.
  - destruct old as [|o old]; [contradiction|]. reflexivity.
Qed.

Lemma replace_re_sub (old new s : str) :
  old <> [] -> replace old new s = re_sub false (lits old) [Txt new] s.
Proof.
  intros H. unfold replace, re_sub. rewrite replace_scan by (auto; lia).
  reflexivity.
Qed.

(** ** Occurrences and regions *)

Lemma prefix_nth (w t : str) (k : nat) (c : ascii) :
  prefix_of false w t = true ->
  nth_error w k = Some c -> nth_error t k = Some c.
Proof.
  revert t k. induction w as [|x w IH]; intros t k H E.
  - destruct k; discriminate.
  - destruct t as [|y t]; [discriminate|].
    cbn [prefix_of eq_char] in H. apply andb_prop in H. destruct H as [H1 H2].
    apply Ascii.eqb_eq in H1. subst y.
    destruct k as [|k]; [exact E|]. cbn [nth_error] in *.
    apply IH; assumption.
Qed.

Lemma prefix_refl (w t : str) : prefix_of false w (w ++ t) = true.
Proof.
  induction w as [|x w IH]; [reflexivity|].
  cbn [app prefix_of eq_char]. rewrite Ascii.eqb_refl. exact IH.
Qed.

Lemma skipn_middle (X R Y : str) : skipn (length X) (X ++ R ++ Y) = R ++ Y.
Proof.
  rewrite skipn_app, skipn_all, Nat.sub_diag. reflexivity.
Qed.

Lemma differ_sound (old R X Y : str) (du dv i : nat) :
  differ old R du dv = true ->
  starts_with old (skipn i (X ++ R ++ Y)) = true ->
  i + du = length X + dv -> False.
Proof.
  unfold differ, starts_with. intros D P E.
  apply existsb_exists in D. destruct D as (m & _ & D).
  destruct (nth_error old (du + m)) as [c|] eqn:Ec; [|discriminate].
  destruct (nth_error R (dv + m)) as [d|] eqn:Ed; [|discriminate].
  apply (prefix_nth _ _ _ _ P) in Ec. rewrite nth_error_skipn in Ec.
  assert (dv + m < length R) by (apply nth_error_Some; congruence).
  rewrite nth_error_app2 in Ec by lia. rewrite nth_error_app1 in Ec by lia.
  replace (i + (du + m) - length X) with (dv + m) in Ec by lia.
  rewrite Ec in Ed. injection Ed as <-. rewrite Ascii.eqb_refl in D.
  discriminate.
Qed.

Lemma occurrence_length (old s : str) (i : nat) :
  old <> [] -> starts_with old (skipn i s) = true -> i + length old <= length s.
Proof.
  intros Hold P. apply prefix_of_length in P. rewrite length_skipn in P.
  destruct old; [contradiction|]. cbn [length] in *. lia.
Qed.

Section Regions.

Variables old new R X Y : str.
Hypothesis old_ne : old <> [].

Let s := X ++ R ++ Y.
Let a := length X.
Let b := length X + length R.

Lemma b_le_length : b <= length s.
Proof. unfold b, s. rewrite !length_app. lia. Qed.

Lemma match_occurrence (i : nat) (st : mstate) :
  match_at false s (lits old) i = Some st ->
  starts_with old (skipn i s) = true
  /\ st = (i + length old, None) /\ i < pos st.
Proof.
  rewrite match_lits by exact old_ne.
  destruct (starts_with old (skipn i s)); [|discriminate].
  intros [= <-]. split; [reflexivity|]. split; [reflexivity|].
  cbn [pos fst]. destruct old; [contradiction | cbn; lia].
Qed.

(** Occurrences that begin inside the region. *)
Lemma occurrence_inside (i : nat) :
  forallb (fun d => differ old R 0 d) (seq 0 (length R)) = true ->
  starts_with old (skipn i s) = true -> a <= i < b -> False.
Proof.
  intros F P Hi. rewrite forallb_forall in F.
  apply (differ_sound old R X Y 0 (i - a) i); auto.
  - apply F, in_seq. unfold a, b in *. lia.
  - unfold a in *. lia.
Qed.

Lemma replace_keeps :
  apart old R = true ->
  exists X' Y', replace old new s = X' ++ R ++ Y'.
Proof.
  intros A. apply andb_prop in A. destruct A as [A1 A2].
  rewrite replace_re_sub by exact old_ne. unfold re_sub.
  destruct (scan_before false (lits old) [Txt new] s a b)
    with (fuel := S (length s)) (i := 0) as (X' & Y' & E).
  - intros i st M. apply match_occurrence in M.
    destruct M as (P & -> & Lt). split; [exact Lt|]. cbn [pos fst].
    destruct (Nat.le_gt_cases (i + length old) a) as [|H1]; [auto|].
    destruct (Nat.le_gt_cases b i) as [|H2]; [auto|]. exfalso.
    destruct (Nat.le_gt_cases a i) as [H3|H3].
    + apply (occurrence_inside i A2 P). lia.
    + rewrite forallb_forall in A1.
      apply (differ_sound old R X Y (a - i) 0 i); auto.
      * apply A1, in_seq. lia.
      * unfold a in *. lia.
  - unfold a, b. lia.
  - apply b_le_length.
  - lia.
  - lia.
  - exists X', Y'. rewrite E. unfold s, a, b. rewrite slice_middle.
    reflexivity.
Qed.

End Regions.

Section ScanHit.

Variable ic : bool.
Variable r : regex.
Variable repl : template.
Variable s : str.
Variable a : nat.
Variable hit : mstate.

(** Every match is non-empty, none runs across [a], and one starts at
    [a]. *)
Hypothesis astride :
  forall i st, match_at ic s r i = Some st ->
               i < pos st /\ (pos st <= a \/ a <= i).
Hypothesis at_a : match_at ic s r a = Some hit.
Hypothesis a_le : a <= length s.

Lemma scan_hit (fuel i : nat) :
  i <= a -> length s < fuel + i ->
  exists X Y,
    sub_loop ic r repl s fuel i = X ++ expand s repl (cap hit) ++ Y.
Proof.
  revert i. induction fuel as [|n IH]; intros i Hi Hf; [lia|].
  cbn [sub_loop]. destruct (Nat.eq_dec i a) as [->|Hne].
  - rewrite at_a. destruct (astride a hit at_a) as [Lt _].
    apply Nat.ltb_lt in Lt. rewrite Lt.
    exists [], (sub_loop ic r repl s n (pos hit)). reflexivity.
  - destruct (match_at ic s r i) as [st|] eqn:M.
    + apply astride in M. destruct M as [Lt Hpos].
      apply Nat.ltb_lt in Lt. rewrite Lt. apply Nat.ltb_lt in Lt.
      destruct (IH (pos st)) as (X & Y & E); [lia | lia |].
      exists (expand s repl (cap st) ++ X), Y.
      rewrite E, app_assoc. reflexivity.
    + destruct (nth_error s i) as [c|] eqn:E.
      * destruct (IH (S i)) as (X & Y & E'); [lia | lia |].
        exists (c :: X), Y. rewrite E'. reflexivity.
      * apply nth_error_None in E. lia.
Qed.

End ScanHit.

Section ScanCover.

Variable ic : bool.
Variable r : regex.
Variable repl : template.
Variable s : str.
Variables a b : nat.
Variable W : str.

(** Every match is non-empty; it lies before [a] or from [b] on, or its
    replacement holds [W]. *)
Hypothesis cover :
  forall i st, match_at ic s r i = Some st ->
               i < pos st
               /\ (pos st <= a \/ b <= i
                   \/ exists U V, expand s repl (cap st) = U ++ W ++ V).
Hypothesis a_le_b : a <= b.
Hypothesis b_le : b <= length s.

Lemma scan_cover_inside (fuel k : nat) :
  a <= k <= b -> length s < fuel + k ->
  (exists Y, sub_loop ic r repl s fuel k = slice s k b ++ Y)
  \/ (exists X Y, sub_loop ic r repl s fuel k = X ++ W ++ Y).
Proof.
  revert k. induction fuel as [|n IH]; intros k Hk Hf; [lia|].
  destruct (Nat.eq_dec k b) as [->|Hne].
  - left. rewrite slice_nil. eexists. reflexivity.
  - cbn [sub_loop]. destruct (match_at ic s r k) as [st|] eqn:M.
    + apply cover in M. destruct M as [Lt [H|[H|(U & V & E)]]]; try lia.
      right. apply Nat.ltb_lt in Lt. rewrite Lt, E.
      exists U, (V ++ sub_loop ic r repl s n (pos st)).
      rewrite <- !app_assoc. reflexivity.
    + destruct (nth_error s k) as [c|] eqn:E.
      * destruct (IH (S k)) as [[Y HY]|(X & Y & HXY)]; [lia | lia | |].
        -- left. exists Y.
           rewrite HY, (slice_cons s k b c) by (auto; lia). reflexivity.
        -- right. exists (c :: X), Y. rewrite HXY. reflexivity.
      * apply nth_error_None in E. lia.
Qed.

Lemma scan_cover (fuel i : nat) :
  i <= a -> length s < fuel + i ->
  exists X Y,
    sub_loop ic r repl s fuel i = X ++ slice s a b ++ Y
    \/ sub_loop ic r repl s fuel i = X ++ W ++ Y.
Proof.
  revert i. induction fuel as [|n IH]; intros i Hi Hf; [lia|].
  destruct (Nat.eq_dec i a) as [->|Hne].
  - destruct (scan_cover_inside (S n) a) as [[Y HY]|(X & Y & HXY)];
      [lia | lia | |].
    + exists [], Y. left. exact HY.
    + exists X, Y. right. exact HXY.
  - cbn [sub_loop]. destruct (match_at ic s r i) as [st|] eqn:M.
    + apply cover in M. destruct M as [Lt [H|[H|(U & V & E)]]]; try lia.
      * apply Nat.ltb_lt in Lt. rewrite Lt. apply Nat.ltb_lt in Lt.
        destruct (IH (pos st)) as (X & Y & [E|E]); [lia | lia | |];
          exists (expand s repl (cap st) ++ X), Y; [left | right];
          rewrite E, app_assoc; reflexivity.
      * apply Nat.ltb_lt in Lt. rewrite Lt, E.
        exists U, (V ++ sub_loop ic r repl s n (pos st)). right.
        rewrite <- !app_assoc. reflexivity.
    + destruct (nth_error s i) as [c|] eqn:E.
      * destruct (IH (S i)) as (X & Y & [E'|E']); [lia | lia | |];
          exists (c :: X), Y; [left | right]; rewrite E'; reflexivity.
      * apply nth_error_None in E. lia.
Qed.

End ScanCover.

Section Hits.

Variables new R X Y : str.
Hypothesis R_ne : R <> [].

Lemma replace_hits :
  no_border R = true ->
  exists X' Y', replace R new (X ++ R ++ Y) = X' ++ new ++ Y'.
Proof.
  intros B. unfold no_border in B. rewrite forallb_forall in B.
  rewrite replace_re_sub by exact R_ne. unfold re_sub.
  destruct (scan_hit false (lits R) [Txt new] (X ++ R ++ Y) (length X)
                     (length X + length R, None))
    with (fuel := S (length (X ++ R ++ Y))) (i := 0) as (X' & Y' & E).
  - intros i st M. apply match_occurrence in M; [|exact R_ne].
    destruct M as (P & -> & Lt). split; [exact Lt|]. cbn [pos fst].
    destruct (Nat.le_gt_cases (i + length R) (length X)) as [|H1]; [auto|].
    destruct (Nat.le_gt_cases (length X) i) as [|H2]; [auto|]. exfalso.
    apply (differ_sound R R X Y (length X - i) 0 i); auto.
    + apply B, in_seq. lia.
    + lia.
  - rewrite match_lits by exact R_ne. unfold starts_with.
    rewrite skipn_middle, prefix_refl. reflexivity.
  - rewrite length_app. lia.
  - lia.
  - lia.
  - exists X', Y'. rewrite E. cbn [expand flat_map cap snd].
    rewrite app_nil_r. reflexivity.
Qed.

End Hits.

Lemma replace_covers (old new R W U V X Y : str) (k : nat) :
  old <> [] -> apart_but k old R = true ->
  new = U ++ W ++ V ->
  exists X' Y',
    replace old new (X ++ R ++ Y) = X' ++ R ++ Y'
    \/ replace old new (X ++ R ++ Y) = X' ++ W ++ Y'.
Proof.
  intros Hold A Hnew. apply andb_prop in A. destruct A as [A1 A2].
  rewrite replace_re_sub by exact Hold. unfold re_sub.
  destruct (scan_cover false (lits old) [Txt new] (X ++ R ++ Y)
                       (length X) (length X + length R) W)
    with (fuel := S (length (X ++ R ++ Y))) (i := 0) as (X' & Y' & E).
  - intros i st M. apply match_occurrence in M; [|exact Hold].
    destruct M as (P & -> & Lt). split; [exact Lt|]. cbn [pos cap fst snd].
    destruct (Nat.le_gt_cases (i + length old) (length X)) as [|H1]; [auto|].
    destruct (Nat.le_gt_cases (length X + length R) i) as [|H2]; [auto|].
    destruct (Nat.le_gt_cases (length X) i) as [H3|H3].
    + exfalso. apply (occurrence_inside old R X Y i A2 P). lia.
    + rewrite forallb_forall in A1.
      assert (D : In (length X - i) (seq 1 (length old - 1)))
        by (apply in_seq; lia).
      apply A1 in D. apply orb_prop in D. destruct D as [D|D].
      * right. right. exists U, V. cbn [expand flat_map].
        rewrite app_nil_r. exact Hnew.
      * exfalso. apply (differ_sound old R X Y (length X - i) 0 i); auto.
        lia.
  - lia.
  - rewrite !length_app. lia.
  - lia.
  - lia.
  - exists X', Y'. rewrite slice_middle in E. exact E.
Qed.

Ltac nonempty :=
  let Hc := fresh in intro Hc; vm_compute in Hc; discriminate Hc.

(** One step of [restore] on a string that holds the region [R]. *)
Ltac keeps :=
  match goal with
  | |- context [replace ?old ?new (?X ++ ?R ++ ?Y)] =>
      let X' := fresh "X" in
      let Y' := fresh "Y" in
      let E := fresh "E" in
      destruct (replace_keeps old new R X Y) as (X' & Y' & E);
      [nonempty | vm_compute; reflexivity | rewrite E; clear E]
  end.

Ltac hits :=
  match goal with
  | |- context [replace ?R ?new (?X ++ ?R ++ ?Y)] =>
      let X' := fresh "X" in
      let Y' := fresh "Y" in
      let E := fresh "E" in
      destruct (replace_hits new R X Y) as (X' & Y' & E);
      [nonempty | vm_compute; reflexivity | rewrite E; clear E]
  end.

Ltac restoring := unfold restore, PLACEHOLDERS; cbn [fold_left].

Lemma restore_new_line (X Y : str) :
  exists X' Y',
    restore (X ++ L "NEW_LINE_PLACEHOLDER" ++ Y) = X' ++ L "new line " ++ Y'.
Proof. restoring. hits. keeps. keeps. keeps. eexists _, _. reflexivity. Qed.

Lemma restore_inverted_comma (X Y : str) :
  exists X' Y',
    restore (X ++ L "INVERTED_COMMA_PLACEHOLDER" ++ Y)
    = X' ++ L "inverted comma " ++ Y'.
Proof. restoring. keeps. hits. keeps. keeps. eexists _, _. reflexivity. Qed.

(** A comma token directly after the text INVERTED_ is taken by the
    replacement of the longer token, whose words end in the same words. *)
Lemma restore_comma (X Y : str) :
  exists X' Y',
    restore (X ++ L "COMMA_PLACEHOLDER" ++ Y) = X' ++ L "comma " ++ Y'.
Proof.
  restoring. keeps.
  destruct (replace_covers (L "INVERTED_COMMA_PLACEHOLDER")
                           (L "inverted comma ")
                           (L "COMMA_PLACEHOLDER") (L "comma ")
                           (L "inverted ") [] X0 Y0 9)
    as (X1 & Y1 & [E|E]);
    [nonempty | vm_compute; reflexivity | reflexivity | |];
    rewrite E; clear E.
  - hits. keeps. eexists _, _. reflexivity.
  - keeps. keeps. eexists _, _. reflexivity.
Qed.

Lemma restore_full_stop (X Y : str) :
  exists X' Y',
    restore (X ++ L "FULL_STOP_PLACEHOLDER" ++ Y) = X' ++ L "full stop " ++ Y'.
Proof. restoring. keeps. keeps. keeps. hits. eexists _, _. reflexivity. Qed.

Lemma restore_in_context (T words X Y : str) :
  In (T, words) PLACEHOLDERS ->
  exists X' Y', restore (X ++ T ++ Y) = X' ++ words ++ Y'.
Proof.
  intros H. unfold PLACEHOLDERS in H. cbn [In] in H.
  destruct H as [H|[H|[H|[H|[]]]]]; injection H as <- <-.
  - apply restore_new_line.
  - apply restore_inverted_comma.
  - apply restore_comma.
  - apply restore_full_stop.
Qed.

(** ** Worked examples of the normaliser *)

(** C1, as the program behaves: the transcript "she said inverted comma hi
    there inverted comma" normalises to the words she said immediately
    followed by a quote, hi there, and a quote: the quotes are balanced, no
    white space is left just inside either of them, and the space between
    said and the opening quote is removed as well. *)
Theorem normalize_said_quote :
  normalize said_quote
  = L "she said" ++ [dquote] ++ L "hi there" ++ [dquote].
Proof. vm_compute. reflexivity. Qed.

(** C1, as stated, fails: the result is not she said, a space, and the
    quoted words. *)
Lemma normalize_said_quote_no_space :
  normalize said_quote
  <> L "she said " ++ [dquote] ++ L "hi there" ++ [dquote].
Proof. vm_compute. discriminate. Qed.

(** C2, as the program behaves: "hello comma comma world full stop full
    stop" normalises to "hello, world. ": the duplicates collapse, white
    space before the marks is removed, and the space of the last ". "
    replacement stays after the final period. *)
Theorem normalize_hello_world :
  normalize hello_world = L "hello, world. ".
Proof. vm_compute. reflexivity. Qed.

(** C2, as stated, fails: the result is not "hello, world." *)
Lemma normalize_hello_world_trailing_space :
  normalize hello_world <> L "hello, world.".
Proof. vm_compute. discriminate. Qed.

(** C3: "actual comma" normalises to the words "comma " and holds no comma
    character, while a bare "comma" normalises to ", "; [clean_transcript]
    alone gives the same two results. *)
Theorem actual_comma_round_trip :
  normalize (L "actual comma") = L "comma "
  /\ existsb (Ascii.eqb ","%char) (normalize (L "actual comma")) = false
  /\ normalize (L "comma") = L ", "
  /\ clean_transcript (L "actual comma") = L "comma "
  /\ clean_transcript (L "comma") = L ", ".
Proof. vm_compute. repeat split; reflexivity. Qed.

(** ** The capture controller *)

Section ControllerFacts.

Variable sample : Type.
Variable to_int16 : sample -> Z.
Variable apply_whisper : nat -> wav -> outcome.

(** Unfold the handlers and compute on the fields of the state. *)
Ltac handlers :=
  unfold on_press, on_release, callback, stop_recording_and_process,
    start_recording, print, send, keyboard_type, np_concatenate;
  cbn [key_eqb KEY HOTKEY andb negb
       recording audio_data console typed requests].

Ltac fields :=
  unfold print, send, keyboard_type;
  cbn [recording audio_data console typed requests];
  rewrite ?app_nil_r, <- ?app_assoc; cbn [app].

Ltac case_whisper :=
  match goal with
  | |- context [apply_whisper ?n ?w] =>
      destruct (apply_whisper n w) as [txt|e|e]; [destruct (strip txt)|..]
  end.

(** The concatenation is guarded: finalising never raises. *)
Lemma stop_never_raises (st : state sample) :
  exists st', stop_recording_and_process to_int16 apply_whisper st = Done st'
              /\ recording st' = false
              /\ audio_data st' = audio_data st.
Proof.
  destruct st as [rec a c t r]. handlers.
  destruct a as [|ch a']; [eexists; split; [reflexivity | split; reflexivity]|].
  case_whisper; eexists; (split; [reflexivity | split; reflexivity]).
Qed.

Lemma handle_follows_table (e : event sample) (st : state sample) :
  exists st', handle to_int16 apply_whisper e st = Done st'
              /\ mode_of st' = table (mode_of st) e.
Proof.
  destruct e as [k|k|indata status]; cbn [handle].
  - destruct st as [rec a c t r]. unfold mode_of.
    destruct k as [|n], rec; handlers;
      eexists; (split; [reflexivity|]); reflexivity.
  - destruct k as [|n], (recording st) eqn:R;
      unfold on_release, mode_of; rewrite R;
      cbn [key_eqb KEY HOTKEY andb table];
      try (exists st; rewrite R; split; reflexivity).
    destruct (stop_never_raises st) as (st' & E & R' & _).
    exists st'. rewrite R'. auto.
  - destruct st as [rec a c t r]. unfold mode_of.
    destruct status as [m|], rec; handlers;
      eexists; (split; [reflexivity|]); reflexivity.
Qed.

Lemma listen_follows_table (evs : list (event sample)) :
  forall st : state sample,
    exists st', listen to_int16 apply_whisper evs st = Done st'
                /\ mode_of st' = fold_left table evs (mode_of st).
Proof.
  induction evs as [|e evs IH]; intros st; cbn [listen fold_left].
  - exists st. auto.
  - destruct (handle_follows_table e st) as (st1 & E & M).
    rewrite E, <- M. apply IH.
Qed.

(** C6: the controller is in one of the two modes Idle and Recording and
    follows the transition table.  A press of the hotkey in Idle starts a
    recording with an empty buffer; a release in Recording returns to Idle
    and prints "Transcribing..." first, keeping the buffer and what was
    printed, typed and sent before; a press while Recording and a release
    while Idle return the state as it was; and after any sequence of events
    every handler has returned and the mode is the one the table gives. *)
Theorem controller_transitions :
  (forall (a : list (chunk sample)) c t r,
      on_press KEY (mkState false a c t r)
      = Done (mkState true [] (c ++ [L "Listening..."]) t r))
  /\ (forall k (a : list (chunk sample)) c t r,
         on_press k (mkState true a c t r) = Done (mkState true a c t r))
  /\ (forall k (a : list (chunk sample)) c t r,
         on_release to_int16 apply_whisper k (mkState false a c t r)
         = Done (mkState false a c t r))
  /\ (forall (a : list (chunk sample)) c t r,
         exists c' t' r',
           on_release to_int16 apply_whisper KEY (mkState true a c t r)
           = Done (mkState false a (c ++ L "Transcribing..." :: c')
                           (t ++ t') (r ++ r')))
  /\ (forall evs (st : state sample),
         exists st', listen to_int16 apply_whisper evs st = Done st'
                     /\ mode_of st' = fold_left table evs (mode_of st)).
Proof.
  split; [|split; [|split; [|split]]].
  - reflexivity.
  - intros k a c t r. unfold on_press. cbn [recording negb].
    rewrite andb_false_r. reflexivity.
  - intros k a c t r. unfold on_release. cbn [recording].
    rewrite andb_false_r. reflexivity.
  - intros a c t r. handlers.
    destruct a as [|ch a'].
    + exists [L "No audio recorded"], [], []. fields. reflexivity.
    + case_whisper.
      * eexists [], [], [_]. fields. reflexivity.
      * eexists [], [_], [_]. fields. reflexivity.
      * eexists [_], [], [_]. fields. reflexivity.
      * eexists [_], [], [_]. fields. reflexivity.
  - intros evs st. apply listen_follows_table.
Qed.

(** C7: a release with no chunk appended prints "No audio recorded" and
    returns: nothing is sent to the service, nothing is typed, nothing is
    raised (finalising raises from no state at all, the concatenation being
    reached with a non-empty list only), and the next press of the hotkey
    starts a recording. *)
Theorem release_without_audio :
  (forall c t r,
      on_release to_int16 apply_whisper KEY (mkState true [] c t r)
      = Done (mkState false []
                      (c ++ [L "Transcribing..."; L "No audio recorded"])
                      t r))
  /\ (forall (a : list (chunk sample)) c t r,
         listen to_int16 apply_whisper [Press KEY; Release KEY]
                (mkState false a c t r)
         = Done (mkState false []
                         (c ++ [L "Listening..."; L "Transcribing...";
                                L "No audio recorded"])
                         t r))
  /\ (forall st : state sample,
         exists st', stop_recording_and_process to_int16 apply_whisper st
                     = Done st')
  /\ (forall c t r,
         on_press KEY (mkState (sample := sample) false [] c t r)
         = Done (mkState true [] (c ++ [L "Listening..."]) t r)).
Proof.
  split; [|split; [|split]].
  - intros c t r. handlers. fields. reflexivity.
  - intros a c t r. cbn [listen handle]. handlers. fields. reflexivity.
  - intros st. destruct (stop_never_raises st) as (st' & E & _).
    exists st'. exact E.
  - reflexivity.
Qed.

(** A release in Recording whose transcription call answers a text that is not
    empty once stripped. *)
Lemma release_with_text
      (ch : chunk sample) (a : list (chunk sample))
      (c t : list str) (r : list wav) (txt : str) :
  apply_whisper (length r) (map to_int16 (concat (ch :: a))) = Text txt ->
  strip txt <> [] ->
  on_release to_int16 apply_whisper KEY (mkState true (ch :: a) c t r)
  = Done (mkState false (ch :: a) (c ++ [L "Transcribing..."])
                  (t ++ [normalize (strip txt) ++ L " "])
                  (r ++ [map to_int16 (concat (ch :: a))])).
Proof.
  intros Hanswer Hnonempty. handlers. rewrite Hanswer. unfold normalize.
  destruct (strip txt) as [|x xs]; [contradiction|].
  reflexivity.
Qed.

(** C9: when the stripped transcript of a session is not empty, the
    release types one text, the normalised transcript followed by one
    space, and nothing else. *)
Theorem release_types_normalized_text
        (ch : chunk sample) (a : list (chunk sample))
        (c t : list str) (r : list wav) (txt : str)
        (Hanswer : apply_whisper (length r) (map to_int16 (concat (ch :: a)))
                   = Text txt)
        (Hnonempty : strip txt <> []) :
  exists st',
    on_release to_int16 apply_whisper KEY (mkState true (ch :: a) c t r)
    = Done st'
    /\ typed st' = t ++ [cleanup (clean_transcript (strip txt)) ++ L " "].
Proof.
  rewrite (release_with_text ch a c t r txt Hanswer Hnonempty).
  eexists. split; reflexivity.
Qed.

End ControllerFacts.

Lemma release_types_normalized_text_witness :
  exists st',
    on_release (fun x => x) demo_whisper KEY
               (mkState true [[1; 2]%Z] [] [] [[0%Z]])
    = Done st'
    /\ typed st'
       = [] ++ [cleanup (clean_transcript (strip (L " hello comma world ")))
                  ++ L " "].
Proof.
  apply (release_types_normalized_text
           Z (fun x => x) demo_whisper [1; 2]%Z [] [] [] [[0%Z]]
           (L " hello comma world ")).
  - reflexivity.
  - vm_compute. discriminate.
Defined.

(** ** A session that fails *)

Section FileFacts.

Variable sample : Type.
Variable to_int16 : sample -> Z.
Variable wavfile_write : nat -> wav -> option str.
Variable apply_whisper : nat -> wav -> outcome.



End FileFacts.

(** With a file system that never fails, the two controllers agree. *)
Lemma listen_files_written {sample : Type} (to_int16 : sample -> Z)
      (apply_whisper : nat -> wav -> outcome) (evs : list (event sample)) :
  forall st,
    Files.listen to_int16 (fun _ _ => None) apply_whisper evs st
    = listen to_int16 apply_whisper evs st.
Proof.
  induction evs as [|e evs IH]; intros st; [reflexivity|].
  cbn [Files.listen listen].
  assert (E : Files.handle to_int16 (fun _ _ => None) apply_whisper e st
              = handle to_int16 apply_whisper e st).
  { destruct e as [k|k|indata status]; reflexivity. }
  rewrite E. destruct (handle to_int16 apply_whisper e st); [apply IH|].
  reflexivity.
Qed.

Section Recovery.

Variable sample : Type.
Variable to_int16 : sample -> Z.
Variable wavfile_write : nat -> wav -> option str.
Variable apply_whisper : nat -> wav -> outcome.


End Recovery.



(** ** The literal-substitute phase *)

(** Each of the four patterns matches its spoken word in any case between
    two word boundaries ("new line" also written as one word), with at most
    one following mark , . ? and, for all but "inverted comma", at most one
    following space. *)
Lemma spoken_words_matched (s : str) (i : nat) :
  map (fun '(pattern, replacement) =>
         (option_map pos (match_at true s pattern i), replacement))
      REPLACEMENTS
  = [ (spoken [L "new line"; L "newline"] true s i, [Txt [newline]]);
      (spoken [L "inverted comma"] false s i, [Txt [dquote]]);
      (spoken [L "comma"] true s i, [Txt (L ", ")]);
      (spoken [L "full stop"] true s i, [Txt (L ". ")]) ].
Proof.
  unfold REPLACEMENTS. cbn [map].
  rewrite match_new_line. unfold word.
  rewrite match_phrase_mark by discriminate.
  rewrite !match_phrase by discriminate.
  reflexivity.
Qed.

(** C5, as stated, fails for "inverted comma": on "inverted comma x" the
    match ends after the word, before the space, and the space stays in the
    text. *)
Lemma inverted_comma_keeps_space :
  let s := L "inverted comma x" in
  let pattern := fst (nth 1 REPLACEMENTS (Bnd, [])) in
  option_map pos (match_at true s pattern 0) = Some 14
  /\ spoken [L "inverted comma"] true s 0 = Some 15
  /\ substitute s = dquote :: L " x".
Proof. vm_compute. repeat split; reflexivity. Qed.

(** ** Placeholder tokens *)

Lemma placeholders_token_like (T words : str) :
  In (T, words) PLACEHOLDERS -> token_like T.
Proof.
  intros H. unfold PLACEHOLDERS in H. cbn [In] in H.
  destruct H as [H|[H|[H|[H|[]]]]]; injection H as <- <-;
    (split; [reflexivity | cbn; lia]).
Qed.

Lemma placeholders_restored (T words : str) :
  In (T, words) PLACEHOLDERS -> restore T = words.
Proof.
  intros H. unfold PLACEHOLDERS in H. cbn [In] in H.
  destruct H as [H|[H|[H|[H|[]]]]]; injection H as <- <-;
    vm_compute; reflexivity.
Qed.

(** C10: wherever a placeholder token stands in a string, no pattern of the
    literal-substitute phase matches across any part of it: every match is
    non-empty and ends before the token or starts after it.  The phase
    therefore leaves the token in the text, and the restore phase turns the
    token into the words it stands for: a transcript whose protected form
    holds the token is cleaned to a text that holds these words. *)
Theorem placeholders_inert (T words pre post : str)
        (Htoken : In (T, words) PLACEHOLDERS) :
  (forall r repl i st,
      In (r, repl) REPLACEMENTS ->
      match_at true (pre ++ T ++ post) r i = Some st ->
      i < pos st
      /\ (pos st <= length pre \/ length pre + length T <= i))
  /\ (exists X Y, substitute (pre ++ T ++ post) = X ++ T ++ Y)
  /\ restore T = words
  /\ (forall transcript,
         protect transcript = pre ++ T ++ post ->
         exists X Y, clean_transcript transcript = X ++ words ++ Y).
Proof.
  pose proof (placeholders_token_like T words Htoken) as HT.
  split; [|split; [|split]].
  - intros r repl i st Hin Hm. destruct HT as [HW HL].
    apply (match_clear_of_token pre T post HW r repl i st HL Hin Hm).
  - apply substitute_keeps_token, HT.
  - apply placeholders_restored, Htoken.
  - intros transcript E. unfold clean_transcript. rewrite E.
    destruct (substitute_keeps_token pre T post HT) as (X & Y & ->).
    apply restore_in_context, Htoken.
Qed.

Lemma placeholders_inert_witness :
  (0 < 6 /\ (6 <= 6 \/ 6 + 17 <= 0))
  /\ (exists X Y,
         substitute (L "comma " ++ L "COMMA_PLACEHOLDER" ++ L "comma")
         = X ++ L "COMMA_PLACEHOLDER" ++ Y)
  /\ restore (L "COMMA_PLACEHOLDER") = L "comma "
  /\ (exists X Y,
         clean_transcript (L "comma actual comma, comma")
         = X ++ L "comma " ++ Y).
Proof.
  destruct (placeholders_inert (L "COMMA_PLACEHOLDER") (L "comma ")
                               (L "comma ") (L "comma"))
    as (H1 & H2 & H3 & H4).
  - right. right. left. reflexivity.
  - split; [|split; [exact H2 | split; [exact H3|]]].
    + apply (H1 (fst (nth 2 REPLACEMENTS (Bnd, []))) [Txt (L ", ")] 0
                (6, None)).
      * right. right. left. reflexivity.
      * reflexivity.
    + apply H4. vm_compute. reflexivity.
Defined.

(** ** The punctuation cleanup *)

(** C4, as the program behaves: applying the cleanup twice gives what one
    application gives exactly when no pattern of the cleanup matches anywhere
    in the string the first application returns. *)
Theorem cleanup_twice_iff_settled (s : str) :
  cleanup (cleanup s) = cleanup s <-> settled (cleanup s) = true.
Proof.
  split; [apply cleanup_fixed_settled | apply cleanup_settled].
Qed.

Lemma cleanup_twice_iff_settled_witness :
  cleanup (cleanup (L "hello , , world . . "))
  = cleanup (L "hello , , world . . ").
Proof.
  apply (cleanup_twice_iff_settled (L "hello , , world . . ")).
  vm_compute. reflexivity.
Defined.

(** C4, as stated, fails: a doubled comma before a quote is cleaned to a
    space and a quote by the first application, and the second application
    removes that space. *)
Lemma cleanup_not_idempotent :
  let s := L "a,," ++ [dquote] ++ L "b" in
  has_repeated_punctuation s = true
  /\ cleanup s = L "a " ++ [dquote] ++ L "b"
  /\ cleanup (cleanup s) = L "a" ++ [dquote] ++ L "b"
  /\ cleanup (cleanup s) <> cleanup s.
Proof. vm_compute. repeat split; try reflexivity. discriminate. Qed.

(** * Further properties *)

Section SessionFacts.

Variable sample : Type.
Variable to_int16 : sample -> Z.
Variable apply_whisper : nat -> wav -> outcome.


Lemma listen_audio (evs : list (event sample)) :
  forallb is_audio evs = true ->
  forall rec a c t r,
    listen to_int16 apply_whisper evs (mkState rec a c t r)
    = Done (mkState rec (if rec then a ++ chunks_of evs else a)
                    (c ++ status_lines evs) t r).
Proof.
  induction evs as [|e evs IH]; intros H rec a c t r.
  - cbn [listen chunks_of status_lines]. rewrite !app_nil_r.
    destruct rec; reflexivity.
  - destruct e as [k|k|indata status]; try discriminate.
    cbn [forallb is_audio andb] in H. cbn [listen handle].
    unfold callback, print.
    destruct status as [m|], rec;
      cbn [recording audio_data console typed requests
           chunks_of status_lines];
      rewrite (IH H); rewrite <- ?app_assoc; reflexivity.
Qed.

(** X1: while a recording is on, the chunks the input stream delivers are
    appended to the buffer in the order of arrival; nothing is typed or sent,
    and only the status lines are printed. *)
Theorem recording_appends_chunks
        (evs : list (event sample)) (a : list (chunk sample))
        (c t : list str) (r : list wav)
        (Haudio : forallb is_audio evs = true) :
  listen to_int16 apply_whisper evs (mkState true a c t r)
  = Done (mkState true (a ++ chunks_of evs) (c ++ status_lines evs) t r).
Proof. apply (listen_audio evs Haudio true). Qed.

(** X2: while no recording is on, the chunks the input stream delivers are
    dropped: the buffer, the typed texts and the requests stay as they were,
    and only the status lines are printed. *)
Theorem idle_drops_chunks
        (evs : list (event sample)) (a : list (chunk sample))
        (c t : list str) (r : list wav)
        (Haudio : forallb is_audio evs = true) :
  listen to_int16 apply_whisper evs (mkState false a c t r)
  = Done (mkState false a (c ++ status_lines evs) t r).
Proof. apply (listen_audio evs Haudio false). Qed.


Lemma handle_other_key (e : event sample) (st : state sample) :
  other_key_event e = true -> handle to_int16 apply_whisper e st = Done st.
Proof.
  destruct e as [[|n]|[|n]|indata status]; try discriminate; reflexivity.
Qed.

(** X4: presses and releases of keys other than the hotkey change
    nothing: an event sequence gives the same result with them left out. *)
Theorem other_keys_ignored (evs : list (event sample)) (st : state sample) :
  listen to_int16 apply_whisper evs st
  = listen to_int16 apply_whisper
           (filter (fun e => negb (other_key_event e)) evs) st.
Proof.
  revert st. induction evs as [|e evs IH]; intros st; [reflexivity|].
  cbn [filter]. destruct (other_key_event e) eqn:O; cbn [negb listen].
  - rewrite (handle_other_key e st O). apply IH.
  - destruct (handle to_int16 apply_whisper e st); [apply IH | reflexivity].
Qed.

End SessionFacts.

Lemma recording_appends_chunks_witness :
  listen (fun x => x) demo_whisper
         [Audio [1%Z] None; Audio [2; 3]%Z (Some (L "input overflow"))]
         (mkState true [[0%Z]] [] [] [])
  = Done (mkState true
                  ([[0%Z]] ++ chunks_of [Audio [1%Z] None;
                                         Audio [2; 3]%Z
                                               (Some (L "input overflow"))])
                  ([] ++ status_lines
                         [Audio [1%Z] None;
                          Audio [2; 3]%Z (Some (L "input overflow"))])
                  [] []).
Proof.
  apply (recording_appends_chunks Z (fun x => x) demo_whisper).
  reflexivity.
Defined.

Lemma idle_drops_chunks_witness :
  listen (fun x => x) demo_whisper
         [Audio [1%Z] None; Audio [2; 3]%Z (Some (L "input overflow"))]
         (mkState false [[0%Z]] [] [] [])
  = Done (mkState false [[0%Z]]
                  ([] ++ status_lines
                         [Audio [1%Z] None;
                          Audio [2; 3]%Z (Some (L "input overflow"))])
                  [] []).
Proof.
  apply (idle_drops_chunks Z (fun x => x) demo_whisper).
  reflexivity.
Defined.


(** ** Stripping *)

Lemma lstrip_nil (s : str) : lstrip s = [] <-> forallb is_space s = true.
Proof.
  induction s as [|c s IH]; cbn [lstrip forallb]; [tauto|].
  destruct (is_space c); cbn [andb]; [exact IH|]. split; discriminate.
Qed.

Lemma lstrip_head (s l : str) (c : ascii) :
  lstrip s = c :: l -> is_space c = false.
Proof.
  induction s as [|d s IH]; cbn [lstrip]; [discriminate|].
  destruct (is_space d) eqn:D; [exact IH|]. intros [= <- _]. exact D.
Qed.

Lemma forallb_rev (p : ascii -> bool) (s : str) :
  forallb p (rev s) = forallb p s.
Proof.
  destruct (forallb p s) eqn:E.
  - rewrite forallb_forall in *. intros x Hx. apply E, in_rev, Hx.
  - destruct (forallb p (rev s)) eqn:R; [|reflexivity].
    rewrite forallb_forall in R. rewrite <- E. symmetry.
    apply forallb_forall. intros x Hx. apply R. rewrite <- in_rev. exact Hx.
Qed.

Lemma strip_nil (s : str) : strip s = [] <-> forallb is_space s = true.
Proof.
  unfold strip. split.
  - intros H. apply (f_equal (@rev ascii)) in H. rewrite rev_involutive in H.
    cbn [rev] in H. apply lstrip_nil in H. rewrite forallb_rev in H.
    destruct (lstrip s) as [|c l] eqn:E; [apply lstrip_nil, E|].
    apply lstrip_head in E. cbn [forallb] in H. rewrite E in H. discriminate.
  - intros H. apply lstrip_nil in H. rewrite H. reflexivity.
Qed.

Section AnswerFacts.

Variable sample : Type.
Variable to_int16 : sample -> Z.
Variable apply_whisper : nat -> wav -> outcome.

(** X5: when the service answers a text, the release prints
    "Transcribing...", records the request, and types the cleaned transcript
    followed by a space; when the answer is empty or white space only it
    types nothing. *)
Theorem release_with_answer
        (ch : chunk sample) (a : list (chunk sample))
        (c t : list str) (r : list wav) (txt : str)
        (Hanswer : apply_whisper (length r)
                                 (map to_int16 (concat (ch :: a)))
                   = Text txt) :
  on_release to_int16 apply_whisper KEY (mkState true (ch :: a) c t r)
  = Done (mkState false (ch :: a) (c ++ [L "Transcribing..."])
                  (if forallb is_space txt then t
                   else t ++ [cleanup (clean_transcript (strip txt))
                                ++ L " "])
                  (r ++ [map to_int16 (concat (ch :: a))])).
Proof.
  unfold on_release, stop_recording_and_process, print, send, keyboard_type,
    np_concatenate.
  cbn [key_eqb KEY HOTKEY andb recording audio_data console typed requests].
  rewrite Hanswer.
  destruct (forallb is_space txt) eqn:B.
  - apply strip_nil in B. rewrite B. reflexivity.
  - destruct (strip txt) as [|x xs] eqn:E; [|reflexivity].
    apply strip_nil in E. congruence.
Qed.

Lemma handle_trace (e : event sample) (st : state sample) :
  exists st' c' t' r',
    handle to_int16 apply_whisper e st = Done st'
    /\ console st' = console st ++ c'
    /\ typed st' = typed st ++ t'
    /\ requests st' = requests st ++ r'
    /\ length t' <= length r'
    /\ length r' <= hotkey_releases [e]
    /\ Forall (from_answer apply_whisper) t'.
Proof.
  destruct st as [rec a c t r].
  assert (Same : exists st' c' t' r',
             Done (mkState rec a c t r) = Done st'
             /\ console st' = c ++ c' /\ typed st' = t ++ t'
             /\ requests st' = r ++ r' /\ length t' <= length r'
             /\ length r' <= hotkey_releases [e] /\ Forall (from_answer apply_whisper) t').
  { exists (mkState rec a c t r), [], [], [].
    cbn [console typed requests length]. rewrite !app_nil_r.
    repeat split; auto; cbn [hotkey_releases length]; try lia. }
  destruct e as [[|n]|[|n]|indata status]; cbn [handle];
    try exact Same.
  - unfold on_press, start_recording, print. destruct rec;
      cbn [key_eqb KEY HOTKEY andb negb recording audio_data console typed
           requests]; [exact Same|].
    eexists _, [_], [], []. cbn [console typed requests length].
    rewrite !app_nil_r. repeat split; auto; cbn [hotkey_releases length]; try lia.
  - unfold on_release, stop_recording_and_process, print, send,
      keyboard_type, np_concatenate. destruct rec;
      cbn [key_eqb KEY HOTKEY andb recording audio_data console typed
           requests]; [|exact Same].
    destruct a as [|ch a'].
    + eexists _, [_; _], [], []. cbn [console typed requests length].
      rewrite !app_nil_r, <- app_assoc. repeat split; auto; cbn [hotkey_releases length]; try lia.
    + destruct (apply_whisper (length r) (map to_int16 (concat (ch :: a'))))
        as [txt|x|x] eqn:A; [destruct (strip txt) as [|y ys] eqn:S|..].
      * eexists _, [_], [], [_]. cbn [console typed requests length].
        rewrite !app_nil_r. repeat split; auto; cbn [hotkey_releases length]; try lia.
      * eexists _, [_], [_], [_]. cbn [console typed requests length].
        repeat split; auto; cbn [hotkey_releases length]; try lia. constructor; [|constructor].
        exists (length r), (map to_int16 (concat (ch :: a'))), txt.
        rewrite S. repeat split; auto; cbn [hotkey_releases length]; try lia. discriminate.
      * eexists _, [_; _], [], [_]. cbn [console typed requests length].
        rewrite !app_nil_r, <- app_assoc. repeat split; auto; cbn [hotkey_releases length]; try lia.
      * eexists _, [_; _], [], [_]. cbn [console typed requests length].
        rewrite !app_nil_r, <- app_assoc. repeat split; auto; cbn [hotkey_releases length]; try lia.
  - unfold callback, print. destruct status as [m|], rec;
      cbn [recording audio_data console typed requests].
    + eexists _, [_], [], []. cbn [console typed requests length].
      rewrite !app_nil_r. repeat split; auto; cbn [hotkey_releases length]; try lia.
    + eexists _, [_], [], []. cbn [console typed requests length].
      rewrite !app_nil_r. repeat split; auto; cbn [hotkey_releases length]; try lia.
    + eexists _, [], [], []. cbn [console typed requests length].
      rewrite !app_nil_r. repeat split; auto; cbn [hotkey_releases length]; try lia.
    + exact Same.
Qed.

Lemma hotkey_releases_cons (e : event sample) (evs : list (event sample)) :
  hotkey_releases (e :: evs) = hotkey_releases [e] + hotkey_releases evs.
Proof. destruct e as [k|[|n]|i s]; reflexivity. Qed.

Lemma listen_trace (evs : list (event sample)) :
  forall st : state sample,
    exists st' c' t' r',
      listen to_int16 apply_whisper evs st = Done st'
      /\ console st' = console st ++ c'
      /\ typed st' = typed st ++ t'
      /\ requests st' = requests st ++ r'
      /\ length t' <= length r'
      /\ length r' <= hotkey_releases evs
      /\ Forall (from_answer apply_whisper) t'.
Proof.
  induction evs as [|e evs IH]; intros st.
  - exists st, [], [], []. cbn [listen hotkey_releases length].
    rewrite !app_nil_r. repeat split; auto.
  - destruct (handle_trace e st)
      as (st1 & c1 & t1 & r1 & E & Hc & Ht & Hr & L1 & L2 & F1).
    destruct (IH st1) as (st2 & c2 & t2 & r2 & E2 & Hc2 & Ht2 & Hr2 & L3 & L4 & F2).
    exists st2, (c1 ++ c2), (t1 ++ t2), (r1 ++ r2).
    cbn [listen]. rewrite E, E2, Hc2, Ht2, Hr2, Hc, Ht, Hr, <- !app_assoc.
    rewrite hotkey_releases_cons, !length_app.
    repeat split; auto; try lia. apply Forall_app. auto.
Qed.

(** X6: over any sequence of events what was printed, typed and sent is
    only added to; no more texts are typed than requests are made, and no
    more requests are made than the hotkey is released. *)
Theorem logs_only_grow (evs : list (event sample)) (st : state sample) :
  exists st' c' t' r',
    listen to_int16 apply_whisper evs st = Done st'
    /\ console st' = console st ++ c'
    /\ typed st' = typed st ++ t'
    /\ requests st' = requests st ++ r'
    /\ length t' <= length r'
    /\ length r' <= hotkey_releases evs.
Proof.
  destruct (listen_trace evs st)
    as (st' & c' & t' & r' & E & Hc & Ht & Hr & L1 & L2 & _).
  exists st', c', t', r'. auto 10.
Qed.

(** X7: over any sequence of events every text typed is the cleaned form
    of an answer of the service that is not blank, followed by one space. *)
Theorem typed_texts_are_answers
        (evs : list (event sample)) (st : state sample) :
  exists st',
    listen to_int16 apply_whisper evs st = Done st'
    /\ forall x, In x (typed st') ->
                 In x (typed st)
                 \/ exists n w txt,
                     apply_whisper n w = Text txt /\ strip txt <> []
                     /\ x = cleanup (clean_transcript (strip txt)) ++ L " ".
Proof.
  destruct (listen_trace evs st)
    as (st' & c' & t' & r' & E & _ & Ht & _ & _ & _ & F).
  exists st'. split; [exact E|]. intros x Hx. rewrite Ht in Hx.
  apply in_app_or in Hx. destruct Hx as [Hx|Hx]; [left; exact Hx|].
  right. rewrite Forall_forall in F. apply (F x Hx).
Qed.

End AnswerFacts.

Lemma release_with_answer_witness :
  on_release (fun x => x) demo_whisper KEY
             (mkState true [[1; 2]%Z] [] [] [[0%Z]])
  = Done (mkState false [[1; 2]%Z] ([] ++ [L "Transcribing..."])
                  (if forallb is_space (L " hello comma world ") then []
                   else [] ++ [cleanup (clean_transcript
                                          (strip (L " hello comma world ")))
                                 ++ L " "])
                  ([[0%Z]] ++ [map (fun x => x) (concat [[1; 2]%Z])])).
Proof.
  apply (release_with_answer Z (fun x => x) demo_whisper).
  reflexivity.
Defined.

(** ** The protect phase *)

Section TwoWords.

Variable s : str.
Variable u : str.
Hypothesis u_ne : u <> [].

Lemma phrase_then_blank_line (i : nat) :
  phrase_at s (u ++ L " line") i
  = boundary s i && prefix_of true u (skipn i s)
    && prefix_of true (L " line") (skipn (i + length u) s)
    && boundary s (i + (length u + 5)).
Proof.
  unfold phrase_at. rewrite prefix_of_app, skipn_skipn, andb_assoc.
  rewrite length_app. change (length (L " line")) with 5.
  rewrite (Nat.add_comm (length u) i). reflexivity.
Qed.

Lemma phrase_then_line (i : nat) :
  phrase_at s (u ++ L "line") i
  = boundary s i && prefix_of true u (skipn i s)
    && prefix_of true (L "line") (skipn (i + length u) s)
    && boundary s (i + (length u + 4)).
Proof.
  unfold phrase_at. rewrite prefix_of_app, skipn_skipn, andb_assoc.
  rewrite length_app. change (length (L "line")) with 4.
  rewrite (Nat.add_comm (length u) i). reflexivity.
Qed.

Lemma match_optional_space_line (i : nat) :
  option_map pos
    (match_at true s
       (Bnd +++ lits u +++ Opt sp +++ word "line" +++ Bnd +++ trail) i)
  = spoken [u ++ L " line"; u ++ L "line"] true s i.
Proof.
  unfold match_at, spoken. cbn [find].
  rewrite phrase_then_blank_line, phrase_then_line, prefix_blank_line.
  rewrite run_bnd, run_lits_then by exact u_ne.
  cbn [pos cap fst snd].
  destruct (boundary s i); [|reflexivity].
  destruct (prefix_of true u (skipn i s)); [|reflexivity].
  cbn [andb]. rewrite run_opt_then, run_sp. unfold one.
  cbn [pos cap fst snd].
  pose proof (run_line s (i + length u)) as A3.
  pose proof (run_line s (S (i + length u))) as A4.
  replace (i + length u + 4) with (i + (length u + 4)) in A3 by lia.
  replace (S (i + length u) + 4) with (i + (length u + 5)) in A4 by lia.
  destruct (nth_error s (i + length u)) as [d|] eqn:E.
  - destruct (is_blank d) eqn:B; cbn [flat_map app andb].
    + rewrite (prefix_line_blank s (i + length u) d E B) in *.
      cbn [andb] in *. rewrite app_nil_r.
      destruct (run true s (word "line" +++ Bnd +++ trail)
                    (i + length u, None)); [|discriminate].
      rewrite app_nil_r, A4.
      destruct (prefix_of true (L "line") (skipn (S (i + length u)) s)
                && boundary s (i + (length u + 5)));
        rewrite ?length_app; reflexivity.
    + rewrite A3.
      destruct (prefix_of true (L "line") (skipn (i + length u) s)
                && boundary s (i + (length u + 4)));
        rewrite ?length_app; reflexivity.
  - cbn [flat_map app]. rewrite A3.
    rewrite (skipn_nth_error s (i + length u)), E. reflexivity.
Qed.

End TwoWords.

(** Each of the four patterns of the protect phase matches its phrase
    ("actual" and the spoken words, "new line" also as one word) in any case
    between two word boundaries, with at most one following mark , . ? and
    at most one following space. *)
Lemma protected_phrases_matched (s : str) (i : nat) :
  map (fun '(pattern, replacement) =>
         (option_map pos (match_at true s pattern i), replacement))
      REPLACEMENTS_REAL
  = [ (spoken [L "actual new line"; L "actual newline"] true s i,
       [Txt (L "NEW_LINE_PLACEHOLDER")]);
      (spoken [L "actual inverted comma"] true s i,
       [Txt (L "INVERTED_COMMA_PLACEHOLDER")]);
      (spoken [L "actual comma"] true s i, [Txt (L "COMMA_PLACEHOLDER")]);
      (spoken [L "actual full stop"] true s i,
       [Txt (L "FULL_STOP_PLACEHOLDER")]) ].
Proof.
  unfold REPLACEMENTS_REAL. cbn [map]. unfold word at 1.
  rewrite (match_optional_space_line s (L "actual new")) by discriminate.
  unfold word. rewrite !match_phrase by discriminate.
  reflexivity.
Qed.

(** ** Case *)

Lemma lower_word (c : ascii) : is_word (lower c) = is_word c.
Proof. destruct c as [[] [] [] [] [] [] [] []]; reflexivity. Qed.

Lemma lower_lower (c : ascii) : lower (lower c) = lower c.
Proof. destruct c as [[] [] [] [] [] [] [] []]; reflexivity. Qed.

Lemma lower_mark (c : ascii) : is_mark (lower c) = is_mark c.
Proof. destruct c as [[] [] [] [] [] [] [] []]; reflexivity. Qed.

Lemma lower_blank (c : ascii) : is_blank (lower c) = is_blank c.
Proof. destruct c as [[] [] [] [] [] [] [] []]; reflexivity. Qed.

Lemma eq_char_word (c d : ascii) :
  eq_char true c d = true -> is_word d = is_word c.
Proof.
  cbn [eq_char]. intros H. apply Ascii.eqb_eq in H.
  rewrite <- (lower_word d), <- (lower_word c), H. reflexivity.
Qed.

Section Lowered.

Variable s : str.

Lemma nth_lower (i : nat) :
  nth_error (map lower s) i = option_map lower (nth_error s i).
Proof. apply nth_error_map. Qed.

Lemma word_at_lower (i : nat) : word_at (map lower s) i = word_at s i.
Proof.
  unfold word_at. rewrite nth_lower.
  destruct (nth_error s i); [apply lower_word | reflexivity].
Qed.

Lemma boundary_lower (i : nat) : boundary (map lower s) i = boundary s i.
Proof.
  unfold boundary. destruct i; rewrite ?word_at_lower; reflexivity.
Qed.

Lemma skip_if_lower (p : ascii -> bool) (j : nat) :
  (forall c, p (lower c) = p c) ->
  skip_if p (map lower s) j = skip_if p s j.
Proof.
  intros H. unfold skip_if. rewrite nth_lower.
  destruct (nth_error s j); cbn [option_map]; rewrite ?H; reflexivity.
Qed.

End Lowered.

Lemma prefix_of_lower (w t : str) :
  prefix_of true w (map lower t) = prefix_of true w t.
Proof.
  revert t. induction w as [|c w IH]; intros [|d t]; try reflexivity.
  cbn [map prefix_of eq_char]. rewrite lower_lower, IH. reflexivity.
Qed.

Lemma phrase_at_lower (s w : str) (i : nat) :
  phrase_at (map lower s) w i = phrase_at s w i.
Proof.
  unfold phrase_at. rewrite !boundary_lower, skipn_map, prefix_of_lower.
  reflexivity.
Qed.

Lemma spoken_lower (phrases : list str) (space : bool) (s : str) (i : nat) :
  spoken phrases space (map lower s) i = spoken phrases space s i.
Proof.
  unfold spoken.
  replace (find (fun w => phrase_at (map lower s) w i) phrases)
    with (find (fun w => phrase_at s w i) phrases).
  - destruct (find _ phrases); [|reflexivity].
    rewrite !(skip_if_lower s is_mark) by apply lower_mark.
    rewrite !(skip_if_lower s is_blank) by apply lower_blank.
    reflexivity.
  - induction phrases as [|w ws IH]; [reflexivity|]. cbn [find].
    rewrite phrase_at_lower, IH. reflexivity.
Qed.

Section ScanLower.

Variable r : regex.
Variable text : str.
Hypothesis same_end :
  forall s i, option_map pos (match_at true (map lower s) r i)
              = option_map pos (match_at true s r i).
Hypothesis text_lower : map lower text = text.

Lemma sub_loop_lower (s : str) (fuel i : nat) :
  map lower (sub_loop true r [Txt text] s fuel i)
  = sub_loop true r [Txt text] (map lower s) fuel i.
Proof.
  revert i. induction fuel as [|n IH]; intros i; [reflexivity|].
  cbn [sub_loop]. specialize (same_end s i). rewrite nth_lower.
  destruct (match_at true s r i) as [st|],
           (match_at true (map lower s) r i) as [st'|];
    cbn [option_map] in same_end; try discriminate.
  - injection same_end as E. rewrite E. cbn [expand flat_map].
    rewrite !app_nil_r.
    destruct (i <? pos st).
    + rewrite map_app, text_lower, IH. reflexivity.
    + destruct (nth_error s i) as [c|]; cbn [option_map].
      * rewrite map_app, text_lower. cbn [map]. rewrite IH. reflexivity.
      * exact text_lower.
  - destruct (nth_error s i) as [c|]; cbn [option_map]; [|reflexivity].
    cbn [map]. rewrite IH. reflexivity.
Qed.

Lemma re_sub_lower (s : str) :
  map lower (re_sub true r [Txt text] s)
  = re_sub true r [Txt text] (map lower s).
Proof. unfold re_sub. rewrite length_map. apply sub_loop_lower. Qed.

End ScanLower.

Lemma rule_case_blind (r : regex) (repl : template) :
  In (r, repl) REPLACEMENTS ->
  forall s,
    map lower (re_sub true r repl s) = re_sub true r repl (map lower s).
Proof.
  intros Hin.
  destruct (rule_spoken r repl Hin) as (phrases & space & Hsp & _).
  assert (E : forall s i,
             option_map pos (match_at true (map lower s) r i)
             = option_map pos (match_at true s r i))
    by (intros s i; rewrite !Hsp; apply spoken_lower).
  unfold REPLACEMENTS in Hin. cbn [In] in Hin.
  destruct Hin as [H|[H|[H|[H|[]]]]]; injection H as <- <-;
    intros s; apply re_sub_lower; (exact E || reflexivity).
Qed.

(** X9: the literal-substitute phase does not look at the case of
    letters: folding the case of every character of a text, the way
    [re.IGNORECASE] folds it, before the phase or after it gives the same
    result. *)
Theorem substitute_case_blind (s : str) :
  map lower (substitute s) = substitute (map lower s).
Proof.
  unfold substitute.
  assert (G : forall rules,
             incl rules REPLACEMENTS ->
             forall t,
               map lower (fold_left (fun temp '(pattern, replacement) =>
                                       re_sub true pattern replacement temp)
                                    rules t)
               = fold_left (fun temp '(pattern, replacement) =>
                              re_sub true pattern replacement temp)
                           rules (map lower t)).
  { induction rules as [|[r repl] rules IH]; intros Hincl t; [reflexivity|].
    cbn [fold_left]. rewrite IH by (intros x Hx; apply Hincl; right; exact Hx).
    rewrite (rule_case_blind r repl) by (apply Hincl; left; reflexivity).
    reflexivity. }
  apply G, incl_refl.
Qed.

(** ** Transcripts with nothing to rewrite *)

Lemma prefix_nth_ci (w t : str) (k : nat) (c : ascii) :
  prefix_of true w t = true -> nth_error w k = Some c ->
  exists d, nth_error t k = Some d /\ eq_char true c d = true.
Proof.
  revert t k. induction w as [|x w IH]; intros t k H E.
  - destruct k; discriminate.
  - destruct t as [|y t]; [discriminate|].
    cbn [prefix_of] in H. apply andb_prop in H. destruct H as [H1 H2].
    destruct k as [|k]; cbn [nth_error] in *.
    + injection E as <-. exists y. auto.
    + apply IH; assumption.
Qed.

Lemma phrase_at_bound (t w : str) (i : nat) :
  w <> [] -> phrase_at t w i = true -> i + length w <= length t.
Proof.
  intros Hw H. unfold phrase_at in H.
  apply andb_prop in H. destruct H as [H _].
  apply andb_prop in H. destruct H as [_ H].
  apply prefix_of_length in H. rewrite length_skipn in H.
  destruct w; [contradiction|]. cbn [length] in *. lia.
Qed.

(** A protected phrase holds the spoken phrase, seven characters on. *)
Lemma phrase_actual (t w : str) (c : ascii) (i : nat) :
  is_word c = true ->
  phrase_at t (L "actual " ++ c :: w) i = true ->
  phrase_at t (c :: w) (i + 7) = true.
Proof.
  intros Hc H. unfold phrase_at in *.
  apply andb_prop in H. destruct H as [H Be].
  apply andb_prop in H. destruct H as [_ P].
  rewrite prefix_of_app, skipn_skipn in P. change (length (L "actual ")) with 7 in P.
  apply andb_prop in P. destruct P as [PA Pw].
  rewrite length_app in Be. change (length (L "actual ")) with 7 in Be.
  rewrite Nat.add_assoc in Be. rewrite (Nat.add_comm 7 i) in Pw.
  rewrite Pw, Be, andb_true_r.
  replace (i + 7) with (S (i + 6)) by lia. unfold boundary, word_at.
  destruct (prefix_nth_ci _ _ 6 " "%char PA eq_refl) as (d & Ed & Cd).
  rewrite nth_error_skipn in Ed. rewrite Ed, (eq_char_word _ _ Cd).
  destruct (prefix_nth_ci _ _ 0 c Pw eq_refl) as (d' & Ed' & Cd').
  rewrite nth_error_skipn in Ed'.
  replace (i + 7 + 0) with (S (i + 6)) in Ed' by lia.
  rewrite Ed', (eq_char_word _ _ Cd'), Hc. reflexivity.
Qed.

Lemma spoken_none (phrases : list str) (space : bool) (t : str) (i : nat) :
  (forall w, In w phrases -> phrase_at t w i = false) ->
  spoken phrases space t i = None.
Proof.
  intros H. unfold spoken.
  replace (find (fun w => phrase_at t w i) phrases) with (@None str);
    [reflexivity|].
  symmetry. induction phrases as [|w ws IH]; [reflexivity|]. cbn [find].
  rewrite (H w) by (left; reflexivity).
  apply IH. intros x Hx. apply H. right. exact Hx.
Qed.

Lemma match_none (s : str) (r : regex) (i : nat) :
  option_map pos (match_at true s r i) = None -> match_at true s r i = None.
Proof. destruct (match_at true s r i); [discriminate | reflexivity]. Qed.

Section Plain.

Variable t : str.
Hypothesis Hplain : plain t = true.

Lemma plain_phrase (w : str) (i : nat) :
  In w spoken_phrases -> phrase_at t w i = false.
Proof.
  intros Hw. destruct (phrase_at t w i) eqn:P; [|reflexivity].
  assert (Hne : w <> []).
  { unfold spoken_phrases in Hw. cbn [In] in Hw.
    destruct Hw as [<-|[<-|[<-|[<-|[<-|[]]]]]]; discriminate. }
  pose proof (phrase_at_bound t w i Hne P) as B.
  unfold plain in Hplain. rewrite forallb_forall in Hplain.
  assert (Hi : In i (seq 0 (S (length t)))) by (apply in_seq; lia).
  apply Hplain in Hi. apply andb_prop in Hi. destruct Hi as [Hi _].
  rewrite forallb_forall in Hi. apply Hi in Hw. rewrite P in Hw.
  discriminate.
Qed.

Lemma plain_token (T words : str) (i : nat) :
  In (T, words) PLACEHOLDERS -> i <= length t ->
  starts_with T (skipn i t) = false.
Proof.
  intros HT Hi. unfold plain in Hplain. rewrite forallb_forall in Hplain.
  assert (Hin : In i (seq 0 (S (length t)))) by (apply in_seq; lia).
  apply Hplain in Hin. apply andb_prop in Hin. destruct Hin as [_ Hin].
  rewrite forallb_forall in Hin. apply Hin in HT.
  destruct (starts_with T (skipn i t)); [discriminate | reflexivity].
Qed.

Lemma plain_actual (w : str) (c : ascii) (i : nat) :
  is_word c = true -> In (c :: w) spoken_phrases ->
  phrase_at t (L "actual " ++ c :: w) i = false.
Proof.
  intros Hc Hw. destruct (phrase_at t (L "actual " ++ c :: w) i) eqn:P;
    [|reflexivity].
  apply phrase_actual in P; [|exact Hc].
  rewrite plain_phrase in P by exact Hw. discriminate.
Qed.

Ltac phrase_in := unfold spoken_phrases; cbn [In]; tauto.

Lemma fold_no_match (rules : list (regex * template)) :
  (forall r repl, In (r, repl) rules -> no_match_in true t r = true) ->
  fold_left (fun temp '(pattern, replacement) =>
               re_sub true pattern replacement temp) rules t = t.
Proof.
  induction rules as [|[r repl] rules IH]; intros H; [reflexivity|].
  cbn [fold_left]. rewrite re_sub_no_match by (apply (H r repl); left; auto).
  apply IH. intros r' repl' Hin. apply (H r' repl'). right. exact Hin.
Qed.

Lemma plain_protect : protect t = t.
Proof.
  apply fold_no_match. intros r repl Hin.
  apply no_match_in_spec. intros i _. apply match_none.
  unfold REPLACEMENTS_REAL in Hin. cbn [In] in Hin.
  destruct Hin as [H|[H|[H|[H|[]]]]]; injection H as <- <-.
  - unfold word at 1.
    rewrite (match_optional_space_line t (L "actual new")) by discriminate.
    apply spoken_none. intros w [<-|[<-|[]]].
    + apply (plain_actual (L "ew line") "n"%char); [reflexivity | phrase_in].
    + apply (plain_actual (L "ewline") "n"%char); [reflexivity | phrase_in].
  - unfold word. rewrite match_phrase by discriminate.
    apply spoken_none. intros w [<-|[]].
    apply (plain_actual (L "nverted comma") "i"%char);
      [reflexivity | phrase_in].
  - unfold word. rewrite match_phrase by discriminate.
    apply spoken_none. intros w [<-|[]].
    apply (plain_actual (L "omma") "c"%char); [reflexivity | phrase_in].
  - unfold word. rewrite match_phrase by discriminate.
    apply spoken_none. intros w [<-|[]].
    apply (plain_actual (L "ull stop") "f"%char); [reflexivity | phrase_in].
Qed.

Lemma plain_substitute : substitute t = t.
Proof.
  apply fold_no_match. intros r repl Hin.
  apply no_match_in_spec. intros i _. apply match_none.
  unfold REPLACEMENTS in Hin. cbn [In] in Hin.
  destruct Hin as [H|[H|[H|[H|[]]]]]; injection H as <- <-.
  - rewrite match_new_line.
    apply spoken_none. intros w [<-|[<-|[]]]; apply plain_phrase; phrase_in.
  - unfold word. rewrite match_phrase_mark by discriminate.
    apply spoken_none. intros w [<-|[]]. apply plain_phrase. phrase_in.
  - unfold word. rewrite match_phrase by discriminate.
    apply spoken_none. intros w [<-|[]]. apply plain_phrase. phrase_in.
  - unfold word. rewrite match_phrase by discriminate.
    apply spoken_none. intros w [<-|[]]. apply plain_phrase. phrase_in.
Qed.

Lemma plain_replace (T words : str) :
  In (T, words) PLACEHOLDERS -> replace T words t = t.
Proof.
  intros HT.
  assert (Hne : T <> []).
  { unfold PLACEHOLDERS in HT. cbn [In] in HT.
    destruct HT as [H|[H|[H|[H|[]]]]]; injection H as <- <-; discriminate. }
  rewrite replace_re_sub by exact Hne. apply re_sub_no_match.
  apply no_match_in_spec. intros i Hi. rewrite match_lits by exact Hne.
  rewrite (plain_token T words i HT Hi). reflexivity.
Qed.

Lemma plain_restore : restore t = t.
Proof.
  unfold restore.
  assert (G : forall l, incl l PLACEHOLDERS ->
                        fold_left (fun temp '(placeholder, text) =>
                                     replace placeholder text temp) l t = t).
  { induction l as [|[T words] l IH]; intros Hincl; [reflexivity|].
    cbn [fold_left]. rewrite plain_replace by (apply Hincl; left; reflexivity).
    apply IH. intros x Hx. apply Hincl. right. exact Hx. }
  apply G, incl_refl.
Qed.

End Plain.

(** X10: a transcript in which no spoken phrase stands between word
    boundaries, its characters compared the way [re.IGNORECASE] compares
    them, and no placeholder token occurs is returned unchanged by
    [clean_transcript]; when no cleanup pattern matches in it either, the
    whole normalisation returns it unchanged. *)
Theorem clean_transcript_plain (t : str) (Hplain : plain t = true) :
  clean_transcript t = t
  /\ (settled t = true -> cleanup (clean_transcript t) = t).
Proof.
  assert (E : clean_transcript t = t).
  { unfold clean_transcript.
    rewrite (plain_protect t Hplain), (plain_substitute t Hplain).
    apply plain_restore, Hplain. }
  split; [exact E|]. intros S. rewrite E. apply cleanup_settled, S.
Qed.

Lemma clean_transcript_plain_witness :
  clean_transcript (L "Commas, he said, are fine. Newlines too")
  = L "Commas, he said, are fine. Newlines too"
  /\ cleanup (clean_transcript (L "Commas, he said, are fine. Newlines too"))
     = L "Commas, he said, are fine. Newlines too".
Proof.
  destruct (clean_transcript_plain
              (L "Commas, he said, are fine. Newlines too")) as [H1 H2].
  - vm_compute. reflexivity.
  - split; [exact H1 | apply H2; vm_compute; reflexivity].
Defined.

(** ** Lengths under the cleanup *)

Lemma weight_twice (t : str) : weight t <= 2 * length t.
Proof.
  unfold weight. pose proof (count_occ_bound ascii_dec ","%char t). lia.
Qed.

Lemma collapse_capture (s : str) (i : nat) (st : mstate) :
  In st (run false s (Grp punct4 +++ Plus (Star Ws +++ Ref)) (i, None)) ->
  i < length s /\ cap st = Some (i, S i).
Proof.
  intros H. apply in_cat in H. destruct H as (mid & Hmid & H).
  apply in_grp_cls in Hmid. cbn [pos fst] in Hmid. destruct Hmid as [Hi ->].
  split; [exact Hi|].
  apply (in_plus false s (Star Ws +++ Ref) (fun x => cap x = Some (i, S i)))
    in H; [tauto | | reflexivity].
  intros a b Qa Hb. apply in_cat in Hb. destruct Hb as (m & Hm & Hb).
  assert (Cm : cap m = Some (i, S i) /\ pos a <= pos m).
  { apply (in_star false s Ws (fun x => cap x = Some (i, S i)) a m); auto.
    intros x y Qx Hy. apply in_one in Hy. destruct Hy as (d & _ & _ & ->).
    cbn [pos cap fst snd]. split; [exact Qx | lia]. }
  destruct Cm as [Cm Lam]. cbn [run] in Hb. rewrite Cm in Hb.
  replace (S i - i) with 1 in Hb by lia.
  destruct ((pos m + 1 <=? length s)
            && eq_str false (slice s i (S i))
                      (slice s (pos m) (pos m + 1))); [|destruct Hb].
  destruct Hb as [<-|[]]. cbn [pos cap fst snd]. split; [auto | lia].
Qed.

Lemma space_mark_capture (s : str) (i : nat) (st : mstate) :
  In st (run false s (Plus Ws +++ Grp punct4) (i, None)) ->
  exists j, j < length s /\ cap st = Some (j, S j).
Proof.
  intros H. apply in_cat in H. destruct H as (mid & _ & H).
  apply in_grp_cls in H. destruct H as [Hj ->].
  exists (pos mid). split; [exact Hj | reflexivity].
Qed.

Lemma one_char_slice (s : str) (j : nat) :
  j < length s -> length (slice s j (S j)) = 1.
Proof. intros H. rewrite slice_length by lia. lia. Qed.

(** Every replacement of the cleanup is non-empty and no longer than what
    it replaces. *)
Lemma cleanup_expansion (r : regex) (repl : template) :
  In (r, repl) CLEANUP ->
  forall s i st,
    In st (run false s r (i, None)) ->
    i < pos st /\ pos st <= length s
    /\ 0 < length (expand s repl (cap st)) <= pos st - i.
Proof.
  intros Hin s i st H.
  destruct (cleanup_shrinks r repl Hin s i st H) as (Lt & Le & W).
  split; [exact Lt|]. split; [exact Le|].
  unfold CLEANUP in Hin. cbn [In] in Hin.
  destruct Hin as [E|[E|[E|[E|[E|[E|[E|[]]]]]]]]; injection E as <- <-.
  - apply collapse_capture in H. destruct H as [Hi ->].
    cbn [expand flat_map]. rewrite app_nil_r, one_char_slice by exact Hi. lia.
  - cbn. lia.
  - apply space_mark_capture in H. destruct H as (j & Hj & ->).
    cbn [expand flat_map]. rewrite app_nil_r, one_char_slice by exact Hj. lia.
  - cbn. lia.
  - cbn. lia.
  - cbn. lia.
  - pose proof (weight_twice (slice s i (pos st))) as T.
    rewrite slice_length in T by exact Le.
    change (weight (expand s [Txt [" "%char; dquote]] (cap st))) with 2 in W.
    cbn. lia.
Qed.

Section ScanLength.

Variable r : regex.
Variable repl : template.
Variable s : str.
Hypothesis bounded :
  forall i st,
    In st (run false s r (i, None)) ->
    i < pos st /\ pos st <= length s
    /\ 0 < length (expand s repl (cap st)) <= pos st - i.

Lemma scan_length (fuel i : nat) :
  i <= length s ->
  length (sub_loop false r repl s fuel i) <= length s - i.
Proof.
  revert i. induction fuel as [|n IH]; intros i Hi; [cbn; lia|].
  cbn [sub_loop]. destruct (match_at false s r i) as [st|] eqn:M.
  - apply match_at_in, bounded in M. destruct M as (Lt & Le & B).
    apply Nat.ltb_lt in Lt. rewrite Lt. apply Nat.ltb_lt in Lt.
    rewrite length_app. specialize (IH (pos st) Le). lia.
  - destruct (nth_error s i) as [c|] eqn:E; [|cbn; lia].
    assert (i < length s) by (apply nth_error_Some; congruence).
    cbn [length]. specialize (IH (S i)). lia.
Qed.

Lemma scan_nonempty (fuel i : nat) :
  i < length s -> sub_loop false r repl s (S fuel) i <> [].
Proof.
  intros Hi. cbn [sub_loop]. destruct (match_at false s r i) as [st|] eqn:M.
  - apply match_at_in, bounded in M. destruct M as (Lt & Le & B).
    apply Nat.ltb_lt in Lt. rewrite Lt.
    destruct (expand s repl (cap st)); [cbn in B; lia | discriminate].
  - destruct (nth_error s i) as [c|] eqn:E; [discriminate|].
    apply nth_error_None in E. lia.
Qed.

End ScanLength.

Lemma cleanup_rule_length (r : regex) (repl : template) (s : str) :
  In (r, repl) CLEANUP -> length (re_sub false r repl s) <= length s.
Proof.
  intros Hin. unfold re_sub.
  pose proof (scan_length r repl s (cleanup_expansion r repl Hin s)
                          (S (length s)) 0). lia.
Qed.

Lemma cleanup_rule_nonempty (r : regex) (repl : template) (s : str) :
  In (r, repl) CLEANUP -> s <> [] -> re_sub false r repl s <> [].
Proof.
  intros Hin Hs. unfold re_sub.
  apply (scan_nonempty r repl s (cleanup_expansion r repl Hin s)).
  destruct s; [contradiction | cbn; lia].
Qed.

Lemma cleanup_fold (P : str -> str -> Prop) :
  (forall s, P s s) ->
  (forall s u v, P s u -> P u v -> P s v) ->
  (forall r repl s, In (r, repl) CLEANUP -> P s (re_sub false r repl s)) ->
  forall s, P s (cleanup s).
Proof.
  intros Prefl Ptrans Pstep s. unfold cleanup.
  assert (G : forall rules,
             incl rules CLEANUP ->
             forall u,
               P u (fold_left (fun cleaned '(pattern, replacement) =>
                                 re_sub false pattern replacement cleaned)
                              rules u)).
  { induction rules as [|[r repl] rules IH]; intros Hincl u; [apply Prefl|].
    cbn [fold_left]. apply Ptrans with (u := re_sub false r repl u).
    - apply Pstep, Hincl. left. reflexivity.
    - apply IH. intros x Hx. apply Hincl. right. exact Hx. }
  apply G, incl_refl.
Qed.

(** X13: the punctuation cleanup never returns a text longer than the one
    it is given. *)
Theorem cleanup_never_longer (s : str) : length (cleanup s) <= length s.
Proof.
  apply (cleanup_fold (fun s u => length u <= length s)).
  - intros u. lia.
  - intros u v w H1 H2. lia.
  - intros r repl u Hin. apply cleanup_rule_length, Hin.
Qed.

Lemma cleanup_nonempty (s : str) : s <> [] -> cleanup s <> [].
Proof.
  apply (cleanup_fold (fun s u => s <> [] -> u <> [])).
  - auto.
  - auto.
  - intros r repl u Hin. apply cleanup_rule_nonempty, Hin.
Qed.

(** ** Non-empty texts *)

Lemma re_sub_text_nonempty (ic : bool) (r : regex) (text s : str) :
  text <> [] -> s <> [] -> re_sub ic r [Txt text] s <> [].
Proof.
  intros Ht Hs. destruct s as [|c s]; [contradiction|].
  unfold re_sub. cbn [length sub_loop nth_error expand flat_map].
  rewrite app_nil_r.
  destruct (match_at ic (c :: s) r 0) as [st|]; [|discriminate].
  destruct text; [contradiction|]. destruct (0 <? pos st); discriminate.
Qed.

Lemma fold_text_nonempty (ic : bool) (rules : list (regex * template)) :
  Forall (fun '(r, repl) => exists text, repl = [Txt text] /\ text <> [])
         rules ->
  forall s, s <> [] ->
            fold_left (fun temp '(pattern, replacement) =>
                         re_sub ic pattern replacement temp) rules s <> [].
Proof.
  induction 1 as [|[r repl] rules (text & -> & Ht) _ IH]; intros s Hs;
    [exact Hs|].
  cbn [fold_left]. apply IH, re_sub_text_nonempty; assumption.
Qed.

Lemma protect_nonempty (s : str) : s <> [] -> protect s <> [].
Proof.
  apply (fold_text_nonempty true).
  repeat constructor; eexists; (split; [reflexivity | discriminate]).
Qed.

Lemma substitute_nonempty (s : str) : s <> [] -> substitute s <> [].
Proof.
  apply (fold_text_nonempty true).
  repeat constructor; eexists; (split; [reflexivity | discriminate]).
Qed.

Lemma restore_nonempty (s : str) : s <> [] -> restore s <> [].
Proof.
  unfold restore, PLACEHOLDERS. cbn [fold_left]. intros Hs.
  repeat (rewrite replace_re_sub by discriminate).
  repeat (apply re_sub_text_nonempty; [discriminate|]). exact Hs.
Qed.

(** X14: a transcript that is not empty is never normalised to the empty
    text, so what is typed is never the trailing space alone. *)
Theorem normalize_nonempty (transcript : str) :
  transcript <> [] -> cleanup (clean_transcript transcript) <> [].
Proof.
  intros H. unfold clean_transcript.
  apply cleanup_nonempty, restore_nonempty, substitute_nonempty,
    protect_nonempty, H.
Qed.

Lemma normalize_nonempty_witness :
  cleanup (clean_transcript (L "comma")) <> [].
Proof. apply normalize_nonempty. discriminate. Defined.

(** ** Neighbours in the result of a scan *)

Lemma no_pair_tail (bad : ascii -> ascii -> bool) (x : ascii) (l : str) :
  no_pair bad (x :: l) = true -> no_pair bad l = true.
Proof.
  destruct l as [|y l]; [reflexivity|]. cbn [no_pair]. intros H.
  apply andb_prop in H. tauto.
Qed.

Lemma no_pair_join (bad : ascii -> ascii -> bool) (u v : str) (z : ascii) :
  no_pair bad (u ++ [z]) = true -> no_pair bad (z :: v) = true ->
  no_pair bad (u ++ z :: v) = true.
Proof.
  induction u as [|x u IH]; intros H1 H2; [exact H2|].
  destruct u as [|y u].
  - cbn [app no_pair] in *. apply andb_prop in H1. destruct H1 as [H1 _].
    rewrite H1. exact H2.
  - cbn [app no_pair] in *. apply andb_prop in H1. destruct H1 as [H1 H1'].
    rewrite H1. apply IH; assumption.
Qed.

Lemma no_pair_nth (bad : ascii -> ascii -> bool) (s : str) (k : nat)
      (a b : ascii) :
  no_pair bad s = true ->
  nth_error s k = Some a -> nth_error s (S k) = Some b -> bad a b = false.
Proof.
  revert k. induction s as [|x s IH]; intros k H Ea Eb;
    [destruct k; discriminate|].
  destruct k as [|k].
  - destruct s as [|y s]; [discriminate|]. cbn in Ea, Eb.
    injection Ea as <-. injection Eb as <-. cbn [no_pair] in H.
    apply andb_prop in H. destruct H as [H _].
    destruct (bad x y); [discriminate | reflexivity].
  - apply (IH k); [apply (no_pair_tail bad x), H | exact Ea | exact Eb].
Qed.

Section ScanPairs.

Variable bad : ascii -> ascii -> bool.
Variable r : regex.
Variable repl : template.
Variable s : str.

(** [J x i]: the character [x] may stand directly before what the scan
    writes from [i] on. *)
Variable J : ascii -> nat -> Prop.

Hypothesis copy :
  forall i x c,
    match_at false s r i = None -> nth_error s i = Some c -> J x i ->
    bad x c = false /\ J c (S i).
Hypothesis swap :
  forall i x st,
    match_at false s r i = Some st -> J x i ->
    i < pos st
    /\ exists u z, expand s repl (cap st) = u ++ [z]
                   /\ no_pair bad (x :: u ++ [z]) = true
                   /\ J z (pos st).

Lemma scan_pairs (fuel i : nat) (x : ascii) :
  J x i -> no_pair bad (x :: sub_loop false r repl s fuel i) = true.
Proof.
  revert i x. induction fuel as [|n IH]; intros i x Hx; [reflexivity|].
  cbn [sub_loop]. destruct (match_at false s r i) as [st|] eqn:M.
  - destruct (swap i x st M Hx) as (Lt & u & z & E & P & Jz).
    apply Nat.ltb_lt in Lt. rewrite Lt, E, <- app_assoc.
    apply (no_pair_join bad (x :: u)); [exact P|]. apply IH, Jz.
  - destruct (nth_error s i) as [c|] eqn:E; [|reflexivity].
    destruct (copy i x c M E Hx) as [B Jc].
    change (no_pair bad (x :: c :: sub_loop false r repl s n (S i)))
      with (negb (bad x c)
            && no_pair bad (c :: sub_loop false r repl s n (S i))).
    rewrite B. apply IH, Jc.
Qed.

End ScanPairs.

(** A rule that writes a fixed text keeps a string free of [bad]
    neighbours when the text brings none. *)
Lemma text_keeps_pairs (bad : ascii -> ascii -> bool) (r : regex)
      (u : str) (z x0 : ascii) (s : str) :
  (forall i st, match_at false s r i = Some st -> i < pos st) ->
  (forall x, no_pair bad (x :: u ++ [z]) = true) ->
  (forall y, bad z y = false) ->
  (forall y, bad x0 y = false) ->
  no_pair bad s = true ->
  no_pair bad (re_sub false r [Txt (u ++ [z])] s) = true.
Proof.
  intros Hm Hu Hz Hx0 Hs. unfold re_sub.
  apply (no_pair_tail bad x0).
  apply (scan_pairs bad r [Txt (u ++ [z])] s
                    (fun x i => forall c, nth_error s i = Some c ->
                                          bad x c = false)).
  - intros i x c _ E Jx. split; [apply Jx, E|].
    intros d Ed. apply (no_pair_nth bad s i c d Hs E Ed).
  - intros i x st M _. split; [apply (Hm i st M)|].
    exists u, z. cbn [expand flat_map]. rewrite app_nil_r.
    split; [reflexivity|]. split; [apply Hu|]. intros c _. apply Hz.
  - intros c _. apply Hx0.
Qed.

Lemma cleanup_match_advances (r : regex) (repl : template) (s : str)
      (i : nat) (st : mstate) :
  In (r, repl) CLEANUP -> match_at false s r i = Some st -> i < pos st.
Proof.
  intros Hin M. apply match_at_in in M.
  apply (cleanup_expansion r repl Hin s i st M).
Qed.

Ltac in_cleanup := unfold CLEANUP; cbn [In]; tauto.

Ltac no_space_mark :=
  intros; cbn [no_pair app]; unfold space_mark;
  repeat (change (is_mark4 dquote) with false
          || change (is_mark4 " "%char) with false
          || change (is_space dquote) with false
          || change (is_space "a"%char) with false);
  rewrite ?andb_false_r; reflexivity.

(** The four substitutions around quotes keep a string free of white space
    before a mark. *)
Lemma quote_rules_keep (s : str) :
  no_pair space_mark s = true ->
  no_pair space_mark
    (re_sub false (Chr ","%char +++ Chr dquote) [Txt (" "%char :: [dquote])]
       (re_sub false (Chr dquote +++ Chr ","%char) [Txt [dquote]]
          (re_sub false (Plus Ws +++ Chr dquote) [Txt [dquote]]
             (re_sub false (Chr dquote +++ Plus Ws) [Txt [dquote]] s))))
  = true.
Proof.
  intros H.
  apply (text_keeps_pairs space_mark _ [" "%char] dquote "a"%char);
    [intros i st; apply cleanup_match_advances with (repl := [Txt [" "%char; dquote]]); in_cleanup
    | no_space_mark | no_space_mark | no_space_mark |].
  apply (text_keeps_pairs space_mark _ [] dquote "a"%char);
    [intros i st; apply cleanup_match_advances with (repl := [Txt [dquote]]); in_cleanup
    | no_space_mark | no_space_mark | no_space_mark |].
  apply (text_keeps_pairs space_mark _ [] dquote "a"%char);
    [intros i st; apply cleanup_match_advances with (repl := [Txt [dquote]]); in_cleanup
    | no_space_mark | no_space_mark | no_space_mark |].
  apply (text_keeps_pairs space_mark _ [] dquote "a"%char);
    [intros i st; apply cleanup_match_advances with (repl := [Txt [dquote]]); in_cleanup
    | no_space_mark | no_space_mark | no_space_mark |].
  exact H.
Qed.

(** ** A comma before a quote *)

Lemma match_two (s : str) (c1 c2 : ascii) (i : nat) :
  match_at false s (Chr c1 +++ Chr c2) i
  = match nth_error s i, nth_error s (S i) with
    | Some a, Some b =>
        if Ascii.eqb c1 a && Ascii.eqb c2 b then Some (S (S i), None)
        else None
    | _, _ => None
    end.
Proof.
  unfold match_at. cbn [run]. unfold one. cbn [pos cap fst snd eq_char].
  destruct (nth_error s i) as [a|]; [|reflexivity].
  destruct (Ascii.eqb c1 a); cbn [flat_map andb];
    [|destruct (nth_error s (S i)); reflexivity].
  cbn [pos cap fst snd]. rewrite app_nil_r.
  destruct (nth_error s (S i)) as [b|]; [|reflexivity].
  destruct (Ascii.eqb c2 b); reflexivity.
Qed.

Lemma comma_quote_gone (s : str) :
  no_pair comma_quote
    (re_sub false (Chr ","%char +++ Chr dquote) [Txt (" "%char :: [dquote])]
            s) = true.
Proof.
  unfold re_sub. apply (no_pair_tail comma_quote "a"%char).
  apply (scan_pairs comma_quote _ _ s
                    (fun x i => forall c, nth_error s i = Some c ->
                                          comma_quote x c = false)).
  - intros i x c M E Jx. split; [apply Jx, E|].
    intros d Ed. rewrite match_two, E, Ed in M. unfold comma_quote.
    rewrite (Ascii.eqb_sym c), (Ascii.eqb_sym d).
    destruct (Ascii.eqb ","%char c && Ascii.eqb dquote d);
      [discriminate | reflexivity].
  - intros i x st M _. rewrite match_two in M.
    destruct (nth_error s i) as [a|]; [|discriminate].
    destruct (nth_error s (S i)) as [b|]; [|discriminate].
    destruct (Ascii.eqb ","%char a && Ascii.eqb dquote b); [|discriminate].
    injection M as <-. cbn [pos cap fst snd]. split; [lia|].
    exists [" "%char], dquote. split; [reflexivity|]. split.
    + cbn [app no_pair]. unfold comma_quote.
      change (Ascii.eqb " "%char dquote) with false.
      change (Ascii.eqb " "%char ","%char) with false.
      rewrite andb_false_r. reflexivity.
    + intros c _. reflexivity.
  - intros c _. reflexivity.
Qed.

(** ** White space before a mark *)

Lemma mark4_class (d : ascii) :
  existsb (fun c => eq_char false c d) (L ",.!?") = is_mark4 d.
Proof. reflexivity. Qed.

Lemma mark4_not_space (d : ascii) : is_mark4 d = true -> is_space d = false.
Proof.
  destruct d as [[] [] [] [] [] [] [] []]; (reflexivity || discriminate).
Qed.

Lemma nth_error_Some_lt (s : str) (k : nat) (c : ascii) :
  nth_error s k = Some c -> k < length s.
Proof. intros E. apply nth_error_Some. congruence. Qed.

Lemma lead_step (s : str) (k : nat) :
  lead s k = match nth_error s k with
             | Some c => if is_space c then lead s (S k) else is_mark4 c
             | None => false
             end.
Proof.
  unfold lead. rewrite (skipn_nth_error s k).
  destruct (nth_error s k); reflexivity.
Qed.

Lemma lead_intro (s : str) (j : nat) (p : ascii) :
  nth_error s j = Some p -> is_mark4 p = true ->
  forall n k, j = k + n -> spaces s k j -> lead s k = true.
Proof.
  intros Ep Mp. induction n as [|n IH]; intros k Hj Hs.
  - rewrite lead_step. replace k with j by lia.
    rewrite Ep, (mark4_not_space p Mp). exact Mp.
  - rewrite lead_step. destruct (Hs k) as (d & Ed & Sd); [lia|].
    rewrite Ed, Sd. apply IH; [lia|]. intros m Hm. apply Hs. lia.
Qed.

Lemma lead_elim (s : str) :
  forall n k, length s - k <= n -> lead s k = true ->
              exists j p, k <= j /\ spaces s k j
                          /\ nth_error s j = Some p /\ is_mark4 p = true.
Proof.
  induction n as [|n IH]; intros k Hn H; rewrite lead_step in H;
    destruct (nth_error s k) as [c|] eqn:E; try discriminate.
  - apply nth_error_Some_lt in E. lia.
  - destruct (is_space c) eqn:Sc.
    + apply nth_error_Some_lt in E as Lt.
      destruct (IH (S k)) as (j & p & Hj & Hs & Ep & Mp); [lia | exact H |].
      exists j, p. split; [lia|]. split; [|auto].
      intros m Hm. destruct (Nat.eq_dec m k) as [->|Hne].
      * exists c. auto.
      * apply Hs. lia.
    + exists k, c. split; [lia|]. split; [intros m Hm; lia | auto].
Qed.

Section SpaceMark.

Variable s : str.

Let rule : regex := Plus Ws +++ Grp punct4.

(** What a match of the rule is made of. *)
Lemma space_mark_match (i : nat) (st : mstate) :
  In st (run false s rule (i, None)) ->
  exists j p,
    i < j /\ spaces s i j /\ nth_error s j = Some p /\ is_mark4 p = true
    /\ st = (S j, Some (j, S j)).
Proof.
  intros H. apply in_cat in H. destruct H as (mid & Hmid & H).
  apply (in_plus false s Ws (fun m => spaces s i (pos m))) in Hmid.
  - destruct Hmid as [Hs Lt]. cbn [pos fst] in Lt.
    cbn [run] in H. apply in_map_iff in H. destruct H as (m & <- & Hm).
    apply in_one in Hm. destruct Hm as (p & Ep & Mp & ->).
    exists (pos mid), p. cbn [pos cap fst snd].
    rewrite mark4_class in Mp. auto 10.
  - intros a b Qa Hb. apply in_one in Hb. destruct Hb as (d & Ed & Sd & ->).
    cbn [pos fst]. split; [|lia]. intros m Hm.
    destruct (Nat.eq_dec m (pos a)) as [->|Hne]; [exists d; auto|].
    apply Qa. lia.
  - intros m Hm. cbn [pos fst] in Hm. lia.
Qed.

Lemma iter_self (f : mstate -> list mstate) (n : nat) (a : mstate) :
  In a (iter f n a).
Proof. destruct n; cbn [iter]; [left | apply in_or_app; right; left]; auto. Qed.

Lemma spaces_iter (c : option (nat * nat)) (j : nat) :
  forall n k, j - k <= n -> k <= j -> spaces s k j ->
              In (j, c) (iter (run false s Ws) n (k, c)).
Proof.
  induction n as [|n IH]; intros k Hn Hk Hs.
  - replace k with j by lia. left. reflexivity.
  - destruct (Nat.eq_dec k j) as [->|Hne]; [apply iter_self|].
    cbn [iter]. apply in_or_app. left. apply in_flat_map.
    destruct (Hs k) as (d & Ed & Sd); [lia|].
    exists (S k, c). split.
    + cbn [run]. unfold one. cbn [pos cap fst snd]. rewrite Ed, Sd.
      left. reflexivity.
    + cbn [pos fst]. replace (k <? S k) with true
        by (symmetry; apply Nat.ltb_lt; lia).
      apply IH; [lia | lia |]. intros m Hm. apply Hs. lia.
Qed.

(** White space at [i] with a mark after the white space: the rule
    matches. *)
Lemma space_mark_found (i : nat) (d : ascii) :
  nth_error s i = Some d -> is_space d = true -> lead s (S i) = true ->
  match_at false s rule i <> None.
Proof.
  intros Ed Sd H.
  destruct (lead_elim s (length s) (S i)) as (j & p & Hj & Hs & Ep & Mp);
    [lia | exact H |].
  assert (Hin : In (S j, Some (j, S j)) (run false s rule (i, None))).
  { unfold rule. cbn [run]. apply in_flat_map. exists (j, None). split.
    - apply in_flat_map. exists (S i, None). split.
      + unfold one. cbn [pos cap fst snd]. rewrite Ed, Sd. left. reflexivity.
      + cbn [pos fst]. apply spaces_iter; [|lia | exact Hs].
        apply nth_error_Some_lt in Ep. lia.
    - apply in_map_iff. exists (S j, None). split; [reflexivity|].
      unfold punct4. cbn [run]. unfold one. cbn [pos cap fst snd].
      rewrite Ep, mark4_class, Mp.
      left. reflexivity. }
  unfold match_at. destruct (run false s rule (i, None)); [destruct Hin|].
  discriminate.
Qed.

Lemma space_mark_gone :
  no_pair space_mark (re_sub false rule [G1] s) = true.
Proof.
  unfold re_sub. apply (no_pair_tail space_mark "a"%char).
  apply (scan_pairs space_mark rule [G1] s
                    (fun x i => is_space x = true -> lead s i = false)).
  - intros i x c M E Jx. split.
    + unfold space_mark. destruct (is_space x) eqn:Sx; [|reflexivity].
      cbn [andb]. destruct (is_mark4 c) eqn:Mc; [|reflexivity]. exfalso.
      specialize (Jx eq_refl).
      rewrite lead_step, E, (mark4_not_space c Mc), Mc in Jx. discriminate.
    + intros Sc. destruct (lead s (S i)) eqn:Ld; [|reflexivity].
      exfalso. apply (space_mark_found i c E Sc Ld M).
  - intros i x st M Jx. apply match_at_in, space_mark_match in M.
    destruct M as (j & p & Lt & Hs & Ep & Mp & ->).
    cbn [pos cap fst snd]. split; [lia|].
    exists [], p. split.
    + cbn [expand flat_map app]. rewrite app_nil_r.
      apply nth_error_Some_lt in Ep as Hj.
      rewrite (slice_cons s j (S j) p) by (auto; lia).
      rewrite slice_nil. reflexivity.
    + split.
      * cbn [app no_pair]. unfold space_mark.
        destruct (is_space x) eqn:Sx; [|reflexivity].
        specialize (Jx eq_refl).
        rewrite (lead_intro s j p Ep Mp (j - i) i) in Jx;
          [discriminate | lia | exact Hs].
      * intros Sp. rewrite (mark4_not_space p Mp) in Sp. discriminate.
  - discriminate.
Qed.

End SpaceMark.

(** X11: in the result of the punctuation cleanup no white space stands
    directly before one of the marks , . ! ? *)
Theorem cleanup_no_space_before_mark (s : str) :
  no_pair space_mark (cleanup s) = true.
Proof.
  unfold cleanup, CLEANUP. cbn [fold_left].
  apply quote_rules_keep, space_mark_gone.
Qed.

(** X12: in the result of the punctuation cleanup no comma stands
    directly before a quote character. *)
Theorem cleanup_no_comma_before_quote (s : str) :
  no_pair comma_quote (cleanup s) = true.
Proof.
  unfold cleanup, CLEANUP. cbn [fold_left]. apply comma_quote_gone.
Qed.

(** * The phases on a text that holds a phrase *)

(** ** The scan of a rule, piece by piece *)

Section ScanText.

Variable ic : bool.
Variable r : regex.
Variable text : str.

(** Where the match at [i] ends, described without the matcher. *)
Variable E : str -> nat -> option nat.
Hypothesis E_spec :
  forall s i, option_map pos (match_at ic s r i) = E s i.
Hypothesis E_inside : forall s i j, E s i = Some j -> i < j <= length s.

Lemma match_inside (s : str) (i : nat) (st : mstate) :
  match_at ic s r i = Some st -> i < pos st <= length s.
Proof.
  intros M. apply E_inside. rewrite <- E_spec, M. reflexivity.
Qed.

Lemma match_E_none (s : str) (i : nat) :
  E s i = None -> match_at ic s r i = None.
Proof.
  rewrite <- E_spec. destruct (match_at ic s r i); [discriminate | auto].
Qed.

Lemma match_E_some (s : str) (i j : nat) :
  E s i = Some j -> exists st, match_at ic s r i = Some st /\ pos st = j.
Proof.
  rewrite <- E_spec. destruct (match_at ic s r i) as [st|]; [|discriminate].
  intros [= <-]. exists st. auto.
Qed.

Lemma sub_loop_fuel (s : str) (n : nat) :
  forall m i,
    length s < n + i -> length s < m + i ->
    sub_loop ic r [Txt text] s n i = sub_loop ic r [Txt text] s m i.
Proof.
  induction n as [|n IH]; intros m i Hn Hm.
  - destruct m as [|m]; [reflexivity|]. cbn [sub_loop].
    destruct (match_at ic s r i) as [st|] eqn:M.
    + apply match_inside in M. lia.
    + destruct (nth_error s i) eqn:N; [|reflexivity].
      assert (i < length s) by (apply nth_error_Some; congruence). lia.
  - destruct m as [|m].
    + cbn [sub_loop].
      destruct (match_at ic s r i) as [st|] eqn:M.
      * apply match_inside in M. lia.
      * destruct (nth_error s i) eqn:N; [|reflexivity].
        assert (i < length s) by (apply nth_error_Some; congruence). lia.
    + cbn [sub_loop].
      destruct (match_at ic s r i) as [st|] eqn:M.
      * pose proof (match_inside s i st M) as B.
        destruct (i <? pos st) eqn:Lt; [|apply Nat.ltb_ge in Lt; lia].
        rewrite (IH m (pos st)) by lia. reflexivity.
      * destruct (nth_error s i) eqn:N; [|reflexivity].
        rewrite (IH m (S i)) by lia. reflexivity.
Qed.

Lemma re_sub_scan (s : str) :
  re_sub ic r [Txt text] s = scan ic r [Txt text] s 0.
Proof. reflexivity. Qed.

Lemma scan_end (s : str) (i : nat) :
  length s <= i -> scan ic r [Txt text] s i = [].
Proof.
  intros H. unfold scan.
  destruct (S (length s) - i) as [|n] eqn:F; [reflexivity|].
  cbn [sub_loop].
  destruct (match_at ic s r i) as [st|] eqn:M.
  - apply match_inside in M. lia.
  - destruct (nth_error s i) eqn:N; [|reflexivity].
    assert (i < length s) by (apply nth_error_Some; congruence). lia.
Qed.

Lemma scan_match (s : str) (i j : nat) :
  E s i = Some j ->
  scan ic r [Txt text] s i = text ++ scan ic r [Txt text] s j.
Proof.
  intros H. destruct (match_E_some s i j H) as (st & M & <-).
  pose proof (match_inside s i st M) as B. unfold scan.
  replace (S (length s) - i) with (S (length s - i)) by lia.
  cbn [sub_loop]. rewrite M.
  destruct (i <? pos st) eqn:Lt; [|apply Nat.ltb_ge in Lt; lia].
  cbn [expand flat_map]. rewrite app_nil_r.
  rewrite (sub_loop_fuel s (length s - i) (S (length s) - pos st) (pos st))
    by lia.
  reflexivity.
Qed.

Lemma scan_copy (s : str) (i : nat) (c : ascii) :
  E s i = None -> nth_error s i = Some c ->
  scan ic r [Txt text] s i = c :: scan ic r [Txt text] s (S i).
Proof.
  intros H N. apply match_E_none in H.
  assert (i < length s) by (apply nth_error_Some; congruence).
  unfold scan. replace (S (length s) - i) with (S (length s - i)) by lia.
  cbn [sub_loop]. rewrite H, N.
  replace (S (length s) - S i) with (length s - i) by lia. reflexivity.
Qed.

(** A stretch where nothing matches is copied. *)
Lemma scan_run (s : str) (b : nat) :
  b <= length s ->
  forall n a,
    b - a <= n -> a <= b ->
    (forall i, a <= i < b -> E s i = None) ->
    scan ic r [Txt text] s a = slice s a b ++ scan ic r [Txt text] s b.
Proof.
  intros Hb. induction n as [|n IH]; intros a Hn Hab Hnone.
  - replace a with b by lia. rewrite slice_nil. reflexivity.
  - destruct (Nat.eq_dec a b) as [->|Hne];
      [rewrite slice_nil; reflexivity|].
    destruct (nth_error s a) as [c|] eqn:N.
    + rewrite (scan_copy s a c) by (auto; apply Hnone; lia).
      rewrite (slice_cons s a b c) by (auto; lia).
      rewrite (IH (S a)) by (try lia; intros i Hi; apply Hnone; lia).
      reflexivity.
    + apply nth_error_None in N. lia.
Qed.

(** Left of a cut the scan of the whole is the scan of the part. *)
Lemma scan_left (X Y : str) :
  (forall i, i < length X -> E (X ++ Y) i = E X i) ->
  forall n i,
    length X - i <= n -> i <= length X ->
    scan ic r [Txt text] (X ++ Y) i
    = scan ic r [Txt text] X i ++ scan ic r [Txt text] (X ++ Y) (length X).
Proof.
  intros Hsame. induction n as [|n IH]; intros i Hn Hi.
  - replace i with (length X) by lia.
    rewrite (scan_end X) by lia. reflexivity.
  - destruct (Nat.eq_dec i (length X)) as [->|Hne];
      [rewrite (scan_end X) by lia; reflexivity|].
    assert (Hlt : i < length X) by lia.
    pose proof (Hsame i Hlt) as Ei.
    destruct (E X i) as [j|] eqn:EX.
    + pose proof (E_inside X i j EX) as B.
      rewrite (scan_match (X ++ Y) i j Ei), (scan_match X i j EX).
      rewrite (IH j) by lia. rewrite app_assoc. reflexivity.
    + destruct (nth_error X i) as [c|] eqn:N;
        [|apply nth_error_None in N; lia].
      assert (N' : nth_error (X ++ Y) i = Some c)
        by (rewrite nth_error_app1 by lia; exact N).
      rewrite (scan_copy (X ++ Y) i c Ei N'), (scan_copy X i c EX N).
      rewrite (IH (S i)) by lia. reflexivity.
Qed.

(** Right of a cut the scan of the whole is the scan of the part. *)
Lemma scan_right (X Y : str) :
  (forall q, E (X ++ Y) (length X + q)
             = option_map (Nat.add (length X)) (E Y q)) ->
  forall n q,
    length Y - q <= n ->
    scan ic r [Txt text] (X ++ Y) (length X + q) = scan ic r [Txt text] Y q.
Proof.
  intros Hsame. induction n as [|n IH]; intros q Hn.
  - rewrite !scan_end by (rewrite ?length_app; lia). reflexivity.
  - destruct (Nat.le_gt_cases (length Y) q) as [Hge|Hlt];
      [rewrite !scan_end by (rewrite ?length_app; lia); reflexivity|].
    pose proof (Hsame q) as Eq.
    destruct (E Y q) as [j|] eqn:EY; cbn [option_map] in Eq.
    + pose proof (E_inside Y q j EY) as B.
      rewrite (scan_match (X ++ Y) _ _ Eq), (scan_match Y q j EY).
      rewrite (IH j) by lia. reflexivity.
    + destruct (nth_error Y q) as [c|] eqn:N;
        [|apply nth_error_None in N; lia].
      assert (N' : nth_error (X ++ Y) (length X + q) = Some c).
      { rewrite nth_error_app2 by lia.
        replace (length X + q - length X) with q by lia. exact N. }
      rewrite (scan_copy (X ++ Y) _ c Eq N'), (scan_copy Y q c EY N).
      replace (S (length X + q)) with (length X + S q) by lia.
      rewrite (IH (S q)) by lia. reflexivity.
Qed.

End ScanText.

(** ** Spoken words on both sides of a cut *)

Lemma word_at_app1 (X Y : str) (k : nat) :
  k < length X -> word_at (X ++ Y) k = word_at X k.
Proof. intros H. unfold word_at. rewrite nth_error_app1 by exact H. reflexivity. Qed.

Lemma word_at_app2 (X Y : str) (k : nat) :
  word_at (X ++ Y) (length X + k) = word_at Y k.
Proof.
  unfold word_at. rewrite nth_error_app2 by lia.
  replace (length X + k - length X) with k by lia. reflexivity.
Qed.

Lemma boundary_app1 (X Y : str) (k : nat) :
  k < length X -> boundary (X ++ Y) k = boundary X k.
Proof.
  intros H. unfold boundary. rewrite (word_at_app1 X Y k H).
  destruct k as [|k]; [reflexivity|]. rewrite word_at_app1 by lia.
  reflexivity.
Qed.

Lemma boundary_app2 (X Y : str) (k : nat) :
  boundary (X ++ Y) (length X + S k) = boundary Y (S k).
Proof.
  unfold boundary. rewrite word_at_app2.
  replace (length X + S k) with (S (length X + k)) by lia.
  rewrite word_at_app2. reflexivity.
Qed.

Lemma boundary_cut (X Y : str) :
  boundary (X ++ Y) (length X)
  = xorb (word_at X (length X - 1)) (word_at Y 0).
Proof.
  unfold boundary.
  replace (word_at (X ++ Y) (length X)) with (word_at Y 0)
    by (rewrite <- (word_at_app2 X Y 0), Nat.add_0_r; reflexivity).
  destruct (length X) as [|n] eqn:E.
  - destruct X; [reflexivity | discriminate].
  - rewrite word_at_app1 by lia.
    replace (S n - 1) with n by lia. reflexivity.
Qed.

Lemma skipn_app2 (X Y : str) (q : nat) :
  skipn (length X + q) (X ++ Y) = skipn q Y.
Proof.
  rewrite skipn_app, skipn_all2 by lia.
  replace (length X + q - length X) with q by lia. reflexivity.
Qed.

Lemma skipn_app1 (X Y : str) (i : nat) :
  i <= length X -> skipn i (X ++ Y) = skipn i X ++ Y.
Proof.
  intros H. rewrite skipn_app. replace (i - length X) with 0 by lia.
  reflexivity.
Qed.

Lemma skip_if_app1 (p : ascii -> bool) (X Y : str) (j : nat) :
  j < length X -> skip_if p (X ++ Y) j = skip_if p X j.
Proof.
  intros H. unfold skip_if. rewrite nth_error_app1 by exact H. reflexivity.
Qed.

Lemma skip_if_app2 (p : ascii -> bool) (X Y : str) (j : nat) :
  skip_if p (X ++ Y) (length X + j) = length X + skip_if p Y j.
Proof.
  unfold skip_if. rewrite nth_error_app2 by lia.
  replace (length X + j - length X) with j by lia.
  destruct (nth_error Y j) as [d|]; [destruct (p d)|]; lia.
Qed.

Lemma skip_if_le (p : ascii -> bool) (s : str) (j : nat) :
  j <= skip_if p s j <= S j
  /\ (j <= length s -> skip_if p s j <= length s).
Proof.
  unfold skip_if. destruct (nth_error s j) as [d|] eqn:N.
  - assert (j < length s) by (apply nth_error_Some; congruence).
    destruct (p d); lia.
  - lia.
Qed.

Lemma prefix_of_fit (ic : bool) (w U V : str) :
  length w <= length U -> prefix_of ic w (U ++ V) = prefix_of ic w U.
Proof.
  revert U. induction w as [|c w IH]; intros U H; [reflexivity|].
  destruct U as [|d U]; [cbn in H; lia|].
  cbn [app prefix_of]. rewrite IH by (cbn in H; lia). reflexivity.
Qed.

Lemma find_same {A : Type} (P Q : A -> bool) (l : list A) :
  (forall x, In x l -> P x = Q x) -> find P l = find Q l.
Proof.
  induction l as [|x l IH]; intros H; [reflexivity|]. cbn [find].
  rewrite (H x) by (left; reflexivity).
  rewrite IH by (intros y Hy; apply H; right; exact Hy). reflexivity.
Qed.

(** A phrase starts where a word character stands. *)
Lemma phrase_at_word (s w : str) (c : ascii) (u : str) (i : nat) :
  w = c :: u -> is_word c = true ->
  phrase_at s w i = true -> word_at s i = true.
Proof.
  intros -> Hc H. unfold phrase_at in H.
  apply andb_prop in H. destruct H as [H _].
  apply andb_prop in H. destruct H as [_ H].
  destruct (prefix_nth_ci _ _ 0 c H eq_refl) as (d & Ed & Cd).
  rewrite nth_error_skipn, Nat.add_0_r in Ed.
  unfold word_at. rewrite Ed, (eq_char_word _ _ Cd). exact Hc.
Qed.

Lemma phrase_at_no_word (s w : str) (c : ascii) (u : str) (i : nat) :
  w = c :: u -> is_word c = true ->
  word_at s i = false -> phrase_at s w i = false.
Proof.
  intros Hw Hc W. destruct (phrase_at s w i) eqn:P; [|reflexivity].
  rewrite (phrase_at_word s w c u i Hw Hc P) in W. discriminate.
Qed.

Section Cut.

Variable phrases : list str.
Variable space : bool.

(** Every phrase begins and ends with a word character. *)
Hypothesis starts :
  forall w, In w phrases -> exists c u, w = c :: u /\ is_word c = true.
Hypothesis stops :
  forall w, In w phrases -> word_at w (length w - 1) = true.

Lemma phrases_nonempty (w : str) : In w phrases -> 0 < length w.
Proof.
  intros H. destruct (starts w H) as (c & u & -> & _). cbn. lia.
Qed.

Lemma spoken_inside (s : str) (i j : nat) :
  spoken phrases space s i = Some j -> i < j <= length s.
Proof.
  intros H. pose proof H as H'. apply spoken_inv in H'.
  destruct H' as (w & Hw & Hph & Hj & _).
  pose proof (phrases_nonempty w Hw) as Hlen.
  split; [lia|].
  assert (Hne : w <> []) by (destruct w; [cbn in Hlen; lia | discriminate]).
  pose proof (phrase_at_bound s w i Hne Hph) as B.
  unfold spoken in H. destruct (find _ phrases) as [w'|] eqn:F; [|discriminate].
  apply find_some in F. destruct F as [Hw' Hph'].
  assert (Hne' : w' <> []).
  { pose proof (phrases_nonempty w' Hw'). destruct w'; [cbn in *; lia|].
    discriminate. }
  pose proof (phrase_at_bound s w' i Hne' Hph') as B'.
  injection H as <-.
  destruct (skip_if_le is_mark s (i + length w')) as [_ L1].
  specialize (L1 B').
  destruct space; [|exact L1].
  destruct (skip_if_le is_blank s (skip_if is_mark s (i + length w')))
    as [_ L2].
  apply L2, L1.
Qed.

(** Right of a cut: the words of the whole are the words of the right
    part, when no word runs across the cut. *)
Lemma spoken_right (X Y : str) :
  word_at X (length X - 1) = false \/ word_at Y 0 = false
  \/ spoken phrases space Y 0 = None ->
  forall q,
    spoken phrases space (X ++ Y) (length X + q)
    = option_map (Nat.add (length X)) (spoken phrases space Y q).
Proof.
  intros Hcut q.
  assert (Hlater : forall w k,
             In w phrases ->
             boundary (X ++ Y) (length X + k + length w)
             = boundary Y (k + length w)).
  { intros w k Hw. pose proof (phrases_nonempty w Hw).
    replace (length X + k + length w)
      with (length X + S (k + length w - 1)) by lia.
    rewrite boundary_app2. f_equal. lia. }
  assert (Hskip : forall w : str,
             (if space
              then skip_if is_blank (X ++ Y)
                     (skip_if is_mark (X ++ Y) (length X + q + length w))
              else skip_if is_mark (X ++ Y) (length X + q + length w))
             = length X
               + (if space
                  then skip_if is_blank Y (skip_if is_mark Y (q + length w))
                  else skip_if is_mark Y (q + length w))).
  { intros w. rewrite <- Nat.add_assoc, skip_if_app2.
    destruct space; [apply skip_if_app2 | reflexivity]. }
  assert (Hsame : (forall w, In w phrases ->
                             phrase_at (X ++ Y) w (length X + q)
                             = phrase_at Y w q)
                  -> spoken phrases space (X ++ Y) (length X + q)
                     = option_map (Nat.add (length X))
                                  (spoken phrases space Y q)).
  { intros Hph. unfold spoken. rewrite (find_same _ _ _ Hph).
    destruct (find _ phrases) as [w|]; [|reflexivity].
    cbn [option_map]. rewrite Hskip. reflexivity. }
  destruct q as [|q].
  - assert (Hfirst : forall w, In w phrases ->
                               word_at Y 0 = false ->
                               phrase_at (X ++ Y) w (length X + 0) = false
                               /\ phrase_at Y w 0 = false).
    { intros w Hw W. destruct (starts w Hw) as (c & u & E & Hc). split.
      - apply (phrase_at_no_word _ w c u _ E Hc).
        rewrite word_at_app2. exact W.
      - apply (phrase_at_no_word _ w c u _ E Hc). exact W. }
    destruct (word_at X (length X - 1)) eqn:LW.
    + destruct (word_at Y 0) eqn:WH.
      * destruct Hcut as [Hc|[Hc|Hc]]; try discriminate.
        rewrite Hc. cbn [option_map]. apply spoken_none.
        intros w Hw. unfold phrase_at. rewrite Nat.add_0_r.
        rewrite boundary_cut, LW, WH. reflexivity.
      * apply Hsame. intros w Hw.
        destruct (Hfirst w Hw eq_refl) as [-> ->]. reflexivity.
    + apply Hsame. intros w Hw. unfold phrase_at.
      rewrite Hlater by exact Hw. rewrite skipn_app2.
      rewrite Nat.add_0_r, boundary_cut, LW. cbn [xorb].
      unfold boundary at 2. cbn [xorb]. cbn [Nat.add].
      destruct (word_at Y 0); reflexivity.
  - apply Hsame. intros w Hw. unfold phrase_at.
    rewrite Hlater by exact Hw. rewrite skipn_app2, boundary_app2.
    reflexivity.
Qed.

(** Left of a cut. *)
Lemma spoken_left (X Y : str) :
  word_at X (length X - 1) = false ->
  (forall d, space = true -> nth_error Y 0 = Some d -> is_blank d = false) ->
  (forall w i, In w phrases -> i < length X < i + length w ->
               phrase_at (X ++ Y) w i = false) ->
  forall i, i < length X ->
            spoken phrases space (X ++ Y) i = spoken phrases space X i.
Proof.
  intros Hclosed Hhead Hastride i Hi.
  (* a phrase that fits in X ends before the end of X *)
  assert (Hfit : forall w, In w phrases -> i + length w <= length X ->
                           prefix_of true w (skipn i X) = true ->
                           i + length w < length X).
  { intros w Hw Hle P.
    destruct (Nat.eq_dec (i + length w) (length X)) as [E|]; [|lia].
    exfalso. pose proof (stops w Hw) as S. unfold word_at in S.
    destruct (nth_error w (length w - 1)) as [c|] eqn:N; [|discriminate].
    destruct (prefix_nth_ci _ _ _ c P N) as (d & Ed & Cd).
    rewrite nth_error_skipn in Ed.
    pose proof (phrases_nonempty w Hw).
    replace (i + (length w - 1)) with (length X - 1) in Ed by lia.
    unfold word_at in Hclosed. rewrite Ed in Hclosed.
    rewrite (eq_char_word _ _ Cd), S in Hclosed. discriminate. }
  assert (Hph : forall w, In w phrases ->
                          phrase_at (X ++ Y) w i = phrase_at X w i).
  { intros w Hw.
    destruct (Nat.le_gt_cases (i + length w) (length X)) as [Hle|Hgt].
    - unfold phrase_at. rewrite skipn_app1 by lia.
      rewrite prefix_of_fit by (rewrite length_skipn; lia).
      rewrite boundary_app1 by exact Hi.
      destruct (prefix_of true w (skipn i X)) eqn:P.
      + rewrite boundary_app1 by (apply Hfit; assumption). reflexivity.
      + rewrite !andb_false_r. reflexivity.
    - rewrite Hastride by (auto; lia). symmetry.
      unfold phrase_at.
      destruct (prefix_of true w (skipn i X)) eqn:P.
      + apply prefix_of_length in P. rewrite length_skipn in P. lia.
      + rewrite andb_false_r. reflexivity. }
  unfold spoken. rewrite (find_same _ _ _ Hph).
  destruct (find _ phrases) as [w|] eqn:F; [|reflexivity].
  apply find_some in F. destruct F as [Hw P].
  assert (Hne : w <> []).
  { pose proof (phrases_nonempty w Hw). destruct w; [cbn in *; lia|].
    discriminate. }
  pose proof (phrase_at_bound X w i Hne P) as B.
  assert (Hlt : i + length w < length X).
  { apply Hfit; auto. unfold phrase_at in P.
    apply andb_prop in P. destruct P as [P _].
    apply andb_prop in P. destruct P as [_ P]. exact P. }
  rewrite (skip_if_app1 is_mark X Y (i + length w) Hlt).
  destruct space; [|reflexivity]. f_equal.
  destruct (skip_if_le is_mark X (i + length w)) as [[L1 L2] _].
  destruct (Nat.eq_dec (skip_if is_mark X (i + length w)) (length X))
    as [E|Hne'].
  - rewrite E. unfold skip_if.
    replace (nth_error X (length X)) with (@None ascii)
      by (symmetry; apply nth_error_None; lia).
    rewrite nth_error_app2 by lia. rewrite Nat.sub_diag.
    destruct (nth_error Y 0) as [d|] eqn:N; [|reflexivity].
    rewrite (Hhead d eq_refl eq_refl). reflexivity.
  - apply skip_if_app1. lia.
Qed.

End Cut.

(** ** Closed texts *)

Lemma closed_cons (c : ascii) (o : str) :
  o <> [] ->
  word_at (c :: o) (length (c :: o) - 1) = word_at o (length o - 1).
Proof.
  intros H. destruct o as [|d o]; [contradiction|].
  cbn [length]. rewrite !Nat.sub_succ, !Nat.sub_0_r. reflexivity.
Qed.

Lemma closed_app (t o : str) :
  o <> [] ->
  word_at (t ++ o) (length (t ++ o) - 1) = word_at o (length o - 1).
Proof.
  intros H. induction t as [|c t IH]; [reflexivity|].
  cbn [app]. rewrite closed_cons; [exact IH|].
  destruct t; [exact H | discriminate].
Qed.

Lemma closed_last (s : str) (i : nat) (c : ascii) :
  nth_error s i = Some c -> length s <= S i ->
  word_at s (length s - 1) = is_word c.
Proof.
  intros N H.
  assert (i < length s) by (apply nth_error_Some; congruence).
  replace (length s - 1) with i by lia. unfold word_at. rewrite N.
  reflexivity.
Qed.

Section Rule.

Variable r : regex.
Variable text : str.
Variable phrases : list str.
Variable space : bool.

Hypothesis describes :
  forall s i, option_map pos (match_at true s r i) = spoken phrases space s i.
Hypothesis starts :
  forall w, In w phrases -> exists c u, w = c :: u /\ is_word c = true.
Hypothesis stops :
  forall w, In w phrases -> word_at w (length w - 1) = true.

Let sub := re_sub true r [Txt text].
Let rest := scan true r [Txt text].
Let inside := spoken_inside phrases space starts.

(** A text between two cuts that holds the start of no match. *)
Lemma three_way (p mid q : str) :
  word_at p (length p - 1) = false ->
  (forall d, space = true -> nth_error (mid ++ q) 0 = Some d ->
             is_blank d = false) ->
  (forall w i, In w phrases -> i < length p < i + length w ->
               phrase_at (p ++ mid ++ q) w i = false) ->
  (forall i, i < length mid -> spoken phrases space (mid ++ q) i = None) ->
  word_at mid (length mid - 1) = false \/ word_at q 0 = false
  \/ spoken phrases space q 0 = None ->
  sub (p ++ mid ++ q) = sub p ++ mid ++ sub q.
Proof.
  intros Hp Hhead Hastride Hmid Hq. unfold sub. rewrite !re_sub_scan.
  rewrite (scan_left true r text _ describes inside p (mid ++ q)
                     (spoken_left phrases space starts stops p (mid ++ q)
                                  Hp Hhead Hastride)
                     (length p) 0) by lia.
  f_equal.
  pose proof (scan_right true r text _ describes inside p (mid ++ q)
                         (spoken_right phrases space starts p (mid ++ q)
                                       (or_introl Hp))
                         (length (mid ++ q)) 0) as R1.
  rewrite Nat.add_0_r in R1. rewrite R1 by lia.
  rewrite (scan_run true r text _ describes (mid ++ q) (length mid))
    with (n := length mid) (a := 0);
    [| rewrite length_app; lia | lia | lia | intros i Hi; apply Hmid; lia].
  replace (slice (mid ++ q) 0 (length mid)) with mid.
  - f_equal.
    pose proof (scan_right true r text _ describes inside mid q
                           (spoken_right phrases space starts mid q Hq)
                           (length q) 0) as R2.
    rewrite Nat.add_0_r in R2. apply R2. lia.
  - unfold slice. cbn [skipn]. rewrite Nat.sub_0_r, firstn_app, firstn_all.
    rewrite Nat.sub_diag. cbn [firstn]. rewrite app_nil_r. reflexivity.
Qed.

(** A match between two cuts. *)
Lemma hit (p mid q : str) :
  word_at p (length p - 1) = false ->
  (forall d, space = true -> nth_error (mid ++ q) 0 = Some d ->
             is_blank d = false) ->
  (forall w i, In w phrases -> i < length p < i + length w ->
               phrase_at (p ++ mid ++ q) w i = false) ->
  spoken phrases space (mid ++ q) 0 = Some (length mid) ->
  word_at mid (length mid - 1) = false \/ word_at q 0 = false
  \/ spoken phrases space q 0 = None ->
  sub (p ++ mid ++ q) = sub p ++ text ++ sub q.
Proof.
  intros Hp Hhead Hastride Hmid Hq. unfold sub. rewrite !re_sub_scan.
  rewrite (scan_left true r text _ describes inside p (mid ++ q)
                     (spoken_left phrases space starts stops p (mid ++ q)
                                  Hp Hhead Hastride)
                     (length p) 0) by lia.
  f_equal.
  pose proof (scan_right true r text _ describes inside p (mid ++ q)
                         (spoken_right phrases space starts p (mid ++ q)
                                       (or_introl Hp))
                         (length (mid ++ q)) 0) as R1.
  rewrite Nat.add_0_r in R1. rewrite R1 by lia.
  rewrite (scan_match true r text _ describes inside (mid ++ q) 0
                      (length mid) Hmid).
  f_equal.
  pose proof (scan_right true r text _ describes inside mid q
                         (spoken_right phrases space starts mid q Hq)
                         (length q) 0) as R2.
  rewrite Nat.add_0_r in R2. apply R2. lia.
Qed.

(** What the scan returns ends as the text does, or as the replacement
    does. *)
Lemma rest_closed (s : str) :
  text <> [] ->
  word_at text (length text - 1) = false ->
  word_at s (length s - 1) = false ->
  forall n i,
    length s - i <= n ->
    (i < length s -> rest s i <> [])
    /\ word_at (rest s i) (length (rest s i) - 1) = false.
Proof.
  intros Hne Ht Hs. unfold rest.
  induction n as [|n IH]; intros i Hn.
  - split; [lia|].
    rewrite (scan_end true r text _ describes inside) by lia. reflexivity.
  - destruct (Nat.le_gt_cases (length s) i) as [Hge|Hlt].
    + split; [lia|].
      rewrite (scan_end true r text _ describes inside) by lia. reflexivity.
    + destruct (spoken phrases space s i) as [j|] eqn:E.
      * rewrite (scan_match true r text _ describes inside s i j E).
        pose proof (inside s i j E) as B.
        destruct (IH j) as [N C]; [lia|].
        split; [intros _ H; apply app_eq_nil in H; tauto|].
        destruct (scan true r [Txt text] s j) as [|c o] eqn:O.
        -- rewrite app_nil_r. exact Ht.
        -- rewrite closed_app by discriminate. exact C.
      * destruct (nth_error s i) as [c|] eqn:N;
          [|apply nth_error_None in N; lia].
        rewrite (scan_copy true r text _ describes s i c E N).
        destruct (IH (S i)) as [N' C]; [lia|].
        split; [discriminate|].
        destruct (scan true r [Txt text] s (S i)) as [|c' o] eqn:O.
        -- destruct (Nat.le_gt_cases (length s) (S i)) as [Hl|Hl].
           ++ cbn [length Nat.sub]. unfold word_at. cbn [nth_error].
              rewrite <- (closed_last s i c N Hl). exact Hs.
           ++ exfalso. apply N'; [exact Hl | reflexivity].
        -- rewrite closed_cons by discriminate. exact C.
Qed.

Lemma sub_closed (p : str) :
  text <> [] ->
  word_at text (length text - 1) = false ->
  word_at p (length p - 1) = false ->
  word_at (sub p) (length (sub p) - 1) = false.
Proof.
  intros Hne Ht Hp. unfold sub. rewrite re_sub_scan.
  apply (rest_closed p Hne Ht Hp (length p) 0). lia.
Qed.

(** The first character of what the scan returns. *)
Lemma sub_head (q : str) (t0 : ascii) (text' : str) :
  text = t0 :: text' ->
  match spoken phrases space q 0 with
  | None => nth_error (sub q) 0 = nth_error q 0
  | Some _ => word_at q 0 = true /\ nth_error (sub q) 0 = Some t0
  end.
Proof.
  intros T. unfold sub. rewrite re_sub_scan.
  destruct (spoken phrases space q 0) as [j|] eqn:E.
  - split.
    + apply spoken_inv in E. destruct E as (w & Hw & P & _).
      destruct (starts w Hw) as (c & u & Ew & Hc).
      apply (phrase_at_word q w c u 0 Ew Hc P).
    + rewrite (scan_match true r text _ describes inside q 0 j E).
      rewrite T. reflexivity.
  - destruct (nth_error q 0) as [c|] eqn:N.
    + rewrite (scan_copy true r text _ describes q 0 c E N).
      reflexivity.
    + rewrite (scan_end true r text _ describes inside).
      * reflexivity.
      * apply nth_error_None in N. lia.
Qed.

(** A stretch of the result that holds no character of the replacement
    is a stretch of the text. *)
Variable clean : ascii -> bool.
Hypothesis text_unclean : forall c, In c text -> clean c = false.
Hypothesis text_ne : text <> [].

Lemma rest_clean (s : str) :
  forall n i,
    length s - i <= n ->
    forallb clean (rest s i) = true -> rest s i = skipn i s.
Proof.
  unfold rest. induction n as [|n IH]; intros i Hn H.
  - rewrite (scan_end true r text _ describes inside) by lia.
    rewrite skipn_all2 by lia. reflexivity.
  - destruct (Nat.le_gt_cases (length s) i) as [Hge|Hlt].
    + rewrite (scan_end true r text _ describes inside) by lia.
      rewrite skipn_all2 by lia. reflexivity.
    + destruct (spoken phrases space s i) as [j|] eqn:E.
      * rewrite (scan_match true r text _ describes inside s i j E) in H.
        rewrite forallb_app in H. apply andb_prop in H. destruct H as [H _].
        destruct text as [|t0 t']; [contradiction|].
        cbn [forallb] in H. rewrite text_unclean in H by (left; reflexivity).
        discriminate.
      * destruct (nth_error s i) as [c|] eqn:N;
          [|apply nth_error_None in N; lia].
        rewrite (scan_copy true r text _ describes s i c E N) in *.
        cbn [forallb] in H. apply andb_prop in H. destruct H as [_ H].
        rewrite (IH (S i)) by (auto; lia).
        rewrite (skipn_nth_error s i), N. reflexivity.
Qed.

Lemma rest_suffix (s : str) :
  forall n i,
    length s - i <= n ->
    forall A U,
      rest s i = A ++ U -> forallb clean U = true ->
      exists B, skipn i s = B ++ U.
Proof.
  unfold rest. induction n as [|n IH]; intros i Hn A U HU C.
  - rewrite (scan_end true r text _ describes inside) in HU by lia.
    symmetry in HU. apply app_eq_nil in HU. destruct HU as [_ ->].
    exists (skipn i s). rewrite app_nil_r. reflexivity.
  - destruct (Nat.le_gt_cases (length s) i) as [Hge|Hlt].
    + rewrite (scan_end true r text _ describes inside) in HU by lia.
      symmetry in HU. apply app_eq_nil in HU. destruct HU as [_ ->].
      exists (skipn i s). rewrite app_nil_r. reflexivity.
    + destruct (spoken phrases space s i) as [j|] eqn:E.
      * rewrite (scan_match true r text _ describes inside s i j E) in HU.
        pose proof (inside s i j E) as Bj.
        symmetry in HU. apply app_eq_app in HU.
        destruct HU as (l & [[EA EU]|[ET EU]]).
        -- destruct (IH j ltac:(lia) l U EU C) as (B & HB).
           exists (slice s i j ++ B).
           rewrite <- app_assoc, <- HB. unfold slice.
           rewrite <- (firstn_skipn (j - i) (skipn i s)) at 1.
           rewrite skipn_skipn. replace (j - i + i) with j by lia.
           reflexivity.
        -- destruct l as [|x l].
           ++ cbn [app] in EU. subst U.
              destruct (IH j ltac:(lia) [] _ eq_refl C) as (B & HB).
              exists (slice s i j ++ B).
              rewrite <- app_assoc, <- HB. unfold slice.
              rewrite <- (firstn_skipn (j - i) (skipn i s)) at 1.
              rewrite skipn_skipn. replace (j - i + i) with j by lia.
              reflexivity.
           ++ exfalso. rewrite EU in C. cbn [app forallb] in C.
              rewrite text_unclean in C; [discriminate|].
              rewrite ET. apply in_or_app. right. left. reflexivity.
      * destruct (nth_error s i) as [c|] eqn:N;
          [|apply nth_error_None in N; lia].
        pose proof HU as HU'.
        rewrite (scan_copy true r text _ describes s i c E N) in HU.
        destruct A as [|a A].
        -- cbn [app] in HU'. exists []. cbn [app].
           rewrite <- (rest_clean s (S n) i Hn);
             [exact HU' | unfold rest; rewrite HU'; exact C].
        -- cbn [app] in HU. injection HU as <- HU.
           destruct (IH (S i) ltac:(lia) A U HU C) as (B & HB).
           exists (c :: B). rewrite (skipn_nth_error s i), N, HB.
           reflexivity.
Qed.

End Rule.

(** ** Phrases and what surrounds them *)

Lemma skip_if_cut (p : ascii -> bool) (M q : str) :
  skip_if p (M ++ q) (length M)
  = match nth_error q 0 with
    | Some d => if p d then S (length M) else length M
    | None => length M
    end.
Proof.
  unfold skip_if. rewrite nth_error_app2 by lia. rewrite Nat.sub_diag.
  reflexivity.
Qed.

Lemma find_unique {A : Type} (P : A -> bool) (l : list A) (w : A) :
  In w l -> P w = true -> (forall x, In x l -> P x = true -> x = w) ->
  find P l = Some w.
Proof.
  induction l as [|x l IH]; intros Hin Hw Hu; [contradiction|].
  cbn [find]. destruct (P x) eqn:Px.
  - f_equal. apply Hu; [left; reflexivity | exact Px].
  - destruct Hin as [->|Hin]; [congruence|].
    apply IH; auto. intros y Hy. apply Hu. right. exact Hy.
Qed.

Lemma prefix_lower (w t : str) :
  prefix_of true w t = true ->
  map lower (firstn (length w) t) = map lower w.
Proof.
  revert t. induction w as [|c w IH]; intros t H; [reflexivity|].
  destruct t as [|d t]; [discriminate|].
  cbn [prefix_of] in H. apply andb_prop in H. destruct H as [H1 H2].
  cbn [length firstn map]. rewrite (IH t H2). f_equal.
  cbn [eq_char] in H1. apply Ascii.eqb_eq in H1. auto.
Qed.

Lemma eq_char_same (c d z : ascii) :
  eq_char true z d = true -> eq_char true c d = eq_char true c z.
Proof.
  cbn [eq_char]. intros H. apply Ascii.eqb_eq in H. rewrite H. reflexivity.
Qed.

Lemma word_not_blank (d : ascii) : is_word d = true -> is_blank d = false.
Proof.
  intros H. destruct (is_blank d) eqn:B; [|reflexivity].
  rewrite (blank_not_word d B) in H. discriminate.
Qed.

Lemma clash_sound (w v R : str) (i : nat) :
  i < length v -> clash w v i = true -> phrase_at (v ++ R) w i = false.
Proof.
  intros Hi H. unfold clash in H. apply orb_prop in H. unfold phrase_at.
  destruct H as [H|H].
  - rewrite boundary_app1 by exact Hi.
    destruct (boundary v i); [discriminate | reflexivity].
  - apply existsb_exists in H. destruct H as (m & _ & H).
    destruct (nth_error w m) as [c|] eqn:Nw; [|discriminate].
    destruct (nth_error v (i + m)) as [d|] eqn:Nv; [|discriminate].
    destruct (prefix_of true w (skipn i (v ++ R))) eqn:P;
      [|rewrite andb_false_r; reflexivity].
    destruct (prefix_nth_ci _ _ m c P Nw) as (d' & Ed & Cd).
    rewrite nth_error_skipn in Ed.
    assert (i + m < length v) by (apply nth_error_Some; congruence).
    rewrite nth_error_app1, Nv in Ed by lia. injection Ed as <-.
    rewrite Cd in H. discriminate.
Qed.

Section Shape.

Variable phrases : list str.
Variable space : bool.

Hypothesis starts :
  forall w, In w phrases -> exists c u, w = c :: u /\ is_word c = true.
Hypothesis stops :
  forall w, In w phrases -> word_at w (length w - 1) = true.

(** What a match that covers [M] says of [M] and of what follows. *)
Lemma hit_shape (M q : str) :
  spoken phrases space (M ++ q) 0 = Some (length M) ->
  exists w,
    In w phrases /\ phrase_at (M ++ q) w 0 = true
    /\ 0 < length w <= length M
    /\ prefix_of true w M = true
    /\ gap (M ++ q) (length w) (length M)
    /\ word_at M 0 = true
    /\ (word_at M (length M - 1) = false \/ word_at q 0 = false).
Proof.
  intros H. apply spoken_inv in H.
  destruct H as (w & Hw & P & Hle & G). cbn [Nat.add] in Hle, G.
  pose proof (phrases_nonempty phrases starts w Hw) as Hlen.
  exists w. split; [exact Hw|]. split; [exact P|]. split; [lia|].
  destruct (starts w Hw) as (c & u & Ew & Hc).
  pose proof (phrase_at_word _ w c u 0 Ew Hc P) as W0.
  rewrite word_at_app1 in W0 by lia.
  unfold phrase_at in P. cbn [skipn Nat.add] in P.
  apply andb_prop in P. destruct P as [P Be].
  apply andb_prop in P. destruct P as [_ P].
  rewrite prefix_of_fit in P by exact Hle.
  split; [exact P|]. split; [exact G|]. split; [exact W0|].
  destruct (Nat.eq_dec (length w) (length M)) as [E|Hne].
  - right. rewrite E, boundary_cut in Be.
    assert (WL : word_at M (length M - 1) = true).
    { pose proof (stops w Hw) as S. unfold word_at in S.
      destruct (nth_error w (length w - 1)) as [x|] eqn:N; [|discriminate].
      destruct (prefix_nth_ci _ _ _ x P N) as (d & Ed & Cd).
      unfold word_at. rewrite <- E, Ed, (eq_char_word _ _ Cd). exact S. }
    rewrite WL in Be. destruct (word_at q 0); [discriminate | reflexivity].
  - left. rewrite <- (word_at_app1 M q) by lia. apply G. lia.
Qed.

Lemma hit_head (M q : str) :
  spoken phrases space (M ++ q) 0 = Some (length M) ->
  forall d, nth_error (M ++ q) 0 = Some d -> is_blank d = false.
Proof.
  intros H d N. destruct (hit_shape M q H) as (w & _ & _ & L & _ & _ & W & _).
  apply word_not_blank. unfold word_at in W.
  rewrite nth_error_app1 in N by lia. rewrite N in W. exact W.
Qed.

(** No two phrases begin the same text. *)
Hypothesis exclusive :
  forall x y t, In x phrases -> In y phrases ->
                prefix_of true x t = true -> prefix_of true y t = true ->
                x = y.

(** A match that covers [M] stays one when the text after it changes, as
    long as its first character stays, or was a word character and is no
    blank now. *)
Lemma spoken_head (M q q' : str) :
  spoken phrases space (M ++ q) 0 = Some (length M) ->
  nth_error q' 0 = nth_error q 0
  \/ (word_at q 0 = true
      /\ exists d, nth_error q' 0 = Some d /\ is_blank d = false) ->
  spoken phrases space (M ++ q') 0 = Some (length M).
Proof.
  intros H Hq.
  destruct (hit_shape M q H) as (w & Hw & P & L & Pf & _ & W0 & Hcut).
  assert (F : find (fun x => phrase_at (M ++ q) x 0) phrases = Some w).
  { apply find_unique; auto. intros x Hx Px.
    apply (exclusive x w (M ++ q)); auto.
    - unfold phrase_at in Px. apply andb_prop in Px. destruct Px as [Px _].
      apply andb_prop in Px. tauto.
    - unfold phrase_at in P. apply andb_prop in P. destruct P as [P _].
      apply andb_prop in P. tauto. }
  unfold spoken in H. rewrite F in H. cbn [Nat.add] in H.
  injection H as H.
  assert (B0 : boundary (M ++ q') 0 = true).
  { rewrite boundary_app1 by lia. unfold boundary. cbn [xorb].
    rewrite W0. reflexivity. }
  assert (Pf' : prefix_of true w (skipn 0 (M ++ q')) = true).
  { cbn [skipn]. rewrite prefix_of_fit by lia. exact Pf. }
  unfold phrase_at in P. cbn [Nat.add] in P.
  apply andb_prop in P. destruct P as [_ Be].
  assert (Hfind : boundary (M ++ q') (length w) = true ->
                  find (fun x => phrase_at (M ++ q') x 0) phrases = Some w).
  { intros Be'. apply find_unique; auto.
    - unfold phrase_at. cbn [Nat.add]. rewrite B0, Pf', Be'. reflexivity.
    - intros x Hx Px. apply (exclusive x w (M ++ q')); auto.
      unfold phrase_at in Px. apply andb_prop in Px.
      destruct Px as [Px _]. apply andb_prop in Px. tauto. }
  destruct (skip_if_le is_mark (M ++ q) (length w)) as [[L1 L2] _].
  destruct (skip_if_le is_blank (M ++ q) (skip_if is_mark (M ++ q) (length w)))
    as [[L3 L4] _].
  assert (Hj : skip_if is_mark (M ++ q) (length w) <= length M)
    by (destruct space; lia).
  destruct Hq as [Eq|(Wq & d & Ed & Bd)].
  - (* the same character follows *)
    assert (Hb : forall j, j <= length M ->
                           boundary (M ++ q') j = boundary (M ++ q) j).
    { intros j Hj'. destruct (Nat.eq_dec j (length M)) as [->|Hne].
      - rewrite !boundary_cut. unfold word_at at 2 4. rewrite Eq.
        reflexivity.
      - rewrite !boundary_app1 by lia. reflexivity. }
    assert (Hs : forall p j, j <= length M ->
                             skip_if p (M ++ q') j = skip_if p (M ++ q) j).
    { intros p j Hj'. destruct (Nat.eq_dec j (length M)) as [->|Hne].
      - rewrite !skip_if_cut, Eq. reflexivity.
      - rewrite !skip_if_app1 by lia. reflexivity. }
    unfold spoken. rewrite Hfind by (rewrite Hb by lia; exact Be).
    cbn [Nat.add]. rewrite (Hs is_mark) by lia.
    destruct space; [|rewrite H; reflexivity].
    rewrite (Hs is_blank) by exact Hj. rewrite H. reflexivity.
  - (* a word character followed, and no blank follows now *)
    assert (WL : word_at M (length M - 1) = false)
      by (destruct Hcut; congruence).
    assert (Hlt : length w < length M).
    { destruct (Nat.eq_dec (length w) (length M)) as [E|]; [|lia].
      exfalso. pose proof (stops w Hw) as S. unfold word_at in S.
      destruct (nth_error w (length w - 1)) as [x|] eqn:N; [|discriminate].
      destruct (prefix_nth_ci _ _ _ x Pf N) as (y & Ey & Cy).
      unfold word_at in WL. rewrite <- E, Ey, (eq_char_word _ _ Cy) in WL.
      congruence. }
    unfold spoken.
    rewrite Hfind
      by (rewrite boundary_app1 by exact Hlt;
          rewrite boundary_app1 in Be by exact Hlt; exact Be).
    cbn [Nat.add]. f_equal.
    rewrite (skip_if_app1 is_mark M q (length w) Hlt) in H, Hj.
    rewrite (skip_if_app1 is_mark M q' (length w) Hlt).
    destruct space; [|exact H].
    destruct (Nat.eq_dec (skip_if is_mark M (length w)) (length M))
      as [E|Hne'].
    + rewrite E. rewrite skip_if_cut, Ed, Bd. reflexivity.
    + rewrite skip_if_app1 in * by lia. exact H.
Qed.

End Shape.

Section Across.

Variable phrases : list str.

(** No phrase runs across a cut that has no word character before it and
    a character after it that continues no phrase. *)
Lemma no_straddle (X Z : str) (d : ascii) :
  word_at X (length X - 1) = false ->
  nth_error Z 0 = Some d ->
  joint phrases d = false ->
  forall w i, In w phrases -> i < length X < i + length w ->
              phrase_at (X ++ Z) w i = false.
Proof.
  intros Hclosed Hd Hj w i Hw Hi.
  destruct (phrase_at (X ++ Z) w i) eqn:P; [|reflexivity]. exfalso.
  unfold phrase_at in P. apply andb_prop in P. destruct P as [P _].
  apply andb_prop in P. destruct P as [_ P].
  set (m := length X - 1 - i).
  destruct (nth_error w m) as [c|] eqn:N1;
    [|apply nth_error_None in N1; lia].
  destruct (nth_error w (S m)) as [c'|] eqn:N2;
    [|apply nth_error_None in N2; lia].
  destruct (prefix_nth_ci _ _ m c P N1) as (x & Ex & Cx).
  destruct (prefix_nth_ci _ _ (S m) c' P N2) as (y & Ey & Cy).
  rewrite nth_error_skipn in Ex, Ey.
  replace (i + m) with (length X - 1) in Ex by lia.
  replace (i + S m) with (length X) in Ey by lia.
  rewrite nth_error_app1 in Ex by lia.
  rewrite nth_error_app2, Nat.sub_diag, Hd in Ey by lia.
  injection Ey as <-.
  unfold word_at in Hclosed. rewrite Ex in Hclosed.
  rewrite (eq_char_word _ _ Cx) in Hclosed.
  assert (J : joint phrases d = true).
  { unfold joint. apply existsb_exists. exists w. split; [exact Hw|].
    apply existsb_exists. exists m. split; [apply in_seq; lia|].
    rewrite N1, N2, Hclosed, Cy. reflexivity. }
  congruence.
Qed.

Lemma joint_same (d z : ascii) :
  eq_char true z d = true -> joint phrases d = joint phrases z.
Proof.
  intros H. unfold joint.
  induction phrases as [|w ws IH]; [reflexivity|]. cbn [existsb].
  rewrite IH. f_equal.
  induction (seq 0 (length w)) as [|m ms IHm]; [reflexivity|].
  cbn [existsb]. rewrite IHm. f_equal.
  destruct (nth_error w m); [|reflexivity].
  destruct (nth_error w (S m)); [|reflexivity].
  rewrite (eq_char_same _ d z H). reflexivity.
Qed.

Variable space : bool.
Hypothesis starts :
  forall w, In w phrases -> exists c u, w = c :: u /\ is_word c = true.

(** No match starts in a text without word characters. *)
Lemma none_in_text (mid q : str) :
  forallb (fun c => negb (is_word c)) mid = true ->
  forall i, i < length mid -> spoken phrases space (mid ++ q) i = None.
Proof.
  intros H i Hi. apply spoken_none. intros w Hw.
  destruct (starts w Hw) as (c & u & Ew & Hc).
  apply (phrase_at_no_word _ w c u i Ew Hc).
  rewrite word_at_app1 by exact Hi. unfold word_at.
  destruct (nth_error mid i) as [x|] eqn:N; [|reflexivity].
  rewrite forallb_forall in H. apply nth_error_In in N. apply H in N.
  destruct (is_word x); [discriminate | reflexivity].
Qed.

(** No match starts inside the match of another rule whose phrases are
    clear of the phrases of this one. *)
Lemma none_in_match (others : list str) (space' : bool) (M q : str) :
  (forall w, In w others -> exists c u, w = c :: u /\ is_word c = true) ->
  (forall w, In w others -> word_at w (length w - 1) = true) ->
  (forall w, In w others -> map lower w = w) ->
  (forall w, In w others -> clear_of phrases w = true) ->
  spoken others space' (M ++ q) 0 = Some (length M) ->
  forall i, i < length M -> spoken phrases space (M ++ q) i = None.
Proof.
  intros Hst Hsp Hlow Hclear H i Hi.
  destruct (hit_shape others space' Hst Hsp M q H)
    as (w & Hw & _ & L & Pf & G & _ & _).
  destruct (Nat.le_gt_cases (length w) i) as [Hge|Hlt].
  - apply spoken_none. intros x Hx.
    destruct (starts x Hx) as (c & u & Ex & Hc).
    apply (phrase_at_no_word _ x c u i Ex Hc). apply G. lia.
  - rewrite <- spoken_lower. apply spoken_none. intros x Hx.
    assert (E : map lower (M ++ q)
                = w ++ map lower (skipn (length w) M ++ q)).
    { rewrite <- (firstn_skipn (length w) M) at 1.
      rewrite <- app_assoc, map_app, (prefix_lower w M Pf), (Hlow w Hw).
      reflexivity. }
    rewrite E. apply clash_sound; [exact Hlt|].
    pose proof (Hclear w Hw) as C. unfold clear_of in C.
    rewrite forallb_forall in C.
    assert (Hin : In i (seq 0 (length w))) by (apply in_seq; lia).
    apply C in Hin. rewrite forallb_forall in Hin. apply Hin, Hx.
Qed.

End Across.

(** ** One rule of the phase after the other *)

Lemma inert_closed (text : str) :
  inert text = true ->
  text <> [] /\ word_at text (length text - 1) = false
  /\ forallb (fun c => negb (is_word c)) text = true
  /\ exists t0 t', text = t0 :: t' /\ is_blank t0 = false.
Proof.
  unfold inert. intros H. apply andb_prop in H. destruct H as [H1 H2].
  destruct text as [|t0 t']; [discriminate|].
  split; [discriminate|]. split; [|split; [exact H1|]].
  - unfold word_at.
    destruct (nth_error (t0 :: t') (length (t0 :: t') - 1)) as [c|] eqn:N;
      [|reflexivity].
    rewrite forallb_forall in H1. apply nth_error_In in N. apply H1 in N.
    destruct (is_word c); [discriminate | reflexivity].
  - exists t0, t'. split; [reflexivity|].
    destruct (is_blank t0); [discriminate | reflexivity].
Qed.

Lemma match_in_context (phrases : list str) (space : bool) (p M q : str) :
  (forall w, In w phrases -> exists c u, w = c :: u /\ is_word c = true) ->
  spoken phrases space (p ++ M ++ q) (length p) = Some (length p + length M) ->
  word_at p (length p - 1) = false
  /\ spoken phrases space (M ++ q) 0 = Some (length M).
Proof.
  intros Hst H.
  assert (Hp : word_at p (length p - 1) = false).
  { pose proof H as H'. apply spoken_inv in H'.
    destruct H' as (w & Hw & P & _).
    destruct (Hst w Hw) as (c & u & Ew & Hc).
    pose proof (phrase_at_word _ w c u _ Ew Hc P) as W.
    unfold phrase_at in P. apply andb_prop in P. destruct P as [P _].
    apply andb_prop in P. destruct P as [B _].
    rewrite boundary_cut in B.
    rewrite <- (Nat.add_0_r (length p)), word_at_app2 in W.
    rewrite W in B. destruct (word_at p (length p - 1));
      [discriminate | reflexivity]. }
  split; [exact Hp|].
  pose proof (spoken_right phrases space Hst p (M ++ q) (or_introl Hp) 0)
    as R. rewrite Nat.add_0_r, H in R.
  destruct (spoken phrases space (M ++ q) 0) as [j|]; [|discriminate].
  cbn [option_map] in R. injection R as R. f_equal. lia.
Qed.

Section Steps.

(** The rule that is applied. *)
Variable r : regex.
Variable text : str.
Variable phrases : list str.
Variable space : bool.
Hypothesis rule : described r phrases space.
Hypothesis text_inert : inert text = true.

Let sub := re_sub true r [Txt text].

Lemma step_closed (p : str) :
  word_at p (length p - 1) = false ->
  word_at (sub p) (length (sub p) - 1) = false.
Proof.
  destruct rule as (D & St & Sp & _).
  destruct (inert_closed text text_inert) as (Hne & Hc & _).
  apply (sub_closed r text phrases space D St p Hne Hc).
Qed.

(** The text after a match of another rule keeps its first character, or
    has a word character replaced by the first character of [text]. *)
Lemma step_head (q : str) :
  nth_error (sub q) 0 = nth_error q 0
  \/ (word_at q 0 = true
      /\ exists d, nth_error (sub q) 0 = Some d /\ is_blank d = false).
Proof.
  destruct rule as (D & St & Sp & _).
  destruct (inert_closed text text_inert) as (_ & _ & _ & t0 & t' & T & B).
  pose proof (sub_head r text phrases space D St q t0 t' T) as H.
  fold sub in H.
  destruct (spoken phrases space q 0); [|left; exact H].
  right. destruct H as [W N]. split; [exact W|]. exists t0. auto.
Qed.

(** The rule is applied to a text in which another rule has a match. *)
Lemma step_before (others : list str) (space' : bool) (r' : regex)
      (p M q : str) :
  described r' others space' ->
  (forall w, In w others -> clear_of phrases w = true) ->
  (forall w i, In w phrases -> i < length p < i + length w ->
               phrase_at (p ++ M ++ q) w i = false) ->
  word_at p (length p - 1) = false ->
  spoken others space' (M ++ q) 0 = Some (length M) ->
  sub (p ++ M ++ q) = sub p ++ M ++ sub q
  /\ word_at (sub p) (length (sub p) - 1) = false
  /\ spoken others space' (M ++ sub q) 0 = Some (length M).
Proof.
  intros (D' & St' & Sp' & Lo' & Ex') Hclear Hastride Hp Hm.
  pose proof rule as (D & St & Sp & _).
  split; [|split].
  - apply (three_way r text phrases space D St Sp p M q Hp).
    + intros d _. apply (hit_head others space' St' Sp' M q Hm).
    + exact Hastride.
    + apply (none_in_match phrases space St others space' M q
                           St' Sp' Lo' Hclear Hm).
    + destruct (hit_shape others space' St' Sp' M q Hm)
        as (_ & _ & _ & _ & _ & _ & _ & [H|H]); auto.
  - apply step_closed, Hp.
  - apply (spoken_head others space' St' Sp' Ex' M q (sub q) Hm).
    apply step_head.
Qed.

(** The rule is applied to a text that holds the replacement of another
    rule. *)
Lemma step_after (mid p q : str) :
  inert mid = true ->
  (forall d, nth_error mid 0 = Some d -> joint phrases d = false) ->
  word_at p (length p - 1) = false ->
  sub (p ++ mid ++ q) = sub p ++ mid ++ sub q
  /\ word_at (sub p) (length (sub p) - 1) = false.
Proof.
  intros Hmid Hj Hp. pose proof rule as (D & St & Sp & _).
  destruct (inert_closed mid Hmid) as (Hne & Hc & Hw & m0 & m' & E & B).
  split; [|apply step_closed, Hp].
  apply (three_way r text phrases space D St Sp p mid q Hp).
  - intros d _ N. rewrite E in N. cbn in N. injection N as <-. exact B.
  - apply (no_straddle phrases p (mid ++ q) m0 Hp).
    + rewrite E. reflexivity.
    + apply Hj. rewrite E. reflexivity.
  - apply (none_in_text phrases space St mid q Hw).
  - left. exact Hc.
Qed.

(** The rule is applied to a text in which it has a match itself. *)
Lemma step_hit (p M q : str) :
  (forall w z, In w phrases -> nth_error w 0 = Some z ->
               joint phrases z = false) ->
  word_at p (length p - 1) = false ->
  spoken phrases space (M ++ q) 0 = Some (length M) ->
  sub (p ++ M ++ q) = sub p ++ text ++ sub q
  /\ word_at (sub p) (length (sub p) - 1) = false.
Proof.
  intros Hj Hp Hm. pose proof rule as (D & St & Sp & _).
  split; [|apply step_closed, Hp].
  destruct (hit_shape phrases space St Sp M q Hm)
    as (w & Hw & _ & L & Pf & _ & _ & Hcut).
  apply (hit r text phrases space D St Sp p M q Hp).
  - intros d _. apply (hit_head phrases space St Sp M q Hm).
  - destruct (St w Hw) as (c & u & Ew & Hc).
    assert (N : nth_error w 0 = Some c) by (rewrite Ew; reflexivity).
    destruct (prefix_nth_ci _ _ 0 c Pf N) as (d & Ed & Cd).
    apply (no_straddle phrases p (M ++ q) d Hp).
    + rewrite nth_error_app1 by lia. exact Ed.
    + rewrite (joint_same phrases d c Cd). apply (Hj w c Hw N).
  - exact Hm.
  - destruct Hcut; auto.
Qed.

End Steps.

(** A phrase of another rule begins with a character that continues no
    phrase of this one. *)
Lemma before_no_straddle (phrases others : list str) (space' : bool)
      (p M q : str) :
  (forall w, In w others -> exists c u, w = c :: u /\ is_word c = true) ->
  (forall w, In w others -> word_at w (length w - 1) = true) ->
  (forall w z, In w others -> nth_error w 0 = Some z ->
               joint phrases z = false) ->
  word_at p (length p - 1) = false ->
  spoken others space' (M ++ q) 0 = Some (length M) ->
  forall w i, In w phrases -> i < length p < i + length w ->
              phrase_at (p ++ M ++ q) w i = false.
Proof.
  intros St Sp Hj Hp Hm.
  destruct (hit_shape others space' St Sp M q Hm)
    as (w & Hw & _ & L & Pf & _).
  destruct (St w Hw) as (c & u & Ew & Hc).
  assert (N : nth_error w 0 = Some c) by (rewrite Ew; reflexivity).
  destruct (prefix_nth_ci _ _ 0 c Pf N) as (d & Ed & Cd).
  apply (no_straddle phrases p (M ++ q) d Hp).
  - rewrite nth_error_app1 by lia. exact Ed.
  - rewrite (joint_same phrases d c Cd). apply (Hj w c Hw N).
Qed.

(** ** The four rules of the literal-substitute phase *)

Lemma exclusive_one (u : str) :
  forall x y (t : str), In x [u] -> In y [u] ->
                        prefix_of true x t = true ->
                        prefix_of true y t = true -> x = y.
Proof. intros x y t [<-|[]] [<-|[]] _ _. reflexivity. Qed.

Lemma exclusive_two (u : str) (x y t : str) :
  In x [u ++ L " line"; u ++ L "line"] ->
  In y [u ++ L " line"; u ++ L "line"] ->
  prefix_of true x t = true -> prefix_of true y t = true -> x = y.
Proof.
  assert (N : forall t, prefix_of true (u ++ L " line") t = true ->
                        prefix_of true (u ++ L "line") t = true -> False).
  { intros t' H1 H2. rewrite prefix_of_app in H1, H2.
    apply andb_prop in H1, H2. destruct H1 as [_ H1], H2 as [_ H2].
    destruct (skipn (length u) t') as [|d l]; [discriminate|].
    cbn [L list_ascii_of_string prefix_of] in H1, H2.
    apply andb_prop in H1, H2. destruct H1 as [H1 _], H2 as [H2 _].
    cbn [eq_char] in H1, H2. apply Ascii.eqb_eq in H1, H2.
    rewrite <- H2 in H1. discriminate. }
  intros [<-|[<-|[]]] [<-|[<-|[]]] H1 H2; try reflexivity; exfalso;
    eauto.
Qed.

Lemma described_new_line :
  described (Bnd +++ word "new" +++ Opt sp +++ word "line" +++ Bnd +++ trail)
            [L "new line"; L "newline"] true.
Proof.
  split; [|split; [|split; [|split]]].
  - intros s i. apply match_new_line.
  - intros w [<-|[<-|[]]]; eexists _, _; split; reflexivity.
  - intros w [<-|[<-|[]]]; reflexivity.
  - intros w [<-|[<-|[]]]; reflexivity.
  - intros x y t. apply (exclusive_two (L "new")).
Qed.

Lemma described_inverted_comma :
  described (Bnd +++ word "inverted comma" +++ Bnd +++ Opt punct3)
            [L "inverted comma"] false.
Proof.
  split; [|split; [|split; [|split]]].
  - intros s i. unfold word. apply match_phrase_mark. discriminate.
  - intros w [<-|[]]; eexists _, _; split; reflexivity.
  - intros w [<-|[]]; reflexivity.
  - intros w [<-|[]]; reflexivity.
  - apply exclusive_one.
Qed.

Lemma described_word (u : string) :
  (exists c v, L u = c :: v /\ is_word c = true) ->
  word_at (L u) (length (L u) - 1) = true ->
  map lower (L u) = L u ->
  described (Bnd +++ word u +++ Bnd +++ trail) [L u] true.
Proof.
  intros H1 H2 H3. split; [|split; [|split; [|split]]].
  - intros s i. unfold word. apply match_phrase.
    destruct H1 as (c & v & -> & _). discriminate.
  - intros w [<-|[]]. exact H1.
  - intros w [<-|[]]. exact H2.
  - intros w [<-|[]]. exact H3.
  - apply exclusive_one.
Qed.

Lemma described_comma :
  described (Bnd +++ word "comma" +++ Bnd +++ trail) [L "comma"] true.
Proof.
  apply described_word; [eexists _, _; split|..]; reflexivity.
Qed.

Lemma described_full_stop :
  described (Bnd +++ word "full stop" +++ Bnd +++ trail) [L "full stop"] true.
Proof.
  apply described_word; [eexists _, _; split|..]; reflexivity.
Qed.

(** ** A comma after "inverted" *)

Lemma prefix_forall (P : ascii -> bool) (w U : str) :
  prefix_of true w U = true -> length U <= length w ->
  (forall c d, In c w -> eq_char true c d = true -> P d = true) ->
  forallb P U = true.
Proof.
  revert U. induction w as [|c w IH]; intros U H L HP.
  - destruct U; [reflexivity | cbn in L; lia].
  - destruct U as [|d U]; [reflexivity|].
    cbn [prefix_of] in H. apply andb_prop in H. destruct H as [H1 H2].
    cbn [forallb]. rewrite (HP c d) by (auto; left; reflexivity).
    apply IH; [exact H2 | cbn in L; lia |].
    intros c' d' Hc. apply HP. right. exact Hc.
Qed.

Lemma ends_ci_spec (u t : str) :
  ends_ci u t = true
  <-> exists A U, t = A ++ U /\ length U = length u
                  /\ prefix_of true u U = true.
Proof.
  unfold ends_ci. split.
  - intros H. apply andb_prop in H. destruct H as [H1 H2].
    apply Nat.leb_le in H1.
    exists (firstn (length t - length u) t), (skipn (length t - length u) t).
    split; [symmetry; apply firstn_skipn|].
    split; [rewrite length_skipn; lia | exact H2].
  - intros (A & U & -> & HL & HP). rewrite length_app.
    replace (length A + length U - length u) with (length A) by lia.
    rewrite skipn_app, skipn_all, Nat.sub_diag. cbn [skipn app].
    rewrite HP, andb_true_r. apply Nat.leb_le. lia.
Qed.

(** The first rule brings no "inverted " to the end of a text. *)
Lemma new_line_keeps_end (r : regex) (p : str) :
  described r [L "new line"; L "newline"] true ->
  ends_ci (L "inverted ") p = false ->
  ends_ci (L "inverted ") (re_sub true r [Txt [newline]] p) = false.
Proof.
  intros (D & St & _) H.
  destruct (ends_ci (L "inverted ") (re_sub _ _ _ p)) eqn:E; [|reflexivity].
  rewrite <- H. symmetry. apply ends_ci_spec in E.
  destruct E as (A & U & EA & HL & HP). apply ends_ci_spec.
  set (clean := fun c => negb (Ascii.eqb c newline)).
  assert (C : forallb clean U = true).
  { apply (prefix_forall clean (L "inverted ") U HP); [lia|].
    intros c d Hc Hd. unfold clean.
    destruct (Ascii.eqb d newline) eqn:N; [|reflexivity].
    apply Ascii.eqb_eq in N. subst d. exfalso.
    cbn [L list_ascii_of_string In] in Hc.
    repeat (destruct Hc as [<-|Hc]; [discriminate Hd|]). exact Hc. }
  rewrite re_sub_scan in EA.
  destruct (rest_suffix _ [newline] _ _ D St clean) with
    (s := p) (n := length p) (i := 0) (A := A) (U := U) as (B & HB).
  - intros c [<-|[]]. reflexivity.
  - discriminate.
  - lia.
  - exact EA.
  - exact C.
  - exists B, U. cbn [skipn] in HB. auto.
Qed.

(** No "inverted comma" runs across a cut that does not follow
    "inverted ". *)
Lemma inverted_no_straddle (p Z : str) :
  word_at p (length p - 1) = false ->
  ends_ci (L "inverted ") p = false ->
  forall w i, In w [L "inverted comma"] -> i < length p < i + length w ->
              phrase_at (p ++ Z) w i = false.
Proof.
  intros Hp He w i [<-|[]] Hi.
  destruct (phrase_at (p ++ Z) (L "inverted comma") i) eqn:P; [|reflexivity].
  exfalso. unfold phrase_at in P. apply andb_prop in P.
  destruct P as [P _]. apply andb_prop in P. destruct P as [_ P].
  change (length (L "inverted comma")) with 14 in Hi.
  set (m := length p - 1 - i).
  assert (Hm : m < 13) by lia.
  destruct (nth_error (L "inverted comma") m) as [c|] eqn:N;
    [|apply nth_error_None in N; cbn in N; lia].
  destruct (prefix_nth_ci _ _ m c P N) as (x & Ex & Cx).
  rewrite nth_error_skipn in Ex.
  replace (i + m) with (length p - 1) in Ex by lia.
  rewrite nth_error_app1 in Ex by lia.
  unfold word_at in Hp. rewrite Ex, (eq_char_word _ _ Cx) in Hp.
  assert (E8 : m = 8).
  { do 13 (destruct m as [|m];
           [cbn in N; injection N as <-; try reflexivity; discriminate Hp|]).
    lia. }
  assert (Ei : i = length p - 9) by lia.
  enough (T : ends_ci (L "inverted ") p = true) by congruence.
  apply ends_ci_spec.
  exists (firstn i p), (skipn i p).
  split; [symmetry; apply firstn_skipn|].
  split; [rewrite length_skipn; cbn; lia|].
  change (L "inverted comma") with (L "inverted " ++ L "comma") in P.
  rewrite prefix_of_app in P. apply andb_prop in P. destruct P as [P _].
  rewrite skipn_app1 in P by lia.
  rewrite prefix_of_fit in P by (rewrite length_skipn; cbn; lia).
  exact P.
Qed.

(** ** The phase on a text that holds a spoken word *)

Ltac first_letter :=
  let w := fresh "w" in let z := fresh "z" in
  let Hw := fresh "Hw" in let N := fresh "N" in
  intros w z Hw N; cbn [In] in Hw;
  repeat (destruct Hw as [<-|Hw]; [injection N as <-; reflexivity|]);
  contradiction.

Ltac first_of_text :=
  let d := fresh "d" in let N := fresh "N" in
  intros d N; injection N as <-; reflexivity.

Ltac all_clear :=
  let w := fresh "w" in let Hw := fresh "Hw" in
  intros w Hw; cbn [In] in Hw;
  repeat (destruct Hw as [<-|Hw]; [vm_compute; reflexivity|]);
  contradiction.

Section Phase.

Variables r1 r2 r3 r4 : regex.
Hypothesis D1 : described r1 [L "new line"; L "newline"] true.
Hypothesis D2 : described r2 [L "inverted comma"] false.
Hypothesis D3 : described r3 [L "comma"] true.
Hypothesis D4 : described r4 [L "full stop"] true.

Let sub1 := re_sub true r1 [Txt [newline]].
Let sub2 := re_sub true r2 [Txt [dquote]].
Let sub3 := re_sub true r3 [Txt (L ", ")].
Let sub4 := re_sub true r4 [Txt (L ". ")].

Lemma new_line_replaced (p M q : str) :
  word_at p (length p - 1) = false ->
  spoken [L "new line"; L "newline"] true (M ++ q) 0 = Some (length M) ->
  sub4 (sub3 (sub2 (sub1 (p ++ M ++ q))))
  = sub4 (sub3 (sub2 (sub1 p))) ++ [newline] ++ sub4 (sub3 (sub2 (sub1 q))).
Proof.
  intros Hp Hm.
  destruct (step_hit r1 [newline] _ _ D1 eq_refl p M q) as [E1 C1];
    [first_letter | exact Hp | exact Hm |].
  destruct (step_after r2 [dquote] _ _ D2 eq_refl [newline]
                       (sub1 p) (sub1 q)) as [E2 C2];
    [reflexivity | first_of_text | exact C1 |].
  destruct (step_after r3 (L ", ") _ _ D3 eq_refl [newline]
                       (sub2 (sub1 p)) (sub2 (sub1 q))) as [E3 C3];
    [reflexivity | first_of_text | exact C2 |].
  destruct (step_after r4 (L ". ") _ _ D4 eq_refl [newline]
                       (sub3 (sub2 (sub1 p))) (sub3 (sub2 (sub1 q))))
    as [E4 C4]; [reflexivity | first_of_text | exact C3 |].
  unfold sub1 at 1. rewrite E1. fold sub1.
  unfold sub2 at 1. rewrite E2. fold sub2.
  unfold sub3 at 1. rewrite E3. fold sub3.
  unfold sub4 at 1. rewrite E4. reflexivity.
Qed.

Lemma inverted_comma_replaced (p M q : str) :
  word_at p (length p - 1) = false ->
  spoken [L "inverted comma"] false (M ++ q) 0 = Some (length M) ->
  sub4 (sub3 (sub2 (sub1 (p ++ M ++ q))))
  = sub4 (sub3 (sub2 (sub1 p))) ++ [dquote] ++ sub4 (sub3 (sub2 (sub1 q))).
Proof.
  intros Hp Hm. pose proof D2 as (_ & St2 & Sp2 & _).
  destruct (step_before r1 [newline] _ _ D1 eq_refl _ _ r2 p M q D2)
    as (E1 & C1 & M1);
    [all_clear
    | apply (before_no_straddle _ _ false p M q St2 Sp2);
      [first_letter | exact Hp | exact Hm]
    | exact Hp | exact Hm |].
  destruct (step_hit r2 [dquote] _ _ D2 eq_refl (sub1 p) M (sub1 q))
    as [E2 C2]; [first_letter | exact C1 | exact M1 |].
  destruct (step_after r3 (L ", ") _ _ D3 eq_refl [dquote]
                       (sub2 (sub1 p)) (sub2 (sub1 q))) as [E3 C3];
    [reflexivity | first_of_text | exact C2 |].
  destruct (step_after r4 (L ". ") _ _ D4 eq_refl [dquote]
                       (sub3 (sub2 (sub1 p))) (sub3 (sub2 (sub1 q))))
    as [E4 C4]; [reflexivity | first_of_text | exact C3 |].
  unfold sub1 at 1. rewrite E1. fold sub1.
  unfold sub2 at 1. rewrite E2. fold sub2.
  unfold sub3 at 1. rewrite E3. fold sub3.
  unfold sub4 at 1. rewrite E4. reflexivity.
Qed.

Lemma comma_replaced (p M q : str) :
  word_at p (length p - 1) = false ->
  ends_ci (L "inverted ") p = false ->
  spoken [L "comma"] true (M ++ q) 0 = Some (length M) ->
  sub4 (sub3 (sub2 (sub1 (p ++ M ++ q))))
  = sub4 (sub3 (sub2 (sub1 p))) ++ L ", " ++ sub4 (sub3 (sub2 (sub1 q))).
Proof.
  intros Hp He Hm. pose proof D3 as (_ & St3 & Sp3 & _).
  destruct (step_before r1 [newline] _ _ D1 eq_refl _ _ r3 p M q D3)
    as (E1 & C1 & M1);
    [all_clear
    | apply (before_no_straddle _ _ true p M q St3 Sp3);
      [first_letter | exact Hp | exact Hm]
    | exact Hp | exact Hm |].
  destruct (step_before r2 [dquote] _ _ D2 eq_refl _ _ r3
                        (sub1 p) M (sub1 q) D3)
    as (E2 & C2 & M2);
    [all_clear
    | apply (inverted_no_straddle (sub1 p) (M ++ sub1 q) C1);
      apply (new_line_keeps_end r1 p D1 He)
    | exact C1 | exact M1 |].
  destruct (step_hit r3 (L ", ") _ _ D3 eq_refl
                     (sub2 (sub1 p)) M (sub2 (sub1 q)))
    as [E3 C3]; [first_letter | exact C2 | exact M2 |].
  destruct (step_after r4 (L ". ") _ _ D4 eq_refl (L ", ")
                       (sub3 (sub2 (sub1 p))) (sub3 (sub2 (sub1 q))))
    as [E4 C4]; [reflexivity | first_of_text | exact C3 |].
  unfold sub1 at 1. rewrite E1. fold sub1.
  unfold sub2 at 1. rewrite E2. fold sub2.
  unfold sub3 at 1. rewrite E3. fold sub3.
  unfold sub4 at 1. rewrite E4. reflexivity.
Qed.

Lemma full_stop_replaced (p M q : str) :
  word_at p (length p - 1) = false ->
  spoken [L "full stop"] true (M ++ q) 0 = Some (length M) ->
  sub4 (sub3 (sub2 (sub1 (p ++ M ++ q))))
  = sub4 (sub3 (sub2 (sub1 p))) ++ L ". " ++ sub4 (sub3 (sub2 (sub1 q))).
Proof.
  intros Hp Hm. pose proof D4 as (_ & St4 & Sp4 & _).
  destruct (step_before r1 [newline] _ _ D1 eq_refl _ _ r4 p M q D4)
    as (E1 & C1 & M1);
    [all_clear
    | apply (before_no_straddle _ _ true p M q St4 Sp4);
      [first_letter | exact Hp | exact Hm]
    | exact Hp | exact Hm |].
  destruct (step_before r2 [dquote] _ _ D2 eq_refl _ _ r4
                        (sub1 p) M (sub1 q) D4)
    as (E2 & C2 & M2);
    [all_clear
    | apply (before_no_straddle _ _ true (sub1 p) M (sub1 q) St4 Sp4);
      [first_letter | exact C1 | exact M1]
    | exact C1 | exact M1 |].
  destruct (step_before r3 (L ", ") _ _ D3 eq_refl _ _ r4
                        (sub2 (sub1 p)) M (sub2 (sub1 q)) D4)
    as (E3 & C3 & M3);
    [all_clear
    | apply (before_no_straddle _ _ true (sub2 (sub1 p)) M (sub2 (sub1 q))
                                St4 Sp4);
      [first_letter | exact C2 | exact M2]
    | exact C2 | exact M2 |].
  destruct (step_hit r4 (L ". ") _ _ D4 eq_refl
                     (sub3 (sub2 (sub1 p))) M (sub3 (sub2 (sub1 q))))
    as [E4 C4]; [first_letter | exact C3 | exact M3 |].
  unfold sub1 at 1. rewrite E1. fold sub1.
  unfold sub2 at 1. rewrite E2. fold sub2.
  unfold sub3 at 1. rewrite E3. fold sub3.
  unfold sub4 at 1. rewrite E4. reflexivity.
Qed.

End Phase.

(** A match of one rule that covers [M] right after [pre]: no word
    character ends [pre], and the match covers [M] taken with what follows
    alone. *)
Lemma spoken_in_context (phrases : list str) (space : bool) (r : regex)
      (pre M post : str) :
  described r phrases space ->
  spoken phrases space (pre ++ M ++ post) (length pre)
  = Some (length pre + length M) ->
  word_at pre (length pre - 1) = false
  /\ spoken phrases space (M ++ post) 0 = Some (length M).
Proof.
  intros (_ & St & _). apply match_in_context, St.
Qed.

(** C5, as the program behaves: each of the four patterns matches its
    spoken word in any case between two word boundaries ("new line" also
    written as one word) and takes at most one following mark , . ? with it;
    the patterns of "new line", "comma" and "full stop" take at most one
    following space as well, the pattern of "inverted comma" takes none.
    Wherever such a match stands in a text, the phase writes a line break for
    "new line", a quote character for "inverted comma", ", " for a "comma"
    that does not follow "inverted " and ". " for "full stop" in its place,
    and rewrites the text before it and the text after it each on its own. *)
Theorem spoken_words_replaced :
  (forall s i,
      map (fun '(pattern, replacement) =>
             (option_map pos (match_at true s pattern i), replacement))
          REPLACEMENTS
      = [ (spoken [L "new line"; L "newline"] true s i, [Txt [newline]]);
          (spoken [L "inverted comma"] false s i, [Txt [dquote]]);
          (spoken [L "comma"] true s i, [Txt (L ", ")]);
          (spoken [L "full stop"] true s i, [Txt (L ". ")]) ])
  /\ (forall pre M post,
         spoken [L "new line"; L "newline"] true (pre ++ M ++ post)
                (length pre)
         = Some (length pre + length M) ->
         substitute (pre ++ M ++ post)
         = substitute pre ++ [newline] ++ substitute post)
  /\ (forall pre M post,
         spoken [L "inverted comma"] false (pre ++ M ++ post) (length pre)
         = Some (length pre + length M) ->
         substitute (pre ++ M ++ post)
         = substitute pre ++ [dquote] ++ substitute post)
  /\ (forall pre M post,
         spoken [L "comma"] true (pre ++ M ++ post) (length pre)
         = Some (length pre + length M) ->
         ends_ci (L "inverted ") pre = false ->
         substitute (pre ++ M ++ post)
         = substitute pre ++ L ", " ++ substitute post)
  /\ (forall pre M post,
         spoken [L "full stop"] true (pre ++ M ++ post) (length pre)
         = Some (length pre + length M) ->
         substitute (pre ++ M ++ post)
         = substitute pre ++ L ". " ++ substitute post).
Proof.
  split; [|split; [|split; [|split]]].
  - intros s i. apply spoken_words_matched.
  - intros pre M post H.
    destruct (spoken_in_context _ _ _ pre M post described_new_line H)
      as [Hp Hm].
    exact (new_line_replaced _ _ _ _ described_new_line
             described_inverted_comma described_comma described_full_stop
             pre M post Hp Hm).
  - intros pre M post H.
    destruct (spoken_in_context _ _ _ pre M post described_inverted_comma H)
      as [Hp Hm].
    exact (inverted_comma_replaced _ _ _ _ described_new_line
             described_inverted_comma described_comma described_full_stop
             pre M post Hp Hm).
  - intros pre M post H He.
    destruct (spoken_in_context _ _ _ pre M post described_comma H)
      as [Hp Hm].
    exact (comma_replaced _ _ _ _ described_new_line
             described_inverted_comma described_comma described_full_stop
             pre M post Hp He Hm).
  - intros pre M post H.
    destruct (spoken_in_context _ _ _ pre M post described_full_stop H)
      as [Hp Hm].
    exact (full_stop_replaced _ _ _ _ described_new_line
             described_inverted_comma described_comma described_full_stop
             pre M post Hp Hm).
Qed.

Lemma spoken_words_replaced_witness :
  substitute (L "one " ++ L "New Line. " ++ L "two")
  = substitute (L "one ") ++ [newline] ++ substitute (L "two")
  /\ substitute (L "he said " ++ L "inverted comma," ++ L " hi")
     = substitute (L "he said ") ++ [dquote] ++ substitute (L " hi")
  /\ substitute (L "Hello " ++ L "COMMA, " ++ L "world full stop")
     = substitute (L "Hello ") ++ L ", " ++ substitute (L "world full stop")
  /\ substitute (L "world " ++ L "full stop" ++ [])
     = substitute (L "world ") ++ L ". " ++ substitute [].
Proof.
  destruct spoken_words_replaced as (_ & Hline & Hquote & Hcomma & Hstop).
  split; [|split; [|split]].
  - apply (Hline (L "one ") (L "New Line. ") (L "two")). reflexivity.
  - apply (Hquote (L "he said ") (L "inverted comma,") (L " hi")).
    reflexivity.
  - apply (Hcomma (L "Hello ") (L "COMMA, ") (L "world full stop"));
      reflexivity.
  - apply (Hstop (L "world ") (L "full stop") []). reflexivity.
Defined.

(** The "comma" of "inverted comma" is not replaced on its own: the rule of
    "inverted comma" comes first and takes it. *)
Lemma comma_of_inverted_comma :
  spoken [L "comma"] true (L "inverted " ++ L "comma" ++ []) 9 = Some 14
  /\ ends_ci (L "inverted ") (L "inverted ") = true
  /\ substitute (L "inverted " ++ L "comma" ++ []) = [dquote].
Proof. vm_compute. repeat split; reflexivity. Qed.

(** ** The rules of the protect phase *)

Lemma described_actual_new_line :
  described (Bnd +++ word "actual new" +++ Opt sp +++ word "line" +++ Bnd
             +++ trail)
            [L "actual new line"; L "actual newline"] true.
Proof.
  split; [|split; [|split; [|split]]].
  - intros s i. unfold word at 1.
    apply (match_optional_space_line s (L "actual new")). discriminate.
  - intros w [<-|[<-|[]]]; eexists _, _; split; reflexivity.
  - intros w [<-|[<-|[]]]; reflexivity.
  - intros w [<-|[<-|[]]]; reflexivity.
  - intros x y t. apply (exclusive_two (L "actual new")).
Qed.

Lemma described_actual_inverted_comma :
  described (Bnd +++ word "actual inverted comma" +++ Bnd +++ trail)
            [L "actual inverted comma"] true.
Proof.
  apply described_word; [eexists _, _; split|..]; reflexivity.
Qed.

Lemma described_actual_comma :
  described (Bnd +++ word "actual comma" +++ Bnd +++ trail)
            [L "actual comma"] true.
Proof.
  apply described_word; [eexists _, _; split|..]; reflexivity.
Qed.

Lemma described_actual_full_stop :
  described (Bnd +++ word "actual full stop" +++ Bnd +++ trail)
            [L "actual full stop"] true.
Proof.
  apply described_word; [eexists _, _; split|..]; reflexivity.
Qed.

Section Alone.

Variable r : regex.
Variable text : str.
Variable phrases : list str.
Variable space : bool.
Hypothesis rule : described r phrases space.

Let sub := re_sub true r [Txt text].

(** A match of the rule is replaced, whatever the replacement is. *)
Lemma rule_hit (p M q : str) :
  (forall w z, In w phrases -> nth_error w 0 = Some z ->
               joint phrases z = false) ->
  spoken phrases space (p ++ M ++ q) (length p)
  = Some (length p + length M) ->
  sub (p ++ M ++ q) = sub p ++ text ++ sub q.
Proof.
  intros Hj H. pose proof rule as (D & St & Sp & _).
  destruct (match_in_context phrases space p M q St H) as [Hp Hm].
  destruct (hit_shape phrases space St Sp M q Hm)
    as (w & Hw & _ & L & Pf & _ & _ & Hcut).
  apply (hit r text phrases space D St Sp p M q Hp).
  - intros d _. apply (hit_head phrases space St Sp M q Hm).
  - apply (before_no_straddle phrases phrases space p M q St Sp Hj Hp Hm).
  - exact Hm.
  - destruct Hcut; auto.
Qed.

Lemma nothing_before_after (t : str) :
  no_match_in true t r = true -> sub t = t.
Proof. apply re_sub_no_match. Qed.

Lemma alone_hit (p M q : str) :
  (forall w z, In w phrases -> nth_error w 0 = Some z ->
               joint phrases z = false) ->
  spoken phrases space (p ++ M ++ q) (length p)
  = Some (length p + length M) ->
  no_match_in true p r = true -> no_match_in true q r = true ->
  sub (p ++ M ++ q) = p ++ text ++ q.
Proof.
  intros Hj H Np Nq. rewrite (rule_hit p M q Hj H).
  rewrite !nothing_before_after by assumption. reflexivity.
Qed.

Lemma none_at_start (q : str) :
  no_match_in true q r = true -> spoken phrases space q 0 = None.
Proof.
  intros N. destruct rule as (D & _). rewrite <- D.
  rewrite no_match_in_spec in N. rewrite (N 0) by lia. reflexivity.
Qed.

(** The rule finds nothing in a text in which another rule has its only
    match. *)
Lemma alone_before (others : list str) (space' : bool) (r' : regex)
      (p M q : str) :
  described r' others space' ->
  (forall w, In w others -> clear_of phrases w = true) ->
  (forall w z, In w others -> nth_error w 0 = Some z ->
               joint phrases z = false) ->
  word_at p (length p - 1) = false ->
  spoken others space' (M ++ q) 0 = Some (length M) ->
  no_match_in true p r = true -> no_match_in true q r = true ->
  sub (p ++ M ++ q) = p ++ M ++ q.
Proof.
  intros (D' & St' & Sp' & Lo' & _) Hclear Hj Hp Hm Np Nq.
  pose proof rule as (D & St & Sp & _).
  rewrite <- (nothing_before_after p Np) at 2.
  rewrite <- (nothing_before_after q Nq) at 2.
  apply (three_way r text phrases space D St Sp p M q Hp).
  - intros d _. apply (hit_head others space' St' Sp' M q Hm).
  - apply (before_no_straddle phrases others space' p M q St' Sp' Hj Hp Hm).
  - apply (none_in_match phrases space St others space' M q
                         St' Sp' Lo' Hclear Hm).
  - right. right. apply none_at_start, Nq.
Qed.

(** The rule finds nothing in a text that holds a token between two texts
    in which it finds nothing. *)
Lemma alone_after (mid p q : str) (m0 : ascii) :
  nth_error mid 0 = Some m0 -> is_blank m0 = false ->
  joint phrases m0 = false ->
  clear_of phrases mid = true ->
  word_at p (length p - 1) = false ->
  no_match_in true p r = true -> no_match_in true q r = true ->
  sub (p ++ mid ++ q) = p ++ mid ++ q.
Proof.
  intros N0 B0 J0 Hclear Hp Np Nq.
  pose proof rule as (D & St & Sp & _).
  rewrite <- (nothing_before_after p Np) at 2.
  rewrite <- (nothing_before_after q Nq) at 2.
  assert (Hlen : 0 < length mid)
    by (apply nth_error_Some; congruence).
  apply (three_way r text phrases space D St Sp p mid q Hp).
  - intros d _ N. rewrite nth_error_app1, N0 in N by exact Hlen.
    injection N as <-. exact B0.
  - apply (no_straddle phrases p (mid ++ q) m0 Hp).
    + rewrite nth_error_app1 by exact Hlen. exact N0.
    + exact J0.
  - intros i Hi. apply spoken_none. intros w Hw.
    apply clash_sound; [exact Hi|].
    unfold clear_of in Hclear. rewrite forallb_forall in Hclear.
    assert (Hin : In i (seq 0 (length mid))) by (apply in_seq; lia).
    apply Hclear in Hin. rewrite forallb_forall in Hin. apply Hin, Hw.
  - right. right. apply none_at_start, Nq.
Qed.

End Alone.

Section Protect.

Variables r1 r2 r3 r4 : regex.
Hypothesis D1 : described r1 [L "actual new line"; L "actual newline"] true.
Hypothesis D2 : described r2 [L "actual inverted comma"] true.
Hypothesis D3 : described r3 [L "actual comma"] true.
Hypothesis D4 : described r4 [L "actual full stop"] true.

Let sub1 := re_sub true r1 [Txt (L "NEW_LINE_PLACEHOLDER")].
Let sub2 := re_sub true r2 [Txt (L "INVERTED_COMMA_PLACEHOLDER")].
Let sub3 := re_sub true r3 [Txt (L "COMMA_PLACEHOLDER")].
Let sub4 := re_sub true r4 [Txt (L "FULL_STOP_PLACEHOLDER")].

Variables p q : str.
Hypothesis nothing :
  forall r, In r [r1; r2; r3; r4] ->
            no_match_in true p r = true /\ no_match_in true q r = true.

Ltac nothing_in :=
  match goal with
  | |- no_match_in true p ?r = true =>
      apply (proj1 (nothing r ltac:(cbn [In]; tauto)))
  | |- no_match_in true q ?r = true =>
      apply (proj2 (nothing r ltac:(cbn [In]; tauto)))
  end.

Ltac before rj Dj rk Dk M Hp Hm :=
  rewrite (alone_before rj _ _ _ Dj _ _ rk p M q Dk);
  [ | all_clear | first_letter | exact Hp | exact Hm
    | nothing_in | nothing_in ].

Ltac after rj Dj tok Hp :=
  rewrite (alone_after rj _ _ _ Dj tok p q _ eq_refl);
  [ | reflexivity | reflexivity | vm_compute; reflexivity | exact Hp
    | nothing_in | nothing_in ].

Lemma actual_new_line_alone (M : str) :
  spoken [L "actual new line"; L "actual newline"] true (p ++ M ++ q)
         (length p)
  = Some (length p + length M) ->
  sub4 (sub3 (sub2 (sub1 (p ++ M ++ q))))
  = p ++ L "NEW_LINE_PLACEHOLDER" ++ q.
Proof.
  intros H. pose proof D1 as (_ & St & _).
  destruct (match_in_context _ _ p M q St H) as [Hp Hm].
  unfold sub1.
  rewrite (alone_hit r1 _ _ _ D1 p M q);
    [ | first_letter | exact H | nothing_in | nothing_in ].
  unfold sub2. after r2 D2 (L "NEW_LINE_PLACEHOLDER") Hp.
  unfold sub3. after r3 D3 (L "NEW_LINE_PLACEHOLDER") Hp.
  unfold sub4. after r4 D4 (L "NEW_LINE_PLACEHOLDER") Hp.
  reflexivity.
Qed.

Lemma actual_inverted_comma_alone (M : str) :
  spoken [L "actual inverted comma"] true (p ++ M ++ q) (length p)
  = Some (length p + length M) ->
  sub4 (sub3 (sub2 (sub1 (p ++ M ++ q))))
  = p ++ L "INVERTED_COMMA_PLACEHOLDER" ++ q.
Proof.
  intros H. pose proof D2 as (_ & St & _).
  destruct (match_in_context _ _ p M q St H) as [Hp Hm].
  unfold sub1. before r1 D1 r2 D2 M Hp Hm.
  unfold sub2.
  rewrite (alone_hit r2 _ _ _ D2 p M q);
    [ | first_letter | exact H | nothing_in | nothing_in ].
  unfold sub3. after r3 D3 (L "INVERTED_COMMA_PLACEHOLDER") Hp.
  unfold sub4. after r4 D4 (L "INVERTED_COMMA_PLACEHOLDER") Hp.
  reflexivity.
Qed.

Lemma actual_comma_alone (M : str) :
  spoken [L "actual comma"] true (p ++ M ++ q) (length p)
  = Some (length p + length M) ->
  sub4 (sub3 (sub2 (sub1 (p ++ M ++ q))))
  = p ++ L "COMMA_PLACEHOLDER" ++ q.
Proof.
  intros H. pose proof D3 as (_ & St & _).
  destruct (match_in_context _ _ p M q St H) as [Hp Hm].
  unfold sub1. before r1 D1 r3 D3 M Hp Hm.
  unfold sub2. before r2 D2 r3 D3 M Hp Hm.
  unfold sub3.
  rewrite (alone_hit r3 _ _ _ D3 p M q);
    [ | first_letter | exact H | nothing_in | nothing_in ].
  unfold sub4. after r4 D4 (L "COMMA_PLACEHOLDER") Hp.
  reflexivity.
Qed.

Lemma actual_full_stop_alone (M : str) :
  spoken [L "actual full stop"] true (p ++ M ++ q) (length p)
  = Some (length p + length M) ->
  sub4 (sub3 (sub2 (sub1 (p ++ M ++ q))))
  = p ++ L "FULL_STOP_PLACEHOLDER" ++ q.
Proof.
  intros H. pose proof D4 as (_ & St & _).
  destruct (match_in_context _ _ p M q St H) as [Hp Hm].
  unfold sub1. before r1 D1 r4 D4 M Hp Hm.
  unfold sub2. before r2 D2 r4 D4 M Hp Hm.
  unfold sub3. before r3 D3 r4 D4 M Hp Hm.
  unfold sub4.
  rewrite (alone_hit r4 _ _ _ D4 p M q);
    [ | first_letter | exact H | nothing_in | nothing_in ].
  reflexivity.
Qed.

End Protect.

Lemma protect_rule_replaces (r : regex) (token : str) (phrases : list str)
      (pre M post : str) :
  described r phrases true ->
  (forall w z, In w phrases -> nth_error w 0 = Some z ->
               joint phrases z = false) ->
  option_map pos (match_at true (pre ++ M ++ post) r (length pre))
  = Some (length pre + length M) ->
  spoken phrases true (pre ++ M ++ post) (length pre)
  = Some (length pre + length M)
  /\ re_sub true r [Txt token] (pre ++ M ++ post)
     = re_sub true r [Txt token] pre ++ token ++ re_sub true r [Txt token] post.
Proof.
  intros D J H.
  assert (Hs : spoken phrases true (pre ++ M ++ post) (length pre)
               = Some (length pre + length M)).
  { destruct D as (D & _). rewrite <- D. exact H. }
  split; [exact Hs|]. apply (rule_hit r token phrases true D pre M post J Hs).
Qed.

(** X8: each of the four patterns of the protect phase matches its phrase
    ("actual" and the spoken words, "new line" also as one word) in any case
    between two word boundaries, with at most one following mark , . ? and
    at most one following space.  The substitution of a rule writes the
    placeholder token of the rule in the place of such a match and rewrites
    the text before it and the text after it each on its own; and when no
    pattern of the phase matches in the text before or in the text after, the
    phase returns these two texts with the token between them. *)
Theorem protected_phrases_replaced :
  (forall s i,
      map (fun '(pattern, replacement) =>
             (option_map pos (match_at true s pattern i), replacement))
          REPLACEMENTS_REAL
      = [ (spoken [L "actual new line"; L "actual newline"] true s i,
           [Txt (L "NEW_LINE_PLACEHOLDER")]);
          (spoken [L "actual inverted comma"] true s i,
           [Txt (L "INVERTED_COMMA_PLACEHOLDER")]);
          (spoken [L "actual comma"] true s i,
           [Txt (L "COMMA_PLACEHOLDER")]);
          (spoken [L "actual full stop"] true s i,
           [Txt (L "FULL_STOP_PLACEHOLDER")]) ])
  /\ (forall r token pre M post,
         In (r, [Txt token]) REPLACEMENTS_REAL ->
         option_map pos (match_at true (pre ++ M ++ post) r (length pre))
         = Some (length pre + length M) ->
         re_sub true r [Txt token] (pre ++ M ++ post)
         = re_sub true r [Txt token] pre ++ token
           ++ re_sub true r [Txt token] post
         /\ ((forall r' repl',
                 In (r', repl') REPLACEMENTS_REAL ->
                 no_match_in true pre r' = true
                 /\ no_match_in true post r' = true) ->
             protect (pre ++ M ++ post) = pre ++ token ++ post)).
Proof.
  split; [intros s i; apply protected_phrases_matched|].
  intros r token pre M post Hin Hm.
  assert (Hnone : (forall r' repl',
                      In (r', repl') REPLACEMENTS_REAL ->
                      no_match_in true pre r' = true
                      /\ no_match_in true post r' = true) ->
                  forall r',
                    In r' (map fst REPLACEMENTS_REAL) ->
                    no_match_in true pre r' = true
                    /\ no_match_in true post r' = true).
  { intros H r' Hr. apply in_map_iff in Hr.
    destruct Hr as ([r'' repl] & <- & Hr). apply (H r'' repl Hr). }
  unfold REPLACEMENTS_REAL in Hin. cbn [In] in Hin.
  destruct Hin as [E|[E|[E|[E|[]]]]]; apply pair_equal_spec in E;
    destruct E as [<- E]; injection E as <-.
  - destruct (protect_rule_replaces _ (L "NEW_LINE_PLACEHOLDER") _ pre M post
                described_actual_new_line ltac:(first_letter) Hm)
      as [Hs Hr].
    split; [exact Hr|]. intros Hn.
    exact (actual_new_line_alone _ _ _ _ described_actual_new_line
             described_actual_inverted_comma described_actual_comma
             described_actual_full_stop pre post (Hnone Hn) M Hs).
  - destruct (protect_rule_replaces _ (L "INVERTED_COMMA_PLACEHOLDER") _
                pre M post described_actual_inverted_comma
                ltac:(first_letter) Hm) as [Hs Hr].
    split; [exact Hr|]. intros Hn.
    exact (actual_inverted_comma_alone _ _ _ _ described_actual_new_line
             described_actual_inverted_comma described_actual_comma
             described_actual_full_stop pre post (Hnone Hn) M Hs).
  - destruct (protect_rule_replaces _ (L "COMMA_PLACEHOLDER") _ pre M post
                described_actual_comma ltac:(first_letter) Hm)
      as [Hs Hr].
    split; [exact Hr|]. intros Hn.
    exact (actual_comma_alone _ _ _ _ described_actual_new_line
             described_actual_inverted_comma described_actual_comma
             described_actual_full_stop pre post (Hnone Hn) M Hs).
  - destruct (protect_rule_replaces _ (L "FULL_STOP_PLACEHOLDER") _ pre M post
                described_actual_full_stop ltac:(first_letter) Hm)
      as [Hs Hr].
    split; [exact Hr|]. intros Hn.
    exact (actual_full_stop_alone _ _ _ _ described_actual_new_line
             described_actual_inverted_comma described_actual_comma
             described_actual_full_stop pre post (Hnone Hn) M Hs).
Qed.

Lemma protected_phrases_replaced_witness :
  let r := fst (nth 2 REPLACEMENTS_REAL (Bnd, [])) in
  let token := L "COMMA_PLACEHOLDER" in
  re_sub true r [Txt token] (L "a comma, " ++ L "Actual Comma, " ++ L "b")
  = re_sub true r [Txt token] (L "a comma, ") ++ token
    ++ re_sub true r [Txt token] (L "b")
  /\ protect (L "a comma, " ++ L "Actual Comma, " ++ L "b")
     = L "a comma, " ++ token ++ L "b".
Proof.
  destruct protected_phrases_replaced as [_ H].
  destruct (H (fst (nth 2 REPLACEMENTS_REAL (Bnd, [])))
              (L "COMMA_PLACEHOLDER")
              (L "a comma, ") (L "Actual Comma, ") (L "b")) as [H1 H2].
  - right. right. left. reflexivity.
  - reflexivity.
  - split; [exact H1|]. apply H2.
    intros r' repl' Hin. unfold REPLACEMENTS_REAL in Hin. cbn [In] in Hin.
    destruct Hin as [E|[E|[E|[E|[]]]]]; apply pair_equal_spec in E;
      destruct E as [<- _]; split; vm_compute; reflexivity.
Defined.
